(** * FlexPath: a string-backed POSIX path value

    Shallow embedding of [flexlib/flexpath.py].  [FlexPath] subclasses
    [str], so a path value is its text; every method is a function of that
    text.  The [os.path] helpers the class delegates to ([normpath], [join],
    [dirname], [isabs], [commonpath], [abspath], [relpath]) are transcribed
    from CPython's [posixpath.py] / [genericpath.py] (the pure-Python
    definitions of releases 3.9 to 3.12). *)

From Stdlib Require Import Ascii String.
From Stdlib Require Import List ZArith Bool Lia Arith.
Import ListNotations.

Local Open Scope string_scope.
Local Open Scope list_scope.
Local Open Scope Z_scope.

(** ** Python [str] as a sequence of characters *)

Definition str := list ascii.

Definition lit (s : string) : str := list_ascii_of_string s.
Coercion lit : string >-> str.

Definition str_eq_dec : forall a b : str, {a = b} + {a <> b} :=
  list_eq_dec ascii_dec.

Definition eqb_str (a b : str) : bool :=
  if str_eq_dec a b then true else false.

Declare Scope pystr_scope.
Delimit Scope pystr_scope with pystr.
Infix "==" := eqb_str (at level 70, no associativity) : pystr_scope.
Local Open Scope pystr_scope.

Definition len {A} (l : list A) : Z := Z.of_nat (length l).

(** Python's ordering of sequences: lexicographic, a proper prefix first. *)
Fixpoint lex_compare {A} (cmp : A -> A -> comparison) (l1 l2 : list A)
  : comparison :=
  match l1, l2 with
  | [], [] => Eq
  | [], _ :: _ => Lt
  | _ :: _, [] => Gt
  | a :: t1, b :: t2 =>
      match cmp a b with
      | Eq => lex_compare cmp t1 t2
      | c => c
      end
  end.

Definition str_compare : str -> str -> comparison := lex_compare Ascii.compare.
Definition strs_compare : list str -> list str -> comparison :=
  lex_compare str_compare.

Definition is_Lt (c : comparison) : bool :=
  match c with Lt => true | _ => false end.
Definition is_Gt (c : comparison) : bool :=
  match c with Gt => true | _ => false end.

(** [min(m)] and [max(m)] on a non-empty list of component lists: the first
    extremal element wins. *)
Definition py_min (first : list str) (others : list (list str)) : list str :=
  fold_left (fun best x => if is_Lt (strs_compare x best) then x else best)
            others first.
Definition py_max (first : list str) (others : list (list str)) : list str :=
  fold_left (fun best x => if is_Gt (strs_compare x best) then x else best)
            others first.

(** [not s] / [not l]: emptiness test. *)
Definition is_empty {A} (l : list A) : bool :=
  match l with [] => true | _ :: _ => false end.

(** [s.startswith(prefix)] *)
Fixpoint startswith (prefix s : str) : bool :=
  match prefix, s with
  | [], _ => true
  | _ :: _, [] => false
  | a :: prefix', b :: s' => Ascii.eqb a b && startswith prefix' s'
  end.

(** [s.endswith(suffix)] *)
Definition endswith (suffix s : str) : bool :=
  startswith (rev suffix) (rev s).

(** [s.split(c)] for a one-character separator. *)
Fixpoint split (c : ascii) (s : str) : list str :=
  match s with
  | [] => [[]]
  | a :: t =>
      if Ascii.eqb a c then [] :: split c t
      else match split c t with
           | [] => [[a]]
           | h :: r => (a :: h) :: r
           end
  end.

(** [sep.join(l)] *)
Fixpoint sep_join (sep : str) (l : list str) : str :=
  match l with
  | [] => []
  | x :: r => match r with
              | [] => x
              | _ :: _ => x ++ sep ++ sep_join sep r
              end
  end.

(** [s.rstrip(c)] for a one-character strip set. *)
Fixpoint rstrip (c : ascii) (s : str) : str :=
  match s with
  | [] => []
  | a :: t => match rstrip c t with
              | [] => if Ascii.eqb a c then [] else [a]
              | t' => a :: t'
              end
  end.

(** [s.rfind(c)]: highest index of [c], or [-1]. *)
Fixpoint rfind (c : ascii) (s : str) : Z :=
  match s with
  | [] => -1
  | a :: t => let r := rfind c t in
              if 0 <=? r then r + 1
              else if Ascii.eqb a c then 0 else -1
  end.

(** [s.count(c)] *)
Definition count (c : ascii) (s : str) : Z :=
  Z.of_nat (count_occ ascii_dec s c).

(** [c in s] *)
Definition contains (c : ascii) (s : str) : bool :=
  existsb (Ascii.eqb c) s.

(** Slice bounds as Python clamps them: a negative index counts from the
    end, and the result is clipped to [0 .. len]. *)
Definition slice_index (n i : Z) : nat :=
  Z.to_nat (Z.min n (if i <? 0 then Z.max 0 (n + i) else i)).

(** [l[i:]] *)
Definition slice_from {A} (i : Z) (l : list A) : list A :=
  skipn (slice_index (len l) i) l.

(** [l[:j]] *)
Definition slice_to {A} (j : Z) (l : list A) : list A :=
  firstn (slice_index (len l) j) l.

(** ** Exceptions *)

Inductive exn : Type :=
| InvalidArgument      (* ValueError: bad name or suffix argument *)
| InvalidState         (* ValueError: receiver is root or empty / has no name *)
| IncompatibleAnchors  (* ValueError: "... are on different anchors" *)
| NotASubpath          (* ValueError: "... is not in the subpath of ..." *)
| MixedAnchors         (* ValueError raised by commonpath *)
| EmptySequence        (* ValueError raised by commonpath *)
| NoPathSpecified      (* ValueError raised by relpath *)
| IndexError
| FileNotFoundError.   (* OSError raised by os.getcwd *)

Inductive result (A : Type) : Type :=
| Ok (a : A)
| Raise (e : exn).
Arguments Ok {A} a.
Arguments Raise {A} e.

(** Whether a call raised. *)
Definition raised {A} (r : result A) : bool :=
  match r with Ok _ => false | Raise _ => true end.

Definition bind {A B} (r : result A) (k : A -> result B) : result B :=
  match r with
  | Ok a => k a
  | Raise e => Raise e
  end.

Notation "x <- r ;; k" := (bind r (fun x => k))
  (at level 61, r at next level, right associativity).

(** ** posixpath *)

Module posixpath.

Definition sep : str := "/".
Definition empty : str := "".
Definition curdir : str := ".".
Definition pardir : str := "..".
Definition slash : ascii := "/"%char.

(** [sep * n] *)
Definition seps (n : nat) : str := repeat slash n.

Definition isabs (s : str) : bool := startswith sep s.

(** [initial_slashes] of [normpath]: 0, 1, or 2 for exactly two leading
    slashes. *)
Definition initial_slashes (path : str) : nat :=
  if startswith sep path then
    if startswith (seps 2) path && negb (startswith (seps 3) path)
    then 2%nat else 1%nat
  else 0%nat.

(** One iteration of the [for comp in comps] loop of [normpath]. *)
Definition normpath_step (initial : nat) (new_comps : list str) (comp : str)
  : list str :=
  if (comp == empty) || (comp == curdir) then new_comps
  else if negb (comp == pardir)
          || ((initial =? 0)%nat && is_empty new_comps)
          || (negb (is_empty new_comps) && (last new_comps empty == pardir))
       then new_comps ++ [comp]
       else if negb (is_empty new_comps) then removelast new_comps
            else new_comps.

Definition normpath (path : str) : str :=
  if path == empty then curdir
  else
    let initial := initial_slashes path in
    let comps := fold_left (normpath_step initial) (split slash path) [] in
    let path := sep_join sep comps in
    let path := if negb (initial =? 0)%nat then seps initial ++ path
                else path in
    if is_empty path then curdir else path.

(** One iteration of the [for b in p] loop of [join]. *)
Definition join_step (path b : str) : str :=
  if startswith sep b then b
  else if is_empty path || endswith sep path then path ++ b
       else path ++ sep ++ b.

(** [os.path.join] of a first path [a] and the later fragments [p]. *)
Definition join (a : str) (p : list str) : str :=
  fold_left join_step p a.

(** [os.path.dirname(p)] *)
Definition dirname (p : str) : str :=
  let i := rfind slash p + 1 in
  let head := slice_to i p in
  if negb (is_empty head) && negb (head == seps (length head))
  then rstrip slash head
  else head.

(** [os.path.abspath(path)], reading the working directory [cwd]. *)
Definition abspath (cwd path : str) : str :=
  if negb (startswith sep path) then normpath (join cwd [path])
  else normpath path.

(** The loop [for i, c in enumerate(s1): if c != s2[i]: return s1[:i]]
    shared by [commonprefix] and [commonpath]; [todo] is the part of [s1]
    not yet visited and [i] the index of its head. *)
Fixpoint first_mismatch (s1 s2 : list str) (i : nat) (todo : list str)
  : result (list str) :=
  match todo with
  | [] => Ok s1
  | c :: todo' =>
      match nth_error s2 i with
      | None => Raise IndexError
      | Some d => if negb (c == d) then Ok (firstn i s1)
                  else first_mismatch s1 s2 (S i) todo'
      end
  end.

(** [genericpath.commonprefix(m)] on lists of components. *)
Definition commonprefix (m : list (list str)) : result (list str) :=
  match m with
  | [] => Ok []
  | x :: m' =>
      let s1 := py_min x m' in
      let s2 := py_max x m' in
      first_mismatch s1 s2 0 s1
  end.

(** [os.path.commonpath(paths)] *)
Definition commonpath (paths : list str) : result str :=
  match paths with
  | [] => Raise EmptySequence
  | p0 :: ps =>
      let split_paths := map (split slash) paths in
      let flags := map (fun p => slice_to 1 p == sep) paths in
      if negb (forallb (Bool.eqb (slice_to 1 p0 == sep)) flags)
      then Raise MixedAnchors
      else
        let isabs := slice_to 1 p0 == sep in
        let split_paths :=
          map (filter (fun c => negb (is_empty c) && negb (c == curdir)))
              split_paths in
        let s1 := py_min (hd [] split_paths) (tl split_paths) in
        let s2 := py_max (hd [] split_paths) (tl split_paths) in
        common <- first_mismatch s1 s2 0 s1 ;;
        let prefix := if isabs then sep else slice_to 0 sep in
        Ok (prefix ++ sep_join sep common)
  end.

(** [os.path.relpath(path, start)], reading the working directory [cwd]. *)
Definition relpath (cwd path start : str) : result str :=
  if is_empty path then Raise NoPathSpecified
  else
    let start_list :=
      filter (fun x => negb (is_empty x)) (split slash (abspath cwd start)) in
    let path_list :=
      filter (fun x => negb (is_empty x)) (split slash (abspath cwd path)) in
    common <- commonprefix [start_list; path_list] ;;
    let i := len common in
    let rel_list :=
      repeat pardir (Z.to_nat (len start_list - i)) ++ slice_from i path_list in
    match rel_list with
    | [] => Ok curdir
    | a :: p => Ok (join a p)
    end.

(** *** A working directory that may be gone

    [abspath], and through it [relpath], call [os.getcwd] for a path that
    is not absolute, and that call raises when the working directory of
    the process has been removed.  The definitions above are the functions
    once [os.getcwd] has returned [cwd]; those below carry the call. *)

(** [os.getcwd()]: [wd] is the working directory, or [None] when it is
    gone. *)
Definition getcwd (wd : option str) : result str :=
  match wd with
  | Some cwd => Ok cwd
  | None => Raise FileNotFoundError
  end.

Definition abspath_wd (wd : option str) (path : str) : result str :=
  if negb (startswith sep path) then
    cwd <- getcwd wd ;; Ok (normpath (join cwd [path]))
  else Ok (normpath path).

Definition relpath_wd (wd : option str) (path start : str) : result str :=
  if is_empty path then Raise NoPathSpecified
  else
    start_abs <- abspath_wd wd start ;;
    path_abs <- abspath_wd wd path ;;
    let start_list :=
      filter (fun x => negb (is_empty x)) (split slash start_abs) in
    let path_list :=
      filter (fun x => negb (is_empty x)) (split slash path_abs) in
    common <- commonprefix [start_list; path_list] ;;
    let i := len common in
    let rel_list :=
      repeat pardir (Z.to_nat (len start_list - i)) ++ slice_from i path_list in
    match rel_list with
    | [] => Ok curdir
    | a :: p => Ok (join a p)
    end.

End posixpath.

(** ** urllib.parse.quote *)

Module urllib.

(** [_ALWAYS_SAFE]: letters, digits and the four characters of ["_.-~"]. *)
Definition always_safe (c : ascii) : bool :=
  let n := N_of_ascii c in
  ((65 <=? n) && (n <=? 90))%N || ((97 <=? n) && (n <=? 122))%N
  || ((48 <=? n) && (n <=? 57))%N || contains c "_.-~".

(** [string.encode('utf-8')] on the characters a [str] holds here (code
    points below 256): one byte below 128, two bytes from there on. *)
Definition encode_utf8_char (c : ascii) : str :=
  let n := N_of_ascii c in
  if (n <? 128)%N then [c]
  else [ascii_of_N (192 + n / 64); ascii_of_N (128 + n mod 64)].

Definition encode_utf8 (s : str) : str := flat_map encode_utf8_char s.

(** One digit of ['{:02X}'.format(b)]. *)
Definition hex_digit (d : N) : ascii :=
  nth (N.to_nat d) (lit "0123456789ABCDEF") "0"%char.

(** [_Quoter.__missing__]: the text for one byte. *)
Definition quoter (safe : str) (b : ascii) : str :=
  if always_safe b || contains b safe then [b]
  else "%"%char :: [hex_digit (N_of_ascii b / 16);
                    hex_digit (N_of_ascii b mod 16)].

(** [bs.rstrip(chars)] for the set of characters [keep] accepts. *)
Fixpoint rstrip_set (strip : ascii -> bool) (s : str) : str :=
  match s with
  | [] => []
  | a :: t => match rstrip_set strip t with
              | [] => if strip a then [] else [a]
              | t' => a :: t'
              end
  end.

Definition quote_from_bytes (bs safe : str) : str :=
  if is_empty bs then lit ""
  else if is_empty (rstrip_set (fun b => always_safe b || contains b safe) bs)
       then bs
       else concat (map (quoter safe) bs).

Definition quote (string safe : str) : str :=
  if is_empty string then string
  else quote_from_bytes (encode_utf8 string) safe.

End urllib.

(** ** FlexPath *)

Module FlexPath.
Import posixpath.

(** [FlexPath.__new__]: the stored text. *)
Definition __new__ (path : str) : str :=
  let s := path in
  let norm := if s == "" then lit "" else normpath s in
  norm.

Definition _wrap (value : str) : str := __new__ value.

Definition _is_abs (self : str) : bool := startswith "/" self.

Definition _split_parts (self : str) : list str :=
  let s := self in
  if s == "" then []
  else if s == "/" then [lit "/"]
  else
    let comps := filter (fun c => negb (c == "")) (split slash s) in
    if startswith "/" s then lit "/" :: comps
    else comps.

Definition _last_component (self : str) : str :=
  let s := self in
  if s == "/" then "/"
  else
    let s := rstrip slash s in
    if s == "" then ""
    else
      let idx := rfind slash s in
      if 0 <=? idx then slice_from (idx + 1) s else s.

Definition parts (self : str) : list str := _split_parts self.

Definition name (self : str) : str := _last_component self.

Definition dotc : ascii := "."%char.

Definition suffix (self : str) : str :=
  let n := name self in
  if is_empty n || (n == "/") then ""
  else
    let i := rfind dotc n in
    if i <=? 0 then ""
    else slice_from i n.

Definition suffixes (self : str) : list str :=
  let n := name self in
  if is_empty n || (startswith "." n && (count dotc n =? 1)) then []
  else
    let parts := split dotc n in
    if len parts <=? 1 then []
    else map (fun p => lit "." ++ p) (slice_from 1 parts).

Definition stem (self : str) : str :=
  let n := name self in
  if is_empty n || (n == "/") then n
  else
    let i := rfind dotc n in
    if i <=? 0 then n
    else slice_to i n.

Definition parent (self : str) : str :=
  let s := self in
  if s == "/" then self
  else
    let s := rstrip slash s in
    if s == "" then _wrap "."
    else
      let d := dirname s in
      _wrap (if negb (d == "") then d else ".").

Definition with_name (self name : str) : result str :=
  if contains slash name || (name == "") then Raise InvalidArgument
  else if (self == "") || (self == "/") then Raise InvalidState
  else
    let p := parent self in
    if p == "." then Ok (_wrap name)
    else Ok (_wrap (p ++ sep ++ name)).

Definition with_suffix (self suffix : str) : result str :=
  if negb (is_empty suffix) && negb (startswith "." suffix)
  then Raise InvalidArgument
  else
    let n := name self in
    if (n == "") || (n == "/") then Raise InvalidState
    else
      let base := if negb (len n =? len self) then slice_to (- len n) self
                  else lit "" in
      let i := rfind dotc n in
      let new_name := if i <=? 0 then n ++ suffix
                      else slice_to i n ++ suffix in
      Ok (_wrap (base ++ new_name)).

Definition joinpath (self : str) (others : list str) : str :=
  match others with
  | [] => self
  | _ :: _ => _wrap (join self others)
  end.

Definition __truediv__ (self other : str) : str := joinpath self [other].

Definition __rtruediv__ (self other : str) : str := _wrap (join other [self]).

Definition is_absolute (self : str) : bool := isabs self.

(** [relative_to], with its variadic [other] as a list, in the working
    directory [cwd] that [os.path.relpath] consults. *)
Definition relative_to (cwd self : str) (other : list str) : result str :=
  let base := match other with
              | [] => lit ""
              | a :: p => join a p
              end in
  let sp := normpath self in
  let bp := normpath base in
  if negb (Bool.eqb (isabs sp) (isabs bp)) then Raise IncompatibleAnchors
  else
    match commonpath [sp; bp] with
    | Raise IndexError => Raise IndexError
    | Raise _ => Raise NotASubpath
    | Ok common =>
        if negb (common == bp) then Raise NotASubpath
        else
          rel <- relpath cwd sp bp ;;
          Ok (_wrap (if rel == "." then lit "." else rel))
    end.

Definition is_relative_to (cwd self : str) (other : list str) : bool :=
  match relative_to cwd self other with
  | Ok _ => true
  | Raise _ => false
  end.

(** [relative_to] and [is_relative_to] with the call of [os.getcwd] that
    [relpath] makes: [wd] is the working directory, or [None] when it is
    gone.  [is_relative_to] catches every exception, that of [os.getcwd]
    included. *)
Definition relative_to_wd (wd : option str) (self : str) (other : list str)
  : result str :=
  let base := match other with
              | [] => lit ""
              | a :: p => join a p
              end in
  let sp := normpath self in
  let bp := normpath base in
  if negb (Bool.eqb (isabs sp) (isabs bp)) then Raise IncompatibleAnchors
  else
    match commonpath [sp; bp] with
    | Raise IndexError => Raise IndexError
    | Raise _ => Raise NotASubpath
    | Ok common =>
        if negb (common == bp) then Raise NotASubpath
        else
          rel <- relpath_wd wd sp bp ;;
          Ok (_wrap (if rel == "." then lit "." else rel))
    end.

Definition is_relative_to_wd (wd : option str) (self : str)
  (other : list str) : bool :=
  match relative_to_wd wd self other with
  | Ok _ => true
  | Raise _ => false
  end.

Definition anchor (self : str) : str := if _is_abs self then "/" else "".

Definition root (self : str) : str := if _is_abs self then "/" else "".

Definition drive (self : str) : str := "".

(** The [while True] loop of [parents]; [None] when [fuel] iterations did
    not reach a [break]. *)
Fixpoint parents_loop (fuel : nat) (p : str) (res : list str)
  : option (list str) :=
  match fuel with
  | O => None
  | S fuel' =>
      let par := parent p in
      if par == p then Some res
      else if par == "." then Some res
      else parents_loop fuel' par (res ++ [par])
  end.

(** [parents]: every iteration shortens the text, so its length bounds the
    number of iterations. *)
Definition parents (self : str) : option (list str) :=
  parents_loop (S (length self)) self [].

Definition with_stem (self stem : str) : result str :=
  if contains slash stem || (stem == "") then Raise InvalidArgument
  else
    let n := name self in
    if (n == "") || (n == "/") then Raise InvalidState
    else
      let base := if negb (len n =? len self) then slice_to (- len n) self
                  else lit "" in
      let suf := suffix self in
      Ok (_wrap (base ++ stem ++ suf)).

(** The backslash character. *)
Definition backslash : ascii := ascii_of_N 92.

(** [s.replace(backslash, "/")] *)
Definition as_posix (self : str) : str :=
  map (fun c => if Ascii.eqb c backslash then slash else c) self.

Definition as_uri (self : str) : result str :=
  if negb (is_absolute self) then Raise InvalidState
  else Ok (lit "file://" ++ urllib.quote (as_posix self) "/:").

(** [absolute], in the working directory [cwd] that [os.path.abspath]
    consults. *)
Definition absolute (cwd self : str) : str := _wrap (abspath cwd self).

End FlexPath.

(** ** Specification-side notions *)

Module Spec.

(** The text of a name before its first dot. *)
Fixpoint before_first_dot (n : str) : str :=
  match n with
  | [] => []
  | a :: t => if Ascii.eqb a FlexPath.dotc then [] else a :: before_first_dot t
  end.

(** The trailing run of dot-groups of a name: its text from the first dot
    on. *)
Fixpoint dot_groups (n : str) : str :=
  match n with
  | [] => []
  | a :: t => if Ascii.eqb a FlexPath.dotc then n else dot_groups t
  end.

(** The longest common prefix of two component sequences. *)
Fixpoint common_prefix (l1 l2 : list str) : list str :=
  match l1, l2 with
  | a :: t1, b :: t2 => if a == b then a :: common_prefix t1 t2 else []
  | _, _ => []
  end.

(** Normalization as the specification words it. *)

(** Segments that are dropped outright: empty ones and literal [.]. *)
Definition retained (c : str) : bool :=
  negb (c == "") && negb (c == ".").

(** Resolving [..] against the retained segments; [stack] holds them most
    recent first. *)
Fixpoint resolve (absolute : bool) (stack segs : list str) : list str :=
  match segs with
  | [] => rev stack
  | c :: segs' =>
      if c == ".." then
        match stack with
        | [] => if absolute then resolve absolute [] segs'
                else resolve absolute [c] segs'
        | previous :: below =>
            if previous == ".." then resolve absolute (c :: stack) segs'
            else resolve absolute below segs'
        end
      else resolve absolute (c :: stack) segs'
  end.

Definition segments (s : str) : list str :=
  resolve (startswith "/" s) [] (filter retained (split "/"%char s)).

(** Split, drop, resolve, reassemble; prefixed by [/] iff the input was
    absolute. *)
Definition normalize (s : str) : str :=
  (if startswith "/" s then lit "/" else lit "")
    ++ sep_join "/" (segments s).

(** The same with the two POSIX refinements of the root: exactly two leading
    slashes are kept as [//], and a non-empty input of which nothing remains
    is [.]. *)
Definition root_prefix (s : str) : str :=
  if startswith "//" s && negb (startswith "///" s) then "//"
  else if startswith "/" s then "/"
  else "".

Definition normalize_posix (s : str) : str :=
  if s == "" then ""
  else
    let text := root_prefix s ++ sep_join "/" (segments s) in
    if is_empty text then "." else text.

(** Joining as the specification words it, for fragments that are all
    relative: the segments of the fragments follow the components of the
    base and are dropped, or resolved against what precedes them, as in
    construction; the root prefix is that of the base. *)
Definition joined (base : str) (fragments : list str) : str :=
  let comps :=
    resolve (startswith "/" base) (rev (segments base))
      (filter retained (flat_map (split "/"%char) fragments)) in
  let text := root_prefix base ++ sep_join "/" comps in
  if is_empty text then "." else text.

End Spec.

(** ** Normal forms *)

Module NormalForm.
Import posixpath.

(** A component that [normpath] keeps and that is not [..]. *)
Definition named (c : str) : Prop :=
  c <> [] /\ ~ In slash c /\ c <> curdir /\ c <> pardir.

(** The component lists [normpath] produces: [..] components only in front,
    and none at all under a root. *)
Definition canonical (initial : nat) (comps : list str) : Prop :=
  exists n rest,
    comps = repeat pardir n ++ rest /\ Forall named rest /\
    (initial <> 0%nat -> n = 0%nat).

(** The text [normpath] assembles from its components. *)
Definition render (initial : nat) (comps : list str) : str :=
  let path := sep_join sep comps in
  let path := if negb (initial =? 0)%nat then seps initial ++ path
              else path in
  if is_empty path then curdir else path.

(** The components [normpath] computes for a text. *)
Definition comps_of (path : str) : list str :=
  fold_left (normpath_step (initial_slashes path)) (split slash path) [].

(** Whether the scan of [s1] against [s2] would index past the end of [s2]:
    [s2] is a proper prefix of [s1]. *)
Fixpoint overruns (s1 s2 : list str) : bool :=
  match s1, s2 with
  | [], _ => false
  | _ :: _, [] => true
  | a :: t1, b :: t2 => if a == b then overruns t1 t2 else false
  end.

End NormalForm.

(** ** Layout of a normalized text *)

Module Layout.
Import posixpath NormalForm.

(** The text in front of the last component: the root prefix, then the
    earlier components, each followed by a slash. *)
Definition front (initial : nat) (init : list str) : str :=
  (if negb (initial =? 0)%nat then seps initial else [])
    ++ concat (map (fun c => c ++ sep) init).

(** The ancestors [parents] collects for components given last first. *)
Fixpoint chain (initial : nat) (rinit : list str) : list str :=
  match rinit with
  | [] => if (initial =? 0)%nat then [] else [render initial []]
  | _ :: r => render initial (rev rinit) :: chain initial r
  end.

(** [l] lists the parent of [p], then the parent of that, and so on. *)
Fixpoint parent_chain (p : str) (l : list str) : Prop :=
  match l with
  | [] => True
  | q :: l' => q = FlexPath.parent p /\ parent_chain q l'
  end.

End Layout.

(** * Verification *)

Import posixpath NormalForm.

(** ** Facts about the string primitives *)

Lemma eqb_str_true (a b : str) : (a == b) = true <-> a = b.
Proof. unfold eqb_str. destruct (str_eq_dec a b); split; congruence. Qed.

Lemma eqb_str_false (a b : str) : (a == b) = false <-> a <> b.
Proof. unfold eqb_str. destruct (str_eq_dec a b); split; congruence. Qed.

Lemma eqb_str_refl (a : str) : (a == a) = true.
Proof. apply eqb_str_true. reflexivity. Qed.

Ltac case_eqb a b :=
  let E := fresh "E" in
  destruct (a == b) eqn:E;
  [apply eqb_str_true in E | apply eqb_str_false in E].

Lemma is_empty_true {A} (l : list A) : is_empty l = true <-> l = [].
Proof. destruct l; simpl; split; congruence. Qed.

Lemma is_empty_false {A} (l : list A) : is_empty l = false <-> l <> [].
Proof. destruct l; simpl; split; congruence. Qed.

Lemma len_nonneg {A} (l : list A) : 0 <= len l.
Proof. unfold len. lia. Qed.

Lemma len_app {A} (l1 l2 : list A) : len (l1 ++ l2) = len l1 + len l2.
Proof. unfold len. rewrite length_app. lia. Qed.

Lemma len_cons {A} (a : A) (l : list A) : len (a :: l) = len l + 1.
Proof. unfold len. simpl length. lia. Qed.

Lemma slice_index_len {A} (pre post : list A) :
  slice_index (len (pre ++ post)) (len pre) = length pre.
Proof.
  unfold slice_index. rewrite len_app.
  pose proof (len_nonneg pre). pose proof (len_nonneg post).
  destruct (len pre <? 0) eqn:E; [apply Z.ltb_lt in E; lia|].
  unfold len in *. lia.
Qed.

Lemma slice_to_app {A} (pre post : list A) :
  slice_to (len pre) (pre ++ post) = pre.
Proof.
  unfold slice_to. rewrite slice_index_len.
  rewrite firstn_app, Nat.sub_diag, firstn_all. simpl. apply app_nil_r.
Qed.

Lemma slice_from_app {A} (pre post : list A) :
  slice_from (len pre) (pre ++ post) = post.
Proof.
  unfold slice_from. rewrite slice_index_len.
  rewrite skipn_app, Nat.sub_diag, skipn_all. reflexivity.
Qed.

Lemma slice_to_from {A} (i : Z) (l : list A) :
  slice_to i l ++ slice_from i l = l.
Proof. unfold slice_to, slice_from. apply firstn_skipn. Qed.


Lemma rfind_absent (c : ascii) (s : str) : ~ In c s -> rfind c s = -1.
Proof.
  induction s as [|a t IH]; simpl; intros H; [reflexivity|].
  rewrite IH by tauto. simpl.
  destruct (Ascii.eqb_spec a c) as [->|]; [tauto | reflexivity].
Qed.

Lemma rfind_last_occurrence (c : ascii) (pre post : str) :
  ~ In c post -> rfind c (pre ++ c :: post) = len pre.
Proof.
  intros H. induction pre as [|a pre IH]; simpl.
  - rewrite rfind_absent by assumption. simpl.
    now rewrite Ascii.eqb_refl.
  - rewrite IH. pose proof (len_nonneg pre).
    destruct (0 <=? len pre) eqn:E; [|apply Z.leb_gt in E; lia].
    rewrite len_cons. reflexivity.
Qed.

Lemma rfind_found (c : ascii) (s : str) :
  0 <= rfind c s ->
  exists pre post, s = pre ++ c :: post /\ ~ In c post /\ rfind c s = len pre.
Proof.
  induction s as [|a t IH]; simpl; [lia|].
  destruct (0 <=? rfind c t) eqn:E.
  - apply Z.leb_le in E. destruct (IH E) as (pre & post & -> & Hn & Hr).
    intros _. exists (a :: pre), post. rewrite Hr, len_cons. auto.
  - destruct (Ascii.eqb_spec a c) as [->|]; [|lia].
    intros _. exists [], t. split; [reflexivity|]. split; [|reflexivity].
    intros Hin. apply Z.leb_gt in E.
    assert (Habs : forall s, In c s -> 0 <= rfind c s).
    { clear. induction s as [|b s IH]; simpl; [tauto|].
      intros [->|H].
      - destruct (0 <=? rfind c s) eqn:E; [apply Z.leb_le in E; lia|].
        rewrite Ascii.eqb_refl. lia.
      - specialize (IH H). destruct (0 <=? rfind c s) eqn:E; [lia|].
        apply Z.leb_gt in E. lia. }
    specialize (Habs _ Hin). lia.
Qed.

Lemma contains_false (c : ascii) (s : str) :
  contains c s = false <-> ~ In c s.
Proof.
  unfold contains. induction s as [|a t IH]; simpl; [tauto|].
  rewrite orb_false_iff, IH.
  destruct (Ascii.eqb_spec c a); split; intros; intuition congruence.
Qed.


Lemma split_not_nil (c : ascii) (s : str) : split c s <> [].
Proof.
  induction s as [|a t IH]; simpl; [discriminate|].
  destruct (Ascii.eqb a c); [discriminate|].
  destruct (split c t); discriminate.
Qed.

Lemma split_absent (c : ascii) (s : str) : ~ In c s -> split c s = [s].
Proof.
  induction s as [|a t IH]; simpl; intros H; [reflexivity|].
  destruct (Ascii.eqb_spec a c) as [->|]; [tauto|].
  rewrite IH by tauto. reflexivity.
Qed.

Lemma split_app_sep (c : ascii) (pre post : str) :
  split c (pre ++ c :: post) = split c pre ++ split c post.
Proof.
  induction pre as [|a pre IH]; simpl.
  - now rewrite Ascii.eqb_refl.
  - rewrite IH. destruct (Ascii.eqb a c); [reflexivity|].
    pose proof (split_not_nil c pre).
    destruct (split c pre); [congruence | reflexivity].
Qed.

Lemma split_pieces_clean (c : ascii) (s : str) :
  Forall (fun x => ~ In c x) (split c s).
Proof.
  induction s as [|a t IH]; simpl.
  - constructor; [tauto | constructor].
  - destruct (Ascii.eqb_spec a c) as [->|Hne].
    + constructor; [simpl; tauto | assumption].
    + destruct (split c t) as [|h r]; inversion IH; subst.
      * constructor; [simpl; intuition congruence | constructor].
      * constructor; [simpl; intuition congruence | assumption].
Qed.

Lemma split_concat (c : ascii) (s : str) :
  s = hd [] (split c s) ++ concat (map (cons c) (tl (split c s))).
Proof.
  induction s as [|a t IH]; simpl; [reflexivity|].
  destruct (Ascii.eqb_spec a c) as [->|Hne].
  - simpl. destruct (split c t) as [|h r] eqn:E.
    + now apply split_not_nil in E.
    + simpl in *. now rewrite <- IH.
  - destruct (split c t) as [|h r] eqn:E.
    + now apply split_not_nil in E.
    + simpl in *. now rewrite <- IH.
Qed.

Lemma sep_join_cons (sp x : str) (l : list str) :
  l <> [] -> sep_join sp (x :: l) = x ++ sp ++ sep_join sp l.
Proof. destruct l; [congruence | reflexivity]. Qed.

Lemma split_sep_join (c : ascii) (l : list str) :
  l <> [] -> Forall (fun x => ~ In c x) l -> split c (sep_join [c] l) = l.
Proof.
  induction l as [|x l IH]; [congruence|]. intros _ H.
  inversion H as [|? ? Hx Hl]; subst.
  destruct l as [|y l].
  - simpl. now apply split_absent.
  - rewrite sep_join_cons by discriminate. cbn [app].
    rewrite split_app_sep, split_absent by assumption.
    rewrite IH by (assumption || discriminate). reflexivity.
Qed.

(** ** Decomposition accessors *)

Lemma slice_from_1 {A} (a : A) (l : list A) : slice_from 1 (a :: l) = l.
Proof.
  unfold slice_from, slice_index. rewrite len_cons.
  pose proof (len_nonneg l). change (1 <? 0) with false. cbv iota.
  replace (Z.to_nat (Z.min (len l + 1) 1)) with 1%nat by lia. reflexivity.
Qed.

Lemma dot_groups_skip (h t : str) :
  ~ In FlexPath.dotc h ->
  Spec.dot_groups (h ++ FlexPath.dotc :: t) = FlexPath.dotc :: t.
Proof.
  induction h as [|a h IH]; simpl; intros H.
  - reflexivity.
  - destruct (Ascii.eqb_spec a FlexPath.dotc) as [->|]; [tauto|].
    apply IH. tauto.
Qed.

Lemma before_first_dot_skip (h t : str) :
  ~ In FlexPath.dotc h ->
  Spec.before_first_dot (h ++ FlexPath.dotc :: t) = h.
Proof.
  induction h as [|a h IH]; simpl; intros H.
  - reflexivity.
  - destruct (Ascii.eqb_spec a FlexPath.dotc) as [->|]; [tauto|].
    rewrite IH by tauto. reflexivity.
Qed.

(** The shape of a name that has a suffix: a non-empty text, then the last
    dot, then dot-free text. *)
Lemma suffix_shape (p : str) :
  is_empty (FlexPath.suffix p) = false ->
  exists pre post,
    FlexPath.name p = pre ++ FlexPath.dotc :: post /\
    pre <> [] /\ ~ In FlexPath.dotc post /\
    FlexPath.suffix p = FlexPath.dotc :: post /\
    FlexPath.stem p = pre.
Proof.
  unfold FlexPath.suffix, FlexPath.stem.
  set (n := FlexPath.name p).
  destruct (is_empty n || (n == "/")); [discriminate|].
  destruct (rfind FlexPath.dotc n <=? 0) eqn:Ei; [discriminate|].
  apply Z.leb_gt in Ei. intros _.
  destruct (rfind_found FlexPath.dotc n) as (pre & post & Hn & Hpost & Hr);
    [lia|].
  exists pre, post. rewrite Hr. clearbody n. subst n.
  rewrite slice_from_app, slice_to_app.
  repeat split; try assumption.
  intros ->. rewrite Hr in Ei. unfold len in Ei. simpl in Ei. lia.
Qed.

Lemma count_two_dots (a : ascii) (pre post : str) :
  startswith "." (a :: pre ++ FlexPath.dotc :: post) = true ->
  (count FlexPath.dotc (a :: pre ++ FlexPath.dotc :: post) =? 1) = false.
Proof.
  cbn [startswith lit list_ascii_of_string].
  destruct (Ascii.eqb_spec "."%char a) as [<-|]; [|discriminate].
  intros _. unfold count. apply Z.eqb_neq.
  change (count_occ ascii_dec ("."%char :: pre ++ FlexPath.dotc :: post)
            FlexPath.dotc)
    with (S (count_occ ascii_dec (pre ++ FlexPath.dotc :: post) FlexPath.dotc)).
  rewrite count_occ_app. rewrite count_occ_cons_eq by reflexivity. lia.
Qed.

Lemma suffixes_shape (p pre post : str) :
  FlexPath.name p = pre ++ FlexPath.dotc :: post ->
  pre <> [] -> ~ In FlexPath.dotc post ->
  FlexPath.suffixes p =
    map (cons FlexPath.dotc) (tl (split FlexPath.dotc pre))
    ++ [FlexPath.dotc :: post].
Proof.
  intros Hn Hpre Hpost. unfold FlexPath.suffixes. rewrite Hn.
  destruct pre as [|a pre]; [congruence|].
  change ((a :: pre) ++ FlexPath.dotc :: post)
    with (a :: pre ++ FlexPath.dotc :: post).
  cbn [is_empty orb].
  destruct (startswith "." (a :: pre ++ FlexPath.dotc :: post)) eqn:Es.
  - rewrite (count_two_dots _ _ _ Es). cbn [andb].
    change (a :: pre ++ FlexPath.dotc :: post)
      with ((a :: pre) ++ FlexPath.dotc :: post).
    rewrite split_app_sep, (split_absent _ post) by assumption.
    destruct (split FlexPath.dotc (a :: pre)) as [|h r] eqn:E;
      [now apply split_not_nil in E|].
    cbn [app tl]. rewrite len_cons, len_app.
    pose proof (len_nonneg r). change (len [post]) with 1.
    destruct (len r + 1 + 1 <=? 1) eqn:El; [apply Z.leb_le in El; lia|].
    rewrite slice_from_1, map_app. reflexivity.
  - cbn [andb].
    change (a :: pre ++ FlexPath.dotc :: post)
      with ((a :: pre) ++ FlexPath.dotc :: post).
    rewrite split_app_sep, (split_absent _ post) by assumption.
    destruct (split FlexPath.dotc (a :: pre)) as [|h r] eqn:E;
      [now apply split_not_nil in E|].
    cbn [app tl]. rewrite len_cons, len_app.
    pose proof (len_nonneg r). change (len [post]) with 1.
    destruct (len r + 1 + 1 <=? 1) eqn:El; [apply Z.leb_le in El; lia|].
    rewrite slice_from_1, map_app. reflexivity.
Qed.

(** C3: whenever a name has a non-empty suffix, [stem + suffix == name], and
    the concatenated [suffixes] are the trailing run of dot-groups of the
    name, i.e. the name from its first dot on; the last of them is [suffix]
    and the others close the stem. *)
Theorem stem_suffix_suffixes_agree (p : str) :
  is_empty (FlexPath.suffix p) = false ->
  FlexPath.stem p ++ FlexPath.suffix p = FlexPath.name p /\
  concat (FlexPath.suffixes p) = Spec.dot_groups (FlexPath.name p) /\
  Spec.before_first_dot (FlexPath.name p) ++ concat (FlexPath.suffixes p)
    = FlexPath.name p /\
  last (FlexPath.suffixes p) [] = FlexPath.suffix p /\
  Spec.before_first_dot (FlexPath.name p)
    ++ concat (removelast (FlexPath.suffixes p)) = FlexPath.stem p.
Proof.
  intros H.
  destruct (suffix_shape p H) as (pre & post & Hn & Hpre & Hpost & Hsuf & Hstem).
  rewrite (suffixes_shape p pre post Hn Hpre Hpost), Hsuf, Hstem, Hn.
  rewrite last_last, removelast_last, concat_app. cbn [concat]. rewrite app_nil_r.
  pose proof (split_concat FlexPath.dotc pre) as Hc.
  pose proof (split_pieces_clean FlexPath.dotc pre) as Hclean.
  destruct (split FlexPath.dotc pre) as [|h r] eqn:E;
    [now apply split_not_nil in E|].
  cbn [hd tl] in *. apply Forall_inv in Hclean. rename Hclean into Hh.
  assert (Hrun : exists t, concat (map (cons FlexPath.dotc) r)
                   ++ FlexPath.dotc :: post = FlexPath.dotc :: t).
  { destruct r; cbn; eauto. }
  destruct Hrun as (t & Hrun).
  assert (Hname : pre ++ FlexPath.dotc :: post = h ++ FlexPath.dotc :: t).
  { rewrite Hc at 1. rewrite <- app_assoc. now rewrite Hrun. }
  rewrite Hname, dot_groups_skip, before_first_dot_skip by assumption.
  rewrite Hrun. repeat split; try reflexivity. symmetry. exact Hc.
Qed.

Lemma stem_suffix_suffixes_agree_witness :
  FlexPath.stem "/home/user/archive.tar.gz"
    ++ FlexPath.suffix "/home/user/archive.tar.gz"
  = FlexPath.name "/home/user/archive.tar.gz"
  /\ concat (FlexPath.suffixes "/home/user/archive.tar.gz")
     = Spec.dot_groups (FlexPath.name "/home/user/archive.tar.gz").
Proof.
  destruct (stem_suffix_suffixes_agree "/home/user/archive.tar.gz")
    as (H1 & H2 & _); [reflexivity|].
  split; [exact H1 | exact H2].
Defined.

Example archive_tar_gz :
  FlexPath.suffixes (FlexPath.__new__ "/home/user/archive.tar.gz")
    = [lit ".tar"; lit ".gz"]
  /\ FlexPath.stem (FlexPath.__new__ "/home/user/archive.tar.gz") = "archive.tar".
Proof. split; reflexivity. Qed.

Lemma count_single_dot (t : str) :
  ~ In FlexPath.dotc t -> count FlexPath.dotc (FlexPath.dotc :: t) = 1.
Proof.
  intros H. unfold count.
  rewrite count_occ_cons_eq by reflexivity.
  apply (count_occ_not_In ascii_dec) in H. rewrite H. reflexivity.
Qed.

(** C4: a dotfile, i.e. a name that starts with a dot and has no other dot,
    has no suffix: [suffix] is empty, [suffixes] is the empty list and
    [stem] is the whole name. *)
Theorem dotfile_has_no_suffix (p t : str) :
  FlexPath.name p = FlexPath.dotc :: t ->
  contains FlexPath.dotc t = false ->
  FlexPath.suffix p = "" /\
  FlexPath.suffixes p = [] /\
  FlexPath.stem p = FlexPath.name p.
Proof.
  intros Hn Ht. apply contains_false in Ht.
  unfold FlexPath.suffix, FlexPath.suffixes, FlexPath.stem. rewrite Hn.
  assert (Hr : rfind FlexPath.dotc (FlexPath.dotc :: t) = 0)
    by exact (rfind_last_occurrence FlexPath.dotc [] t Ht).
  assert (Hroot : (FlexPath.dotc :: t == "/") = false)
    by (apply eqb_str_false; discriminate).
  rewrite Hr, Hroot, (count_single_dot t Ht).
  repeat split; reflexivity.
Qed.

Lemma dotfile_has_no_suffix_witness :
  FlexPath.suffix "/home/user/.bashrc" = "" /\
  FlexPath.suffixes "/home/user/.bashrc" = [] /\
  FlexPath.stem "/home/user/.bashrc" = FlexPath.name "/home/user/.bashrc".
Proof.
  apply (dotfile_has_no_suffix "/home/user/.bashrc" "bashrc"); reflexivity.
Defined.

(** C10: a trailing dot is a suffix separator: when the name ends with a dot
    and has at least one character before it, [suffix] is the one-character
    text "." and [stem] is the name without that dot. *)
Theorem trailing_dot_is_a_suffix (p t : str) :
  FlexPath.name p = t ++ lit "." ->
  is_empty t = false ->
  FlexPath.suffix p = "." /\ FlexPath.stem p = t.
Proof.
  intros Hn Ht. apply is_empty_false in Ht.
  change (lit ".") with [FlexPath.dotc] in *.
  unfold FlexPath.suffix, FlexPath.stem. rewrite Hn.
  assert (Hr : rfind FlexPath.dotc (t ++ [FlexPath.dotc]) = len t)
    by (apply rfind_last_occurrence; simpl; tauto).
  assert (Hroot : (t ++ [FlexPath.dotc] == "/") = false).
  { apply eqb_str_false. intros H. apply (f_equal (@length _)) in H.
    rewrite length_app in H. destruct t; [congruence | simpl in H; lia]. }
  assert (Hne : is_empty (t ++ [FlexPath.dotc]) = false)
    by (destruct t; reflexivity).
  rewrite Hr, Hroot, Hne. cbn [orb].
  assert (Hpos : (len t <=? 0) = false).
  { apply Z.leb_gt. destruct t; [congruence|]. rewrite len_cons.
    pose proof (len_nonneg t). lia. }
  rewrite Hpos, slice_from_app, slice_to_app. split; reflexivity.
Qed.

Lemma trailing_dot_is_a_suffix_witness :
  FlexPath.suffix "/tmp/archive." = "." /\
  FlexPath.stem "/tmp/archive." = "archive".
Proof.
  apply (trailing_dot_is_a_suffix "/tmp/archive." "archive"); reflexivity.
Defined.

Lemma rstrip_absent (c : ascii) (s : str) : ~ In c s -> rstrip c s = s.
Proof.
  induction s as [|a t IH]; simpl; intros H; [reflexivity|].
  rewrite IH by tauto.
  destruct t; [|reflexivity].
  destruct (Ascii.eqb_spec a c) as [->|]; [tauto | reflexivity].
Qed.

Lemma slice_to_0 {A} (l : list A) : slice_to 0 l = [].
Proof.
  unfold slice_to, slice_index. pose proof (len_nonneg l).
  change (0 <? 0) with false. cbv iota.
  replace (Z.to_nat (Z.min (len l) 0)) with 0%nat by lia. reflexivity.
Qed.

Lemma dirname_no_slash (s : str) : ~ In slash s -> dirname s = "".
Proof.
  intros H. unfold dirname. rewrite rfind_absent by assumption.
  change (-1 + 1) with 0. rewrite slice_to_0. reflexivity.
Qed.

Lemma parent_no_slash (p : str) :
  contains slash p = false -> FlexPath.parent p = ".".
Proof.
  intros Hp. apply contains_false in Hp.
  unfold FlexPath.parent.
  assert (Hroot : (p == "/") = false).
  { apply eqb_str_false. intros ->. apply Hp. simpl. tauto. }
  rewrite Hroot, rstrip_absent by assumption.
  destruct (p == ""); [reflexivity|].
  rewrite dirname_no_slash by assumption. reflexivity.
Qed.

(** C7: root and empty paths decompose as fixed values, and a relative path
    without any directory component has the relative marker "." as its
    parent. *)
Theorem root_and_empty_decompose :
  FlexPath.parent (FlexPath.__new__ "/") = "/" /\
  FlexPath.name (FlexPath.__new__ "/") = "/" /\
  FlexPath.parts (FlexPath.__new__ "") = [] /\
  FlexPath.parts (FlexPath.__new__ "/") = [lit "/"] /\
  forall p : str,
    FlexPath._is_abs p = false -> contains slash p = false ->
    FlexPath.parent p = ".".
Proof.
  repeat split; try reflexivity.
  intros p _ Hp. now apply parent_no_slash.
Qed.

Lemma root_and_empty_decompose_witness :
  FlexPath.parent (FlexPath.__new__ "file.txt") = ".".
Proof.
  apply (proj2 (proj2 (proj2 (proj2 root_and_empty_decompose))));
    reflexivity.
Defined.

(** ** Normalization *)

Lemma normpath_render (path : str) :
  path <> [] -> normpath path = render (initial_slashes path) (comps_of path).
Proof.
  intros H. unfold normpath, render, comps_of.
  apply eqb_str_false in H. unfold empty. change (lit "") with (@nil ascii).
  rewrite H. reflexivity.
Qed.

Lemma initial_slashes_range (path : str) :
  (initial_slashes path <= 2)%nat.
Proof.
  unfold initial_slashes.
  destruct (startswith sep path); [|lia].
  destruct (startswith (seps 2) path && negb (startswith (seps 3) path)); lia.
Qed.

Lemma named_not_pardir (rest : list str) :
  Forall named rest -> ~ In pardir rest.
Proof.
  intros H Hin. rewrite Forall_forall in H.
  destruct (H _ Hin) as (_ & _ & _ & Hp). congruence.
Qed.

Lemma canonical_nil (k : nat) : canonical k [].
Proof. exists 0%nat, []. repeat split; auto. Qed.

Lemma canonical_forall (k : nat) (l : list str) :
  canonical k l ->
  Forall (fun c => c <> [] /\ ~ In slash c /\ c <> curdir) l.
Proof.
  intros (n & rest & -> & Hrest & _). apply Forall_app. split.
  - apply Forall_forall. intros c Hc. apply repeat_spec in Hc. subst c.
    repeat split; try discriminate.
    unfold pardir, slash. simpl. intuition discriminate.
  - eapply Forall_impl; [|exact Hrest]. unfold named. tauto.
Qed.

Lemma repeat_snoc {A} (x : A) (n : nat) : repeat x n ++ [x] = repeat x (S n).
Proof. symmetry. apply repeat_cons. Qed.

Lemma last_repeat_app_named (n : nat) (rest : list str) :
  rest <> [] -> Forall named rest ->
  last (repeat pardir n ++ rest) empty <> pardir.
Proof.
  intros Hne Hrest Hl.
  destruct (exists_last Hne) as (r' & c & ->).
  rewrite app_assoc, last_last in Hl.
  apply Forall_app in Hrest. destruct Hrest as (_ & Hc).
  apply Forall_inv in Hc. destruct Hc as (_ & _ & _ & Hc). congruence.
Qed.

Lemma normpath_step_canonical (k : nat) (l : list str) (c : str) :
  canonical k l -> ~ In slash c -> canonical k (normpath_step k l c).
Proof.
  intros Hcan Hc. unfold normpath_step.
  case_eqb c empty; [exact Hcan|].
  case_eqb c curdir; [exact Hcan|]. cbn [orb].
  destruct Hcan as (n & rest & -> & Hrest & Hk).
  case_eqb c pardir; cbn [negb orb].
  - subst c.
    destruct ((k =? 0)%nat && is_empty (repeat pardir n ++ rest)) eqn:E1;
      cbn [orb].
    + apply andb_prop in E1. destruct E1 as (Ek & El).
      apply Nat.eqb_eq in Ek. apply is_empty_true in El. rewrite El.
      exists 1%nat, []. repeat split; auto. intros; lia.
    + destruct (is_empty (repeat pardir n ++ rest)) eqn:El; cbn [negb andb].
      * exists n, rest. auto.
      * apply is_empty_false in El.
        case_eqb (last (repeat pardir n ++ rest) empty) pardir.
        -- destruct rest as [|r rest].
           ++ rewrite app_nil_r in *. rewrite repeat_snoc.
              exists (S n), []. rewrite app_nil_r. repeat split; auto.
              intros Hk'. specialize (Hk Hk'). subst n. now simpl in El.
           ++ exfalso. revert E2. apply last_repeat_app_named;
                [discriminate | assumption].
        -- destruct (exists_last El) as (l' & x & Hl). rewrite Hl.
           rewrite removelast_last.
           destruct rest as [|r rest].
           ++ rewrite app_nil_r in *. exfalso. apply E2.
              destruct n; [now simpl in El|].
              rewrite <- repeat_snoc. now rewrite last_last.
           ++ assert (Hne : r :: rest <> []) by discriminate.
              destruct (exists_last Hne) as (rest' & y & Hr).
              rewrite Hr in *. rewrite app_assoc in Hl.
              apply app_inj_tail in Hl. destruct Hl as (<- & _).
              exists n, rest'. repeat split; auto.
              apply Forall_app in Hrest. tauto.
  - exists n, (rest ++ [c]). rewrite app_assoc. repeat split; auto.
    apply Forall_app. split; [assumption|]. constructor; [|constructor].
    unfold named. repeat split; assumption.
Qed.

Lemma fold_normpath_step_canonical (k : nat) (segs : list str) :
  Forall (fun c => ~ In slash c) segs ->
  forall acc, canonical k acc ->
              canonical k (fold_left (normpath_step k) segs acc).
Proof.
  induction 1 as [|c segs Hc _ IH]; intros acc Hacc; simpl; [assumption|].
  apply IH. now apply normpath_step_canonical.
Qed.

Lemma comps_of_canonical (path : str) :
  canonical (initial_slashes path) (comps_of path).
Proof.
  unfold comps_of. apply fold_normpath_step_canonical.
  - apply split_pieces_clean.
  - apply canonical_nil.
Qed.

Lemma pardir_position (acc t rest : list str) (n : nat) :
  acc ++ pardir :: t = repeat pardir n ++ rest -> ~ In pardir rest ->
  acc = repeat pardir (length acc) /\ (1 <= n)%nat.
Proof.
  revert acc. induction n as [|n IH]; intros acc H Hrest.
  - simpl in H. exfalso. apply Hrest. rewrite <- H.
    apply in_or_app. right. left. reflexivity.
  - destruct acc as [|a acc].
    + split; [reflexivity | lia].
    + simpl in H. injection H as -> H.
      destruct (IH acc H Hrest) as (Hacc & _).
      split; [simpl; now rewrite <- Hacc | lia].
Qed.

Lemma fold_normpath_step_id (k : nat) (l : list str) :
  forall acc, canonical k (acc ++ l) ->
              fold_left (normpath_step k) l acc = acc ++ l.
Proof.
  induction l as [|c t IH]; intros acc Hcan; simpl.
  - now rewrite app_nil_r.
  - assert (Hstep : normpath_step k acc c = acc ++ [c]).
    { pose proof (canonical_forall _ _ Hcan) as Hall.
      apply Forall_app in Hall. destruct Hall as (_ & Hall).
      apply Forall_inv in Hall. destruct Hall as (Hne & _ & Hcur).
      unfold normpath_step.
      case_eqb c empty; [now elim Hne|].
      case_eqb c curdir; [now elim Hcur|]. cbn [orb].
      case_eqb c pardir; cbn [negb orb]; [|reflexivity].
      subst c. destruct Hcan as (n & rest & Heq & Hrest & Hk).
      destruct (pardir_position _ _ _ _ Heq (named_not_pardir _ Hrest))
        as (Hacc & Hn).
      assert (Hk0 : k = 0%nat) by (destruct k; [reflexivity|]; lia).
      subst k. destruct acc as [|a acc]; [reflexivity|].
      cbn [Nat.eqb is_empty andb negb orb].
      rewrite Hacc. cbn [length]. rewrite <- repeat_snoc, last_last.
      now rewrite eqb_str_refl. }
    rewrite Hstep, IH; rewrite <- app_assoc; [reflexivity | exact Hcan].
Qed.

(** The joined text of kept components never begins with a slash. *)
Lemma sep_join_head (comps : list str) :
  Forall (fun c => c <> [] /\ ~ In slash c /\ c <> curdir) comps ->
  (comps = [] /\ sep_join sep comps = []) \/
  (comps <> [] /\ exists a t, sep_join sep comps = a :: t /\ a <> slash).
Proof.
  intros H. destruct comps as [|c comps]; [left; auto|]. right.
  split; [discriminate|].
  apply Forall_inv in H. destruct H as (Hne & Hsl & _).
  destruct c as [|a c]; [congruence|].
  exists a. destruct comps.
  - exists c. split; [reflexivity|]. intros ->. apply Hsl. now left.
  - eexists. split; [reflexivity|]. intros ->. apply Hsl. now left.
Qed.

Lemma startswith_sep_cons (a : ascii) (t : str) :
  startswith sep (a :: t) = Ascii.eqb slash a.
Proof.
  change (startswith sep (a :: t)) with (Ascii.eqb slash a && true).
  apply andb_true_r.
Qed.

Lemma startswith_sep_other (a : ascii) (t : str) :
  a <> slash -> startswith sep (a :: t) = false.
Proof.
  intros H. rewrite startswith_sep_cons.
  destruct (Ascii.eqb_spec slash a); [now subst a | reflexivity].
Qed.

Lemma initial_slashes_0 (a : ascii) (t : str) :
  a <> slash -> initial_slashes (a :: t) = 0%nat.
Proof.
  intros H. unfold initial_slashes.
  now rewrite startswith_sep_other.
Qed.

Lemma initial_slashes_1 (s : str) :
  startswith sep s = false -> initial_slashes (slash :: s) = 1%nat.
Proof.
  intros H. unfold initial_slashes.
  change (startswith sep (slash :: s)) with true. cbv iota.
  change (startswith (seps 2) (slash :: s)) with (startswith sep s).
  now rewrite H.
Qed.

Lemma initial_slashes_2 (s : str) :
  startswith sep s = false -> initial_slashes (slash :: slash :: s) = 2%nat.
Proof.
  intros H. unfold initial_slashes.
  change (startswith sep (slash :: slash :: s)) with true. cbv iota.
  change (startswith (seps 2) (slash :: slash :: s)) with true.
  change (startswith (seps 3) (slash :: slash :: s)) with (startswith sep s).
  now rewrite H.
Qed.

Lemma sep_join_not_abs (comps : list str) :
  Forall (fun c => c <> [] /\ ~ In slash c /\ c <> curdir) comps ->
  startswith sep (sep_join sep comps) = false.
Proof.
  intros H. destruct (sep_join_head comps H) as [(_ & ->)|(_ & a & t & -> & Ha)].
  - reflexivity.
  - now apply startswith_sep_other.
Qed.

Lemma split_sep_join_comps (comps : list str) :
  Forall (fun c => c <> [] /\ ~ In slash c /\ c <> curdir) comps ->
  comps <> [] -> split slash (sep_join sep comps) = comps.
Proof.
  intros H Hne. apply (split_sep_join slash comps Hne).
  eapply Forall_impl; [|exact H]. cbn. tauto.
Qed.

Lemma fold_skip_empty (k : nat) (l acc : list str) :
  fold_left (normpath_step k) ([] :: l) acc = fold_left (normpath_step k) l acc.
Proof. reflexivity. Qed.

(** Re-splitting a rendered text gives back its components. *)
Lemma comps_of_render (k : nat) (comps : list str) :
  (k <= 2)%nat -> canonical k comps ->
  initial_slashes (render k comps) = k /\
  comps_of (render k comps) = comps /\
  render k comps <> [].
Proof.
  intros Hk Hcan. pose proof (canonical_forall _ _ Hcan) as Hall.
  pose proof (sep_join_not_abs _ Hall) as Habs.
  assert (Hfold : forall acc,
            fold_left (normpath_step k) (split slash (sep_join sep comps)) acc
            = fold_left (normpath_step k) comps acc).
  { intros acc. destruct comps as [|c comps]; [reflexivity|].
    rewrite split_sep_join_comps; [reflexivity | assumption | discriminate]. }
  assert (Hid : fold_left (normpath_step k) comps [] = comps)
    by (apply (fold_normpath_step_id k comps []); exact Hcan).
  unfold comps_of, render.
  destruct k as [|[|[|k]]]; [| | |lia]; cbn [Nat.eqb negb seps repeat app].
  - destruct (sep_join_head comps Hall) as [(-> & _)|(_ & a & t & E & Ha)].
    + split; [reflexivity | split; [reflexivity | discriminate]].
    + specialize (Hfold []). rewrite Hid in Hfold. rewrite E in *.
      cbn [is_empty]. rewrite initial_slashes_0 by assumption.
      rewrite Hfold. split; [reflexivity | split; [reflexivity | discriminate]].
  - cbn [is_empty]. rewrite initial_slashes_1 by assumption.
    cbn [split]. change (Ascii.eqb slash slash) with true. cbv iota.
    rewrite fold_skip_empty, Hfold, Hid. split; [reflexivity | split; [reflexivity | discriminate]].
  - cbn [is_empty]. rewrite initial_slashes_2 by assumption.
    cbn [split]. change (Ascii.eqb slash slash) with true. cbv iota.
    rewrite !fold_skip_empty, Hfold, Hid. split; [reflexivity | split; [reflexivity | discriminate]].
Qed.

(** A rendered canonical component list is a fixed point of [normpath]. *)
Lemma normpath_render_fixed (k : nat) (comps : list str) :
  (k <= 2)%nat -> canonical k comps ->
  normpath (render k comps) = render k comps.
Proof.
  intros Hk Hcan.
  destruct (comps_of_render k comps Hk Hcan) as (Hi & Hc & Hne).
  rewrite normpath_render by assumption. now rewrite Hi, Hc.
Qed.

Lemma normpath_not_empty (path : str) : normpath path <> [].
Proof.
  destruct path as [|a path]; [discriminate|].
  rewrite normpath_render by discriminate.
  apply comps_of_render;
    [apply initial_slashes_range | apply comps_of_canonical].
Qed.

Lemma normpath_idempotent (path : str) :
  normpath (normpath path) = normpath path.
Proof.
  destruct path as [|a path]; [reflexivity|].
  rewrite (normpath_render (a :: path)) by discriminate.
  apply normpath_render_fixed;
    [apply initial_slashes_range | apply comps_of_canonical].
Qed.

Lemma new_nonempty (x : str) : x <> [] -> FlexPath.__new__ x = normpath x.
Proof.
  intros H. unfold FlexPath.__new__. apply eqb_str_false in H.
  change (lit "") with (@nil ascii). now rewrite H.
Qed.

Lemma new_empty_iff (x : str) : FlexPath.__new__ x = [] <-> x = [].
Proof.
  split; [|now intros ->].
  destruct x as [|a x]; [reflexivity|].
  rewrite new_nonempty by discriminate. intros H.
  now apply normpath_not_empty in H.
Qed.

Lemma new_render (x : str) :
  x <> [] -> FlexPath.__new__ x = render (initial_slashes x) (comps_of x).
Proof. intros H. rewrite new_nonempty by assumption. now apply normpath_render. Qed.

Lemma new_fixed (x : str) : FlexPath.__new__ (FlexPath.__new__ x) = FlexPath.__new__ x.
Proof.
  destruct x as [|a x]; [reflexivity|].
  rewrite (new_nonempty (FlexPath.__new__ _)).
  - rewrite new_nonempty by discriminate. apply normpath_idempotent.
  - intros H. apply (proj1 (new_empty_iff _)) in H. discriminate.
Qed.

(** C8: normalization is idempotent: building a path from the text of an
    already built path gives the same value. *)
Theorem new_idempotent (x : str) :
  FlexPath.__new__ (FlexPath.__new__ x) = FlexPath.__new__ x.
Proof. exact (new_fixed x). Qed.

Lemma render_inj (k k' : nat) (c c' : list str) :
  (k <= 2)%nat -> (k' <= 2)%nat -> canonical k c -> canonical k' c' ->
  render k c = render k' c' -> k = k' /\ c = c'.
Proof.
  intros Hk Hk' Hc Hc' H.
  destruct (comps_of_render k c Hk Hc) as (Hi & Hcs & _).
  destruct (comps_of_render k' c' Hk' Hc') as (Hi' & Hcs' & _).
  rewrite H in Hi, Hcs. split; congruence.
Qed.

(** ** Construction against the specified algorithm *)

Lemma normpath_step_dropped (k : nat) (acc : list str) (c : str) :
  Spec.retained c = false -> normpath_step k acc c = acc.
Proof.
  unfold Spec.retained, normpath_step, empty, curdir. intros H.
  destruct (c == ""); [reflexivity|].
  destruct (c == "."); [reflexivity | discriminate].
Qed.

Lemma normpath_step_retained (k : nat) (acc : list str) (c : str) :
  Spec.retained c = true ->
  normpath_step k acc c =
    if negb (c == pardir)
       || ((k =? 0)%nat && is_empty acc)
       || (negb (is_empty acc) && (last acc empty == pardir))
    then acc ++ [c]
    else if negb (is_empty acc) then removelast acc else acc.
Proof.
  unfold Spec.retained, normpath_step, empty, curdir. intros H.
  destruct (c == ""); [discriminate|].
  destruct (c == "."); [discriminate | reflexivity].
Qed.

(** The loop of [normpath] is the specified resolution, with the component
    list read as a stack from its end. *)
Lemma normpath_loop_resolve (k : nat) (segs : list str) :
  forall stack,
    fold_left (normpath_step k) segs (rev stack)
    = Spec.resolve (negb (k =? 0)%nat) stack (filter Spec.retained segs).
Proof.
  induction segs as [|c segs IH]; intros stack; [reflexivity|].
  cbn [fold_left filter].
  destruct (Spec.retained c) eqn:Hc.
  - rewrite normpath_step_retained by assumption. cbn [Spec.resolve].
    change (lit "..") with pardir.
    destruct (c == pardir) eqn:Ec; cbn [negb orb].
    + destruct stack as [|previous below]; cbn [rev is_empty].
      * destruct (k =? 0)%nat; cbn [negb andb orb] in *;
          [apply (IH [c]) | apply (IH [])].
      * assert (Hne : is_empty (rev below ++ [previous]) = false)
          by (apply is_empty_false; intros H; now apply app_eq_nil in H).
        rewrite Hne, last_last, andb_false_r. cbn [negb andb orb].
        destruct (previous == pardir).
        -- apply (IH (c :: previous :: below)).
        -- rewrite removelast_last. apply IH.
    + apply (IH (c :: stack)).
  - rewrite normpath_step_dropped by assumption. apply IH.
Qed.

Lemma initial_slashes_prefix (s : str) :
  (if negb (initial_slashes s =? 0)%nat then seps (initial_slashes s) else [])
  = Spec.root_prefix s
  /\ negb (initial_slashes s =? 0)%nat = startswith "/" s.
Proof.
  unfold initial_slashes, Spec.root_prefix.
  change (startswith sep s) with (startswith "/" s).
  change (startswith (seps 2) s) with (startswith "//" s).
  change (startswith (seps 3) s) with (startswith "///" s).
  destruct (startswith "/" s) eqn:E1.
  - destruct (startswith "//" s && negb (startswith "///" s));
      split; reflexivity.
  - assert (E2 : startswith "//" s = false).
    { destruct s as [|a s]; [reflexivity|].
      pose proof (startswith_sep_cons a s) as Hs. unfold sep in Hs.
      rewrite Hs in E1.
      change (startswith "//" (a :: s))
        with (Ascii.eqb slash a && startswith "/" s).
      now rewrite E1. }
    rewrite E2. split; reflexivity.
Qed.

Lemma segments_comps_of (p : str) : Spec.segments p = comps_of p.
Proof.
  unfold Spec.segments, comps_of.
  destruct (initial_slashes_prefix p) as (_ & Ha). rewrite <- Ha.
  symmetry. apply (normpath_loop_resolve (initial_slashes p) _ []).
Qed.

Lemma new_normalize_posix (s : str) :
  FlexPath.__new__ s = Spec.normalize_posix s.
Proof.
  unfold FlexPath.__new__, Spec.normalize_posix.
  destruct (s == "") eqn:E; [reflexivity|].
  unfold normpath. unfold empty. rewrite E.
  destruct (initial_slashes_prefix s) as (Hp & Ha).
  unfold Spec.segments. rewrite <- Ha.
  change (split "/" s) with (split slash s).
  rewrite <- (normpath_loop_resolve (initial_slashes s) (split slash s) []).
  cbn [rev]. rewrite <- Hp.
  destruct (negb (initial_slashes s =? 0)%nat); reflexivity.
Qed.

(** C1 (amended): construction is the specified algorithm (split on [/],
    drop empty and [.] segments, resolve [..] against the previous retained
    segment, reassemble), except that an input with exactly two leading
    slashes keeps the prefix [//], and a non-empty input of which nothing
    remains yields [.]; the empty input yields the empty text. *)
Theorem new_normalizes (s : str) :
  FlexPath.__new__ s = Spec.normalize_posix s.
Proof. exact (new_normalize_posix s). Qed.

(** Where the two refinements do not apply, the result is exactly the
    specified text. *)
Lemma new_agrees_with_normalize (s : str) :
  startswith "//" s && negb (startswith "///" s) = false ->
  is_empty s || negb (is_empty (Spec.normalize s)) = true ->
  FlexPath.__new__ s = Spec.normalize s.
Proof.
  intros H2 Hne. rewrite new_normalize_posix.
  unfold Spec.normalize_posix, Spec.root_prefix.
  rewrite H2.
  case_eqb s (lit ""); [subst s; reflexivity|].
  destruct s as [|a s]; [now elim E|]. cbn [is_empty orb] in Hne.
  match goal with
  | |- (if is_empty ?t then _ else _) = _ =>
      change (Spec.normalize (a :: s)) with t in *; destruct (is_empty t)
  end; [discriminate | reflexivity].
Qed.

Example new_scenario_1 :
  FlexPath.__new__ "/home//user/./docs/../files" = "/home/user/files"
  /\ FlexPath.__new__ "" = "" /\ FlexPath.__new__ "/" = "/".
Proof. repeat split. Qed.

(** C1 as stated fails: two leading slashes are preserved, where the
    specified algorithm prefixes a single [/]. *)
Lemma new_double_slash_counterexample :
  FlexPath.__new__ "//a" = "//a" /\ Spec.normalize "//a" = "/a"
  /\ FlexPath.__new__ "//a" <> Spec.normalize "//a".
Proof. repeat split. discriminate. Qed.

Example new_all_cancelled :
  FlexPath.__new__ "a/.." = "." /\ Spec.normalize "a/.." = "".
Proof. split; reflexivity. Qed.

(** ** Joining *)

Lemma endswith_sep_snoc (o : str) (c : ascii) :
  endswith sep (o ++ [c]) = Ascii.eqb slash c.
Proof.
  unfold endswith. rewrite rev_unit.
  change (rev sep) with sep. apply startswith_sep_cons.
Qed.

Lemma endswith_sep_true (o : str) :
  endswith sep o = true -> exists o', o = o' ++ [slash].
Proof.
  destruct o as [|a o] using rev_ind; [discriminate|].
  rewrite endswith_sep_snoc. intros H. apply Ascii.eqb_eq in H. subst a.
  now exists o.
Qed.

Lemma endswith_sep_false (o : str) :
  o <> [] -> endswith sep o = false ->
  exists o' c, o = o' ++ [c] /\ c <> slash.
Proof.
  destruct o as [|a o] using rev_ind; [congruence|].
  rewrite endswith_sep_snoc. intros _ H. apply Ascii.eqb_neq in H.
  exists o, a. split; [reflexivity | congruence].
Qed.

(** Appending text after the leading run of slashes has ended, or after a
    text made of slashes only when the added text does not begin with one,
    leaves [initial_slashes] unchanged. *)
Lemma initial_slashes_app (o t : str) :
  o <> [] ->
  (exists c, In c o /\ c <> slash) \/ startswith sep t = false ->
  initial_slashes (o ++ t) = initial_slashes o.
Proof.
  intros Hne H.
  destruct o as [|a o]; [congruence|]. cbn [app].
  destruct (ascii_dec a slash) as [->|Ha];
    [|now rewrite !initial_slashes_0].
  destruct o as [|b o]; cbn [app].
  { destruct H as [(c & [<-|[]] & Hc)|H]; [congruence|].
    now rewrite initial_slashes_1. }
  destruct (ascii_dec b slash) as [->|Hb];
    [|now rewrite !initial_slashes_1 by now apply startswith_sep_other].
  destruct o as [|c o]; cbn [app].
  { destruct H as [(c & [<-|[<-|[]]] & Hc)|H]; [congruence..|].
    now rewrite initial_slashes_2. }
  destruct (ascii_dec c slash) as [->|Hc]; [reflexivity|].
  now rewrite !initial_slashes_2 by now apply startswith_sep_other.
Qed.

Lemma fold_normpath_step_snoc_empty (k : nat) (l acc : list str) :
  fold_left (normpath_step k) (l ++ [[]]) acc
  = fold_left (normpath_step k) l acc.
Proof. rewrite fold_left_app. reflexivity. Qed.

Lemma split_snoc_sep (o : str) : split slash (o ++ [slash]) = split slash o ++ [[]].
Proof. apply (split_app_sep slash o []). Qed.

(** What [join] does to the text that [normpath] will see: the slashes in
    front are those of the accumulated path, and the components of the
    fragment follow those of the accumulated path. *)
Lemma join_step_relative (o t : str) :
  o <> [] -> startswith sep t = false ->
  join_step o t <> [] /\
  initial_slashes (join_step o t) = initial_slashes o /\
  forall k acc,
    fold_left (normpath_step k) (split slash (join_step o t)) acc
    = fold_left (normpath_step k) (split slash t)
        (fold_left (normpath_step k) (split slash o) acc).
Proof.
  intros Hne Ht. unfold join_step. rewrite Ht.
  destruct o as [|a o]; [congruence|]. cbn [is_empty orb].
  destruct (endswith sep (a :: o)) eqn:E.
  - destruct (endswith_sep_true _ E) as (o' & Ho). rewrite Ho.
    split; [destruct o'; discriminate|]. split.
    + apply initial_slashes_app; [destruct o'; discriminate | now right].
    + intros k acc. rewrite <- app_assoc. cbn [app].
      rewrite split_app_sep, split_snoc_sep, fold_left_app.
      now rewrite fold_normpath_step_snoc_empty.
  - destruct (endswith_sep_false (a :: o)) as (o' & c & Ho & Hc);
      [discriminate | assumption |].
    split; [discriminate|]. split.
    + apply initial_slashes_app; [discriminate|]. left. exists c.
      split; [|assumption]. rewrite Ho. apply in_or_app. right. now left.
    + intros k acc. change (sep ++ t) with (slash :: t).
      now rewrite split_app_sep, fold_left_app.
Qed.

Lemma new_join_step (a p : str) :
  a <> [] -> startswith sep p = false ->
  FlexPath.__new__ (join_step a p)
  = render (initial_slashes a)
      (fold_left (normpath_step (initial_slashes a)) (split slash p)
         (comps_of a)).
Proof.
  intros Ha Hp.
  destruct (join_step_relative a p Ha Hp) as (Hne & Hi & Hc).
  rewrite new_render by assumption. unfold comps_of.
  now rewrite Hi, Hc.
Qed.

(** Joining a fragment respects normalization of the accumulated path. *)
Lemma join_step_congr (a a' p : str) :
  FlexPath.__new__ a = FlexPath.__new__ a' ->
  FlexPath.__new__ (join_step a p) = FlexPath.__new__ (join_step a' p).
Proof.
  intros H.
  destruct (startswith sep p) eqn:Hp.
  { unfold join_step. now rewrite Hp. }
  destruct a as [|c a].
  { symmetry in H. apply (proj1 (new_empty_iff _)) in H. now subst a'. }
  destruct a' as [|c' a'].
  { apply (proj1 (new_empty_iff _)) in H. discriminate. }
  rewrite !new_join_step by (assumption || discriminate).
  rewrite !new_render in H by discriminate.
  apply render_inj in H;
    try apply initial_slashes_range; try apply comps_of_canonical.
  destruct H as (-> & ->). reflexivity.
Qed.

Lemma join_congr (l : list str) :
  forall a a', FlexPath.__new__ a = FlexPath.__new__ a' ->
               FlexPath.__new__ (join a l) = FlexPath.__new__ (join a' l).
Proof.
  induction l as [|p l IH]; intros a a' H; [exact H|].
  apply IH. now apply join_step_congr.
Qed.

Lemma join_reset (a f : str) (earlier later : list str) :
  isabs f = true -> join a (earlier ++ f :: later) = join f later.
Proof.
  intros Hf. unfold join. rewrite fold_left_app. cbn [fold_left].
  unfold join_step at 2. unfold isabs in Hf. now rewrite Hf.
Qed.

(** Relative fragments are appended: the joined text keeps the leading
    slashes of the first path, and its pieces drive the loop of [normpath]
    as the pieces of the first path followed by those of the fragments. *)
Lemma join_relative (fs : list str) :
  Forall (fun f => isabs f = false) fs ->
  forall a, a <> [] ->
    join a fs <> [] /\
    initial_slashes (join a fs) = initial_slashes a /\
    forall k acc,
      fold_left (normpath_step k) (split slash (join a fs)) acc
      = fold_left (normpath_step k) (flat_map (split slash) fs)
          (fold_left (normpath_step k) (split slash a) acc).
Proof.
  induction 1 as [|f fs Hf _ IH]; intros a Ha.
  - split; [exact Ha|]. split; reflexivity.
  - destruct (join_step_relative a f Ha Hf) as (Hne & Hi & Hc).
    change (join a (f :: fs)) with (join (join_step a f) fs).
    destruct (IH _ Hne) as (Hne' & Hi' & Hc').
    split; [assumption|]. split; [congruence|].
    intros k acc. rewrite Hc', Hc. cbn [flat_map].
    now rewrite fold_left_app.
Qed.

Lemma joinpath_joined (x : str) (fs : list str) :
  FlexPath.__new__ x <> [] ->
  Forall (fun f => isabs f = false) fs ->
  FlexPath.joinpath (FlexPath.__new__ x) fs
  = Spec.joined (FlexPath.__new__ x) fs.
Proof.
  intros Hb Hfs. remember (FlexPath.__new__ x) as base eqn:Eb.
  assert (Hall : FlexPath.joinpath base fs = FlexPath.__new__ (join base fs)).
  { destruct fs; [|reflexivity]. subst base. symmetry. apply new_fixed. }
  rewrite Hall. clear Hall Eb.
  destruct (join_relative fs Hfs base Hb) as (Hne & Hi & Hc).
  rewrite new_render by assumption. unfold comps_of at 1. rewrite Hi, Hc.
  fold (comps_of base).
  unfold Spec.joined. rewrite segments_comps_of.
  destruct (initial_slashes_prefix base) as (Hp & Ha). rewrite <- Ha, <- Hp.
  change (split "/"%char) with (split slash).
  rewrite <- (normpath_loop_resolve (initial_slashes base)
                (flat_map (split slash) fs) (rev (comps_of base))).
  rewrite rev_involutive. unfold render.
  destruct (negb (initial_slashes base =? 0)%nat); reflexivity.
Qed.

(** C5: [joinpath] is construction applied to the [os.path.join] of the
    base and the fragments; an absolute fragment discards the base and all
    earlier fragments; the [/] operator is [joinpath] with one fragment and
    its mirrored form is [joinpath] of the fragment with the existing path;
    a relative fragment is appended to the base, behind a separator unless
    the base is empty or ends with one; and for a non-empty base and
    relative fragments the result has the root prefix of the base and the
    components of the base followed by the segments of the fragments,
    normalized as in construction. *)
Theorem joinpath_semantics (x : str) (fragments : list str) :
  let base := FlexPath.__new__ x in
  FlexPath.joinpath base fragments = FlexPath.__new__ (join base fragments)
  /\ (forall earlier f later,
         fragments = earlier ++ f :: later -> isabs f = true ->
         join base fragments = join f later
         /\ FlexPath.joinpath base fragments
            = FlexPath.joinpath (FlexPath.__new__ f) later)
  /\ (forall f, FlexPath.__truediv__ base f = FlexPath.joinpath base [f])
  /\ (forall f, FlexPath.__rtruediv__ base f
                = FlexPath.joinpath (FlexPath.__new__ f) [base])
  /\ (forall f, isabs f = false ->
                join base [f]
                = if is_empty base || endswith sep base then base ++ f
                  else base ++ sep ++ f)
  /\ (base <> lit "" ->
      Forall (fun f => isabs f = false) fragments ->
      FlexPath.joinpath base fragments = Spec.joined base fragments).
Proof.
  intros base.
  assert (Hall : forall l, FlexPath.joinpath base l
                           = FlexPath.__new__ (join base l)).
  { intros [|f l]; [symmetry; apply new_fixed | reflexivity]. }
  split; [apply Hall|]. split; [|split; [|split; [|split]]].
  - intros earlier f later -> Hf.
    split; [now apply join_reset|].
    rewrite Hall, join_reset by assumption.
    destruct later as [|g later]; [reflexivity|].
    cbn [FlexPath.joinpath]. unfold FlexPath._wrap.
    apply join_congr. symmetry. apply new_fixed.
  - reflexivity.
  - intros f. unfold FlexPath.__rtruediv__, FlexPath.joinpath, FlexPath._wrap.
    apply (join_congr [base]). symmetry. apply new_fixed.
  - intros f Hf. cbn [join fold_left]. unfold join_step.
    unfold isabs in Hf. now rewrite Hf.
  - intros Hb Hfs. now apply joinpath_joined.
Qed.

Lemma joinpath_semantics_witness :
  FlexPath.joinpath (FlexPath.__new__ "/home/user") [lit "docs"; lit "/etc"; lit "x"]
  = FlexPath.joinpath (FlexPath.__new__ "/etc") [lit "x"].
Proof.
  apply (proj1 (proj2 (joinpath_semantics "/home/user"
                         [lit "docs"; lit "/etc"; lit "x"]))
           [lit "docs"] (lit "/etc") [lit "x"]); reflexivity.
Defined.

Example joinpath_scenarios :
  FlexPath.joinpath "/home/user" [lit "docs"; lit "file.txt"]
    = "/home/user/docs/file.txt"
  /\ Spec.joined "/home/user" [lit "docs"; lit "../x//./y/"]
     = "/home/user/x/y"
  /\ FlexPath.__truediv__ "/home/user" "docs" = "/home/user/docs"
  /\ FlexPath.__rtruediv__ "docs/file.txt" "/home/user"
     = "/home/user/docs/file.txt".
Proof. repeat split. Qed.

(** ** Anatomy of a normalized path *)

Lemma sep_join_snoc (comps : list str) (c : str) :
  comps <> [] -> sep_join sep (comps ++ [c]) = sep_join sep comps ++ sep ++ c.
Proof.
  induction comps as [|d comps IH]; [congruence|]. intros _.
  destruct comps as [|e comps]; [reflexivity|].
  change ((d :: e :: comps) ++ [c]) with (d :: ((e :: comps) ++ [c])).
  rewrite sep_join_cons by (destruct comps; discriminate).
  rewrite IH by discriminate.
  rewrite (sep_join_cons sep d (e :: comps)) by discriminate.
  now rewrite <- !app_assoc.
Qed.

(** A normalized text other than the roots is a last component [c], free of
    slashes, behind a part [B] that is empty or ends with a slash. *)
Lemma render_anatomy (k : nat) (comps : list str) :
  (k <= 2)%nat -> canonical k comps ->
  render k comps <> "/" -> render k comps <> "//" ->
  exists B c, render k comps = B ++ c /\ c <> [] /\ ~ In slash c /\
              (B = [] \/ exists B', B = B' ++ [slash]).
Proof.
  intros Hk Hcan H1 H2. pose proof (canonical_forall _ _ Hcan) as Hall.
  destruct comps as [|d comps] using rev_ind.
  - destruct k as [|[|[|k]]]; [| | |lia].
    + exists [], curdir. repeat split; try discriminate; [|now left].
      unfold curdir, slash. simpl. intuition discriminate.
    + now elim H1.
    + now elim H2.
  - clear IHcomps. apply Forall_app in Hall. destruct Hall as (_ & Hd).
    apply Forall_inv in Hd. destruct Hd as (Hne & Hsl & _).
    assert (Hbody : exists B, sep_join sep (comps ++ [d]) = B ++ d /\
                              (B = [] \/ exists B', B = B' ++ [slash])).
    { destruct comps as [|e comps].
      - exists []. split; [reflexivity | now left].
      - rewrite sep_join_snoc by discriminate.
        exists (sep_join sep (e :: comps) ++ sep).
        split; [now rewrite app_assoc | right; eauto]. }
    destruct Hbody as (B & HB & Hend). unfold render. rewrite HB.
    destruct k as [|[|[|k]]]; [| | |lia]; cbn [Nat.eqb negb].
    + exists B, d. destruct B, d; try congruence; cbn [app is_empty]; auto.
    + exists (seps 1 ++ B), d. rewrite app_assoc. repeat split; auto.
      right. destruct Hend as [->|(B' & ->)].
      * exists []. reflexivity.
      * exists (seps 1 ++ B'). now rewrite app_assoc.
    + exists (seps 2 ++ B), d. rewrite app_assoc. repeat split; auto.
      right. destruct Hend as [->|(B' & ->)].
      * exists [slash]. reflexivity.
      * exists (seps 2 ++ B'). now rewrite app_assoc.
Qed.

Lemma rstrip_snoc_other (ch a : ascii) (s : str) :
  a <> ch -> rstrip ch (s ++ [a]) = s ++ [a].
Proof.
  intros H. induction s as [|b s IH]; cbn [app rstrip].
  - destruct (Ascii.eqb_spec a ch); [congruence | reflexivity].
  - rewrite IH. destruct s; reflexivity.
Qed.

Lemma rstrip_snoc_same (ch : ascii) (s : str) :
  rstrip ch (s ++ [ch]) = rstrip ch s.
Proof.
  induction s as [|b s IH]; cbn [app rstrip].
  - now rewrite Ascii.eqb_refl.
  - now rewrite IH.
Qed.

Lemma last_char_clean (c : str) :
  c <> [] -> ~ In slash c -> exists c' a, c = c' ++ [a] /\ a <> slash.
Proof.
  intros Hne Hsl. destruct (exists_last Hne) as (c' & a & ->).
  exists c', a. split; [reflexivity|]. intros ->. apply Hsl.
  apply in_or_app. right. now left.
Qed.

Lemma rstrip_clean_end (B c : str) :
  c <> [] -> ~ In slash c -> rstrip slash (B ++ c) = B ++ c.
Proof.
  intros Hne Hsl. destruct (last_char_clean c Hne Hsl) as (c' & a & -> & Ha).
  rewrite app_assoc. now apply rstrip_snoc_other.
Qed.

Lemma name_of_last (B c : str) :
  c <> [] -> ~ In slash c -> (B = [] \/ exists B', B = B' ++ [slash]) ->
  FlexPath.name (B ++ c) = c.
Proof.
  intros Hne Hsl HB. unfold FlexPath.name, FlexPath._last_component.
  assert (Hroot : (B ++ c == "/") = false).
  { apply eqb_str_false. intros H.
    destruct HB as [->|(B' & ->)].
    - cbn [app] in H. subst c. apply Hsl. now left.
    - apply (f_equal (@length _)) in H. rewrite !length_app in H.
      destruct c; [congruence | simpl in H; lia]. }
  rewrite Hroot, rstrip_clean_end by assumption.
  assert (Hemp : (B ++ c == "") = false).
  { apply eqb_str_false. intros H. apply app_eq_nil in H. tauto. }
  rewrite Hemp. destruct HB as [->|(B' & ->)].
  - cbn [app]. now rewrite rfind_absent.
  - rewrite <- app_assoc. cbn [app].
    rewrite rfind_last_occurrence by assumption.
    pose proof (len_nonneg B').
    destruct (0 <=? len B') eqn:E; [|apply Z.leb_gt in E; lia].
    change (B' ++ slash :: c) with (B' ++ [slash] ++ c).
    rewrite app_assoc.
    replace (len B' + 1) with (len (B' ++ [slash]))
      by (rewrite len_app; reflexivity).
    apply slice_from_app.
Qed.

Lemma slice_to_neg_len (B c : str) :
  c <> [] -> slice_to (- len c) (B ++ c) = B.
Proof.
  intros Hne. unfold slice_to, slice_index. rewrite len_app.
  pose proof (len_nonneg B). pose proof (len_nonneg c).
  assert (0 < len c) by (destruct c; [congruence | unfold len; simpl; lia]).
  destruct (- len c <? 0) eqn:E; [|apply Z.ltb_ge in E; lia].
  replace (Z.to_nat (Z.min (len B + len c)
                       (Z.max 0 (len B + len c + - len c))))
    with (length B) by (unfold len in *; lia).
  rewrite firstn_app, Nat.sub_diag, firstn_all. cbn [firstn].
  apply app_nil_r.
Qed.

Lemma suffix_dotted (p : str) :
  negb (is_empty (FlexPath.suffix p))
  && negb (startswith "." (FlexPath.suffix p)) = false.
Proof.
  destruct (is_empty (FlexPath.suffix p)) eqn:E; [reflexivity|].
  destruct (suffix_shape p E) as (pre & post & _ & _ & _ & -> & _).
  reflexivity.
Qed.

Lemma name_suffix_rebuild (p : str) :
  (if rfind FlexPath.dotc (FlexPath.name p) <=? 0
   then FlexPath.name p ++ FlexPath.suffix p
   else slice_to (rfind FlexPath.dotc (FlexPath.name p)) (FlexPath.name p)
          ++ FlexPath.suffix p)
  = FlexPath.name p.
Proof.
  unfold FlexPath.suffix.
  destruct (is_empty (FlexPath.name p) || (FlexPath.name p == "/")) eqn:E.
  - apply orb_prop in E. destruct E as [E|E].
    + apply is_empty_true in E. rewrite E. reflexivity.
    + apply eqb_str_true in E. rewrite E. reflexivity.
  - destruct (rfind FlexPath.dotc (FlexPath.name p) <=? 0).
    + apply app_nil_r.
    + apply slice_to_from.
Qed.

(** [with_suffix] on a text with a last component. *)
Lemma with_suffix_own (B c : str) :
  c <> [] -> ~ In slash c -> (B = [] \/ exists B', B = B' ++ [slash]) ->
  FlexPath.with_suffix (B ++ c) (FlexPath.suffix (B ++ c))
  = Ok (FlexPath.__new__ (B ++ c)).
Proof.
  intros Hne Hsl HB. unfold FlexPath.with_suffix.
  rewrite suffix_dotted, name_suffix_rebuild.
  rewrite (name_of_last B c Hne Hsl HB).
  assert (H1 : (c == "") = false) by now apply eqb_str_false.
  assert (H2 : (c == "/") = false).
  { apply eqb_str_false. intros ->. apply Hsl. now left. }
  rewrite H1, H2. cbn [orb]. unfold FlexPath._wrap. do 2 f_equal.
  destruct (len c =? len (B ++ c)) eqn:E; cbn [negb].
  - apply Z.eqb_eq in E. rewrite len_app in E.
    assert (len B = 0) by lia. destruct B; [reflexivity|].
    rewrite len_cons in *. pose proof (len_nonneg B). lia.
  - now rewrite slice_to_neg_len.
Qed.

(** C9 (amended): for every path other than the empty path, the root [/]
    and the double-slash root [//], i.e. every path whose name is neither
    empty nor [/], replacing the suffix by the path's own suffix gives the
    path back. *)
Theorem with_suffix_roundtrip (x : str) :
  (FlexPath.__new__ x == "") = false ->
  (FlexPath.__new__ x == "/") = false ->
  (FlexPath.__new__ x == "//") = false ->
  FlexPath.with_suffix (FlexPath.__new__ x) (FlexPath.suffix (FlexPath.__new__ x))
  = Ok (FlexPath.__new__ x).
Proof.
  intros H0 H1 H2.
  apply eqb_str_false in H0, H1, H2.
  destruct x as [|a x]; [now elim H0|].
  rewrite <- (new_fixed (a :: x)) at 3.
  rewrite new_render in * by discriminate.
  destruct (render_anatomy _ _ (initial_slashes_range (a :: x))
              (comps_of_canonical (a :: x)) H1 H2)
    as (B & c & -> & Hne & Hsl & HB).
  now apply with_suffix_own.
Qed.

Lemma with_suffix_roundtrip_witness :
  FlexPath.with_suffix (FlexPath.__new__ "/home/user/archive.tar.gz")
    (FlexPath.suffix (FlexPath.__new__ "/home/user/archive.tar.gz"))
  = Ok (FlexPath.__new__ "/home/user/archive.tar.gz").
Proof.
  apply (with_suffix_roundtrip "/home/user/archive.tar.gz"); reflexivity.
Defined.

(** C9 as stated fails: the double-slash root is neither the root [/] nor
    the empty path, yet it has no name and [with_suffix] raises. *)
Lemma with_suffix_double_slash_counterexample :
  (FlexPath.__new__ "//" == "/") = false /\
  (FlexPath.__new__ "//" == "") = false /\
  FlexPath.name (FlexPath.__new__ "//") = "" /\
  FlexPath.with_suffix (FlexPath.__new__ "//") (FlexPath.suffix (FlexPath.__new__ "//"))
  = Raise InvalidState /\
  FlexPath.with_suffix (FlexPath.__new__ "//") (FlexPath.suffix (FlexPath.__new__ "//"))
  <> Ok (FlexPath.__new__ "//").
Proof. repeat split. discriminate. Qed.

(** ** Replacing the name *)

Lemma render_body (k : nat) (comps : list str) :
  comps <> [] -> canonical k comps ->
  render k comps
  = (if negb (k =? 0)%nat then seps k else []) ++ sep_join sep comps.
Proof.
  intros Hne Hcan. unfold render.
  destruct (sep_join_head comps (canonical_forall _ _ Hcan))
    as [(-> & _)|(_ & a & t & -> & _)]; [congruence|].
  destruct (negb (k =? 0)%nat); [|reflexivity].
  destruct (seps k); reflexivity.
Qed.

Lemma canonical_snoc (k : nat) (comps : list str) (c : str) :
  canonical k comps -> named c -> canonical k (comps ++ [c]).
Proof.
  intros (n & rest & -> & Hrest & Hk) Hc.
  exists n, (rest ++ [c]). rewrite app_assoc. repeat split; auto.
  apply Forall_app. split; [assumption | now constructor].
Qed.

Lemma render_snoc (k : nat) (comps : list str) (c : str) :
  comps <> [] -> canonical k comps -> named c ->
  render k (comps ++ [c]) = render k comps ++ sep ++ c.
Proof.
  intros Hne Hcan Hc.
  rewrite (render_body k (comps ++ [c]));
    [|destruct comps; discriminate | now apply canonical_snoc].
  rewrite render_body, sep_join_snoc by assumption.
  now rewrite <- !app_assoc.
Qed.

Lemma render_nil_cases (k : nat) :
  (k <= 2)%nat ->
  render k [] = "." \/ render k [] = "/" \/ render k [] = "//".
Proof. destruct k as [|[|[|k]]]; auto. lia. Qed.

Lemma new_named (c : str) : named c -> FlexPath.__new__ c = c.
Proof.
  intros Hc. assert (Hcan : canonical 0 [c]).
  { exists 0%nat, [c]. repeat split; auto. }
  assert (Hr : render 0 [c] = c).
  { destruct Hc as (Hne & _). unfold render. cbn.
    destruct c; [congruence | reflexivity]. }
  destruct Hc as (Hne & _). rewrite new_nonempty by assumption.
  pose proof (normpath_render_fixed 0 [c] (Nat.le_0_l 2) Hcan) as H.
  now rewrite Hr in H.
Qed.

Lemma parent_is_new (p : str) :
  (p == "/") = false -> exists y, y <> [] /\ FlexPath.parent p = FlexPath.__new__ y.
Proof.
  intros H. unfold FlexPath.parent, FlexPath._wrap. rewrite H.
  destruct (rstrip slash p == ""); [exists (lit "."); split; [discriminate | reflexivity]|].
  case_eqb (dirname (rstrip slash p)) (lit ""); cbn [negb].
  - exists (lit "."). split; [discriminate | reflexivity].
  - eauto.
Qed.

Lemma seps_only_slashes (n : nat) (a : ascii) : In a (seps n) -> a = slash.
Proof. intros H. now apply repeat_spec in H. Qed.

(** The parent of a child built under a directory text that ends cleanly. *)
Lemma parent_of_child (P c : str) :
  (exists P' a, P = P' ++ [a] /\ a <> slash) ->
  FlexPath.__new__ P = P -> c <> [] -> ~ In slash c ->
  FlexPath.parent (P ++ sep ++ c) = P.
Proof.
  intros (P' & a & HP & Ha) Hnew Hne Hsl.
  unfold FlexPath.parent.
  change (P ++ sep ++ c) with (P ++ [slash] ++ c). rewrite app_assoc.
  assert (Hroot : ((P ++ [slash]) ++ c == "/") = false).
  { apply eqb_str_false. intros H. apply (f_equal (@length _)) in H.
    rewrite !length_app in H. destruct c; [congruence | simpl in H; lia]. }
  rewrite Hroot, rstrip_clean_end by assumption.
  assert (Hemp : ((P ++ [slash]) ++ c == "") = false).
  { apply eqb_str_false. intros H. apply app_eq_nil in H. tauto. }
  rewrite Hemp.
  assert (Hd : dirname ((P ++ [slash]) ++ c) = P).
  { unfold dirname.
    assert (Hr : rfind slash ((P ++ [slash]) ++ c) + 1 = len (P ++ [slash])).
    { rewrite <- app_assoc. cbn [app].
      rewrite rfind_last_occurrence by assumption.
      rewrite len_app. reflexivity. }
    rewrite Hr, slice_to_app.
    assert (Hhead : (P ++ [slash] == seps (length (P ++ [slash]))) = false).
    { apply eqb_str_false. intros H. apply Ha.
      apply (seps_only_slashes (length (P ++ [slash]))). rewrite <- H, HP.
      apply in_or_app. left. apply in_or_app. right. now left. }
    assert (Hne' : is_empty (P ++ [slash]) = false)
      by (destruct P; reflexivity).
    rewrite Hhead, Hne'. cbn [negb andb].
    rewrite rstrip_snoc_same, HP. now apply rstrip_snoc_other. }
  rewrite Hd.
  assert (HPe : (P == "") = false).
  { apply eqb_str_false. intros ->. destruct P'; discriminate. }
  rewrite HPe. cbn [negb]. exact Hnew.
Qed.

Lemma with_name_raises (p nm : str) :
  raised (FlexPath.with_name p nm)
  = contains slash nm || (nm == "") || (p == "") || (p == "/").
Proof.
  unfold FlexPath.with_name.
  destruct (contains slash nm), (nm == ""), (p == ""), (p == "/");
    cbn [orb raised]; try reflexivity.
  destruct (FlexPath.parent p == "."); reflexivity.
Qed.

Lemma with_name_ok (p nm : str) :
  named nm ->
  (p == "") = false -> (p == "/") = false ->
  FlexPath.parent p <> "/" -> FlexPath.parent p <> "//" ->
  exists r, FlexPath.with_name p nm = Ok r /\
            FlexPath.name r = nm /\
            FlexPath.parent r = FlexPath.parent p.
Proof.
  intros Hnm Hp0 Hp1 HP1 HP2.
  pose proof Hnm as (Hne & Hsl & _ & _).
  unfold FlexPath.with_name.
  assert (Hg : contains slash nm || (nm == "") = false).
  { apply orb_false_iff. split; [now apply contains_false |
                                 now apply eqb_str_false]. }
  rewrite Hg, Hp0, Hp1. cbn [orb]. unfold FlexPath._wrap.
  case_eqb (FlexPath.parent p) (lit ".").
  - exists (FlexPath.__new__ nm). split; [reflexivity|].
    rewrite new_named by assumption. split.
    + apply (name_of_last [] nm); auto.
    + rewrite E. apply parent_no_slash. now apply contains_false.
  - destruct (parent_is_new p Hp1) as (y & Hy & HP).
    set (P := FlexPath.parent p) in *.
    rewrite new_render in HP by assumption.
    pose proof (initial_slashes_range y) as Hk.
    pose proof (comps_of_canonical y) as Hcan.
    set (k := initial_slashes y) in *. set (comps := comps_of y) in *.
    assert (Hcomps : comps <> []).
    { intros Hnil. rewrite Hnil in HP.
      destruct (render_nil_cases k Hk) as [H|[H|H]]; congruence. }
    assert (Hchild : P ++ sep ++ nm = render k (comps ++ [nm]))
      by (rewrite render_snoc, HP by assumption; reflexivity).
    assert (Hfix : FlexPath.__new__ (P ++ sep ++ nm) = P ++ sep ++ nm).
    { rewrite new_nonempty by (destruct P; discriminate).
      rewrite Hchild. apply normpath_render_fixed; [assumption|].
      now apply canonical_snoc. }
    exists (FlexPath.__new__ (P ++ sep ++ nm)). split; [reflexivity|].
    rewrite Hfix. split.
    + change (P ++ sep ++ nm) with (P ++ [slash] ++ nm). rewrite app_assoc.
      apply name_of_last; eauto.
    + apply parent_of_child; try assumption.
      * rewrite HP in HP1, HP2.
        destruct (render_anatomy k comps Hk Hcan HP1 HP2)
          as (B & c & HB & Hc & Hcs & _).
        destruct (last_char_clean c Hc Hcs) as (c' & a & -> & Ha).
        exists (B ++ c'), a. rewrite HP, HB. now rewrite app_assoc.
      * rewrite HP. rewrite new_nonempty.
        -- now apply normpath_render_fixed.
        -- now apply comps_of_render.
Qed.

(** C6 (amended): [with_name] raises exactly when the new name is empty or
    contains a slash, or the receiver is the empty path or the root [/];
    otherwise, when the new name is neither [.] nor [..] and the receiver's
    parent is not a root ([/] or [//]), the result has the new name as its
    final component and the receiver's parent as its parent. *)
Theorem with_name_replaces_name (p nm : str) :
  raised (FlexPath.with_name p nm)
  = contains slash nm || (nm == "") || (p == "") || (p == "/")
  /\ (raised (FlexPath.with_name p nm) = false ->
      (nm == ".") = false -> (nm == "..") = false ->
      (FlexPath.parent p == "/") = false ->
      (FlexPath.parent p == "//") = false ->
      exists r, FlexPath.with_name p nm = Ok r /\
                FlexPath.name r = nm /\
                FlexPath.parent r = FlexPath.parent p).
Proof.
  split; [apply with_name_raises|].
  rewrite with_name_raises. intros Hok Hdot Hdotdot HP1 HP2.
  apply orb_false_iff in Hok. destruct Hok as (Hok & Hp1).
  apply orb_false_iff in Hok. destruct Hok as (Hok & Hp0).
  apply orb_false_iff in Hok. destruct Hok as (Hsl & Hne).
  apply with_name_ok; try assumption.
  - unfold named.
    repeat split; [now apply eqb_str_false | now apply contains_false
                  | now apply eqb_str_false | now apply eqb_str_false].
  - now apply eqb_str_false.
  - now apply eqb_str_false.
Qed.

Lemma with_name_replaces_name_witness :
  exists r, FlexPath.with_name (FlexPath.__new__ "/home/user/file.txt")
              "newfile.txt" = Ok r /\
            FlexPath.name r = "newfile.txt" /\
            FlexPath.parent r
            = FlexPath.parent (FlexPath.__new__ "/home/user/file.txt").
Proof.
  apply (proj2 (with_name_replaces_name
                  (FlexPath.__new__ "/home/user/file.txt") "newfile.txt"));
    reflexivity.
Defined.

(** C6 as stated fails: a new name [".."] is accepted and then resolved by
    normalization, so the result neither ends in it nor keeps the parent. *)
Lemma with_name_dotdot_counterexample :
  raised (FlexPath.with_name (FlexPath.__new__ "/a/b") "..") = false /\
  FlexPath.with_name (FlexPath.__new__ "/a/b") ".." = Ok (lit "/") /\
  FlexPath.name "/" <> ".." /\
  FlexPath.parent "/" <> FlexPath.parent (FlexPath.__new__ "/a/b").
Proof. repeat split; discriminate. Qed.

(** Directly under a root the parent text already ends with a slash, and the
    rebuilt text starts with two. *)
Example with_name_under_root :
  FlexPath.with_name (FlexPath.__new__ "/a") "b" = Ok (lit "//b") /\
  FlexPath.parent "//b" = "//" /\
  FlexPath.parent (FlexPath.__new__ "/a") = "/" /\
  FlexPath.with_suffix (FlexPath.__new__ "/a") ".x" = Ok (lit "/a.x").
Proof. repeat split. Qed.

(** ** Relative computation *)

(** *** Ordering and the common-prefix scan *)

Lemma ascii_compare_refl (a : ascii) : Ascii.compare a a = Eq.
Proof. unfold Ascii.compare. apply N.compare_refl. Qed.

Lemma lex_compare_refl {A} (cmp : A -> A -> comparison) (l : list A) :
  (forall a, cmp a a = Eq) -> lex_compare cmp l l = Eq.
Proof.
  intros H. induction l as [|a l IH]; [reflexivity|].
  cbn [lex_compare]. now rewrite H.
Qed.

Lemma lex_compare_eq {A} (cmp : A -> A -> comparison) (l1 l2 : list A) :
  (forall a b, cmp a b = Eq -> a = b) ->
  lex_compare cmp l1 l2 = Eq -> l1 = l2.
Proof.
  intros H. revert l2. induction l1 as [|a l1 IH]; intros [|b l2];
    cbn [lex_compare]; try discriminate; [reflexivity|].
  destruct (cmp a b) eqn:E; try discriminate.
  intros Hl. apply H in E. apply IH in Hl. congruence.
Qed.

Lemma str_compare_refl (a : str) : str_compare a a = Eq.
Proof. apply lex_compare_refl, ascii_compare_refl. Qed.

Lemma strs_compare_eq (l1 l2 : list str) : strs_compare l1 l2 = Eq -> l1 = l2.
Proof.
  apply lex_compare_eq. intros a b. apply lex_compare_eq.
  apply Ascii.compare_eq_iff.
Qed.

Lemma not_greater_fits (s1 s2 : list str) :
  is_Gt (strs_compare s1 s2) = false -> overruns s1 s2 = false.
Proof.
  revert s2. induction s1 as [|a s1 IH]; intros [|b s2];
    cbn [overruns strs_compare lex_compare is_Gt];
    try reflexivity; try discriminate.
  case_eqb a b; [|reflexivity]. subst b.
  fold (strs_compare s1 s2). rewrite str_compare_refl. apply IH.
Qed.

Lemma greater_fits (s1 s2 : list str) :
  is_Gt (strs_compare s2 s1) = true -> overruns s1 s2 = false.
Proof.
  revert s2. induction s1 as [|a s1 IH]; intros [|b s2];
    cbn [overruns strs_compare lex_compare is_Gt];
    try reflexivity; try discriminate.
  case_eqb a b; [|reflexivity]. subst b.
  fold (strs_compare s2 s1). rewrite str_compare_refl. apply IH.
Qed.

Lemma overruns_self (s : list str) : overruns s s = false.
Proof.
  induction s as [|a s IH]; [reflexivity|].
  cbn [overruns]. now rewrite eqb_str_refl.
Qed.

Lemma common_prefix_comm (l1 l2 : list str) :
  Spec.common_prefix l1 l2 = Spec.common_prefix l2 l1.
Proof.
  revert l2. induction l1 as [|a l1 IH]; intros [|b l2]; try reflexivity.
  cbn [Spec.common_prefix].
  case_eqb a b.
  - subst b. rewrite eqb_str_refl. now rewrite IH.
  - assert (Hba : (b == a) = false) by (apply eqb_str_false; congruence).
    now rewrite Hba.
Qed.


Lemma common_prefix_app (l rest : list str) :
  Spec.common_prefix l (l ++ rest) = l.
Proof.
  induction l as [|a l IH]; [reflexivity|].
  cbn [Spec.common_prefix app]. now rewrite eqb_str_refl, IH.
Qed.

(** The scan returns the longest common prefix whenever it does not run past
    the end of [s2]. *)
Lemma first_mismatch_run (todo : list str) :
  forall scanned s2rest,
    overruns todo s2rest = false ->
    first_mismatch (scanned ++ todo) (scanned ++ s2rest) (length scanned) todo
    = Ok (scanned ++ Spec.common_prefix todo s2rest).
Proof.
  induction todo as [|c todo IH]; intros scanned s2rest Hfit.
  - reflexivity.
  - cbn [first_mismatch].
    rewrite nth_error_app2, Nat.sub_diag by lia.
    destruct s2rest as [|d s2rest]; [discriminate|].
    cbn [nth_error overruns Spec.common_prefix] in *.
    case_eqb c d; cbn [negb].
    + subst d.
      specialize (IH (scanned ++ [c]) s2rest Hfit).
      rewrite <- !app_assoc in IH. cbn [app] in IH.
      rewrite length_app, Nat.add_1_r in IH. exact IH.
    + rewrite firstn_app, Nat.sub_diag, firstn_all. cbn [firstn].
      reflexivity.
Qed.

Lemma first_mismatch_pair (x y : list str) :
  first_mismatch (py_min x [y]) (py_max x [y]) 0 (py_min x [y])
  = Ok (Spec.common_prefix x y).
Proof.
  unfold py_min, py_max. cbn [fold_left].
  destruct (strs_compare y x) eqn:E; cbn [is_Lt is_Gt].
  - apply strs_compare_eq in E. subst y.
    apply (first_mismatch_run x [] x), overruns_self.
  - rewrite common_prefix_comm.
    apply (first_mismatch_run y [] x), not_greater_fits. now rewrite E.
  - apply (first_mismatch_run x [] y), greater_fits. now rewrite E.
Qed.

(** *** The texts [relative_to] works on *)

Lemma normpath_render_all (p : str) :
  normpath p = render (initial_slashes p) (comps_of p).
Proof.
  destruct p as [|a p]; [reflexivity|]. now apply normpath_render.
Qed.

Lemma filter_keeps_canonical (k : nat) (c : list str) :
  canonical k c ->
  filter (fun c => negb (is_empty c) && negb (c == curdir)) c = c /\
  filter (fun x => negb (is_empty x)) c = c.
Proof.
  intros Hcan. pose proof (canonical_forall _ _ Hcan) as Hall.
  split; apply forallb_filter_id, forallb_forall; intros x Hx;
    rewrite Forall_forall in Hall; destruct (Hall x Hx) as (Hne & _ & Hcur).
  - apply is_empty_false in Hne. apply eqb_str_false in Hcur.
    now rewrite Hne, Hcur.
  - apply is_empty_false in Hne. now rewrite Hne.
Qed.

Lemma split_sep_join_or_empty (c : list str) :
  Forall (fun c => c <> [] /\ ~ In slash c /\ c <> curdir) c ->
  split slash (sep_join sep c) = match c with [] => [[]] | _ => c end.
Proof.
  intros H. destruct c as [|a c]; [reflexivity|].
  apply split_sep_join_comps; [assumption | discriminate].
Qed.

(** Splitting a normalized text and dropping the empty pieces, as
    [commonpath] (which also drops [.]) and [relpath] do, gives its
    components. *)
Lemma split_render (k : nat) (c : list str) :
  (k <= 2)%nat -> canonical k c ->
  filter (fun c => negb (is_empty c) && negb (c == curdir))
         (split slash (render k c)) = c
  /\ ((k =? 0)%nat && is_empty c = false ->
      filter (fun x => negb (is_empty x)) (split slash (render k c)) = c).
Proof.
  intros Hk Hcan. pose proof (canonical_forall _ _ Hcan) as Hall.
  destruct (filter_keeps_canonical k c Hcan) as (F1 & F2).
  pose proof (split_sep_join_or_empty c Hall) as Hs.
  destruct c as [|a c].
  - destruct k as [|[|[|k]]]; [| | |lia];
      (split; [reflexivity | try discriminate; reflexivity]).
  - assert (Hr : render k (a :: c)
                 = (if negb (k =? 0)%nat then seps k else [])
                     ++ sep_join sep (a :: c))
      by (apply render_body; [discriminate | assumption]).
    rewrite Hr.
    destruct k as [|[|[|k]]]; [| | |lia];
      cbn [Nat.eqb negb seps repeat app split];
      change (Ascii.eqb slash slash) with true; cbv iota;
      rewrite Hs; cbn [filter is_empty negb andb] in *;
      (split; [exact F1 | intros _; exact F2]).
Qed.

Lemma slice_to_1_cons {A} (a : A) (l : list A) : slice_to 1 (a :: l) = [a].
Proof.
  unfold slice_to, slice_index. rewrite len_cons.
  pose proof (len_nonneg l). change (1 <? 0) with false. cbv iota.
  replace (Z.to_nat (Z.min (len l + 1) 1)) with 1%nat by lia. reflexivity.
Qed.

Lemma isabs_flag (t : str) : (slice_to 1 t == sep) = isabs t.
Proof.
  destruct t as [|a t]; [reflexivity|].
  rewrite slice_to_1_cons. unfold isabs. rewrite startswith_sep_cons.
  destruct (Ascii.eqb_spec slash a) as [<-|Hne]; [reflexivity|].
  apply eqb_str_false. intros H. injection H as ->. now apply Hne.
Qed.

Lemma isabs_render (k : nat) (c : list str) :
  (k <= 2)%nat -> canonical k c -> isabs (render k c) = negb (k =? 0)%nat.
Proof.
  intros Hk Hcan. pose proof (canonical_forall _ _ Hcan) as Hall.
  unfold render.
  destruct k as [|[|[|k]]]; [| | |lia]; cbn [Nat.eqb negb]; try reflexivity.
  destruct (sep_join_head c Hall) as [(-> & _)|(_ & a & t & E & Ha)];
    [reflexivity|].
  rewrite E. cbn [is_empty]. unfold isabs. now apply startswith_sep_other.
Qed.

(** [commonpath] of two texts on the same anchor. *)
Lemma commonpath_pair (t1 t2 : str) :
  isabs t1 = isabs t2 ->
  commonpath [t1; t2]
  = Ok ((if isabs t1 then sep else [])
          ++ sep_join sep
               (Spec.common_prefix
                  (filter (fun c => negb (is_empty c) && negb (c == curdir))
                          (split slash t1))
                  (filter (fun c => negb (is_empty c) && negb (c == curdir))
                          (split slash t2)))).
Proof.
  intros H. unfold commonpath. cbn [map forallb hd tl].
  rewrite !isabs_flag, <- H, eqb_reflx. cbn [andb negb].
  rewrite first_mismatch_pair. cbn [bind].
  destruct (isabs t1); reflexivity.
Qed.

Lemma common_prefix_nil_r (l : list str) : Spec.common_prefix l [] = [].
Proof. destruct l; reflexivity. Qed.

Lemma common_prefix_forall (P : str -> Prop) (l1 l2 : list str) :
  Forall P l2 -> Forall P (Spec.common_prefix l1 l2).
Proof.
  revert l2. induction l1 as [|a l1 IH]; intros [|b l2] H;
    cbn [Spec.common_prefix]; try constructor.
  inversion H; subst. case_eqb a b; [|constructor]. subst b.
  constructor; [assumption | now apply IH].
Qed.

Lemma sep_join_inj (l1 l2 : list str) :
  Forall (fun c => c <> [] /\ ~ In slash c /\ c <> curdir) l1 ->
  Forall (fun c => c <> [] /\ ~ In slash c /\ c <> curdir) l2 ->
  sep_join sep l1 = sep_join sep l2 -> l1 = l2.
Proof.
  intros H1 H2 H. apply (f_equal (split slash)) in H.
  rewrite !split_sep_join_or_empty in H by assumption.
  destruct l1 as [|a l1], l2 as [|b l2]; try assumption; try reflexivity.
  - injection H as <- _. apply Forall_inv in H2. tauto.
  - injection H as -> _. apply Forall_inv in H1. tauto.
Qed.

(** When the text of the common path is the text of the base. *)
Lemma common_is_base (kb : nat) (cb cp : list str) :
  (kb <= 2)%nat -> canonical kb cb ->
  (if negb (kb =? 0)%nat then sep else [])
    ++ sep_join sep (Spec.common_prefix cp cb) = render kb cb
  <-> Spec.common_prefix cp cb = cb /\ render kb cb <> "."
      /\ startswith "//" (render kb cb) = false.
Proof.
  intros Hk Hcan. pose proof (canonical_forall _ _ Hcan) as Hall.
  pose proof (common_prefix_forall _ cp cb Hall) as Hpre.
  pose proof (sep_join_not_abs _ Hall) as Hnb.
  pose proof (sep_join_not_abs _ Hpre) as Hnp.
  destruct cb as [|b cb].
  { rewrite common_prefix_nil_r.
    destruct kb as [|[|[|kb]]]; [| | |lia]; cbn; split;
      try discriminate; intuition (discriminate || congruence). }
  assert (Hr : render kb (b :: cb)
               = (if negb (kb =? 0)%nat then seps kb else [])
                   ++ sep_join sep (b :: cb))
    by (apply render_body; [discriminate | assumption]).
  assert (Hdot : render kb (b :: cb) <> ".").
  { intros H.
    destruct (comps_of_render kb (b :: cb) Hk Hcan) as (_ & Hc & _).
    rewrite H in Hc. discriminate. }
  rewrite Hr in *.
  assert (Hinj : sep_join sep (Spec.common_prefix cp (b :: cb))
                 = sep_join sep (b :: cb) ->
                 Spec.common_prefix cp (b :: cb) = b :: cb)
    by (now apply sep_join_inj).
  remember (sep_join sep (b :: cb)) as J eqn:HJ.
  remember (Spec.common_prefix cp (b :: cb)) as L eqn:HL.
  destruct kb as [|[|[|kb]]]; [| | |lia]; cbn [Nat.eqb negb seps repeat app].
  - split.
    + intros H. repeat split; auto.
      destruct (sep_join_head _ Hall) as [(E & _)|(_ & a & t & E & Ha)];
        [discriminate|].
      rewrite <- HJ in E. rewrite E.
      change (startswith "//" (a :: t))
        with (Ascii.eqb slash a && startswith sep t).
      destruct (Ascii.eqb_spec slash a); [now subst a | reflexivity].
    + intros (-> & _). now rewrite HJ.
  - split.
    + intros H. injection H as H. repeat split; auto.
    + intros (-> & _). now rewrite HJ.
  - split.
    + intros H. injection H as H. rewrite H in Hnp. discriminate.
    + intros (_ & _ & H). discriminate.
Qed.

(** *** [relpath] below a base *)

Lemma normpath_step_named (k : nat) (acc : list str) (c : str) :
  named c -> normpath_step k acc c = acc ++ [c].
Proof.
  intros (Hne & _ & Hcur & Hpar). unfold normpath_step.
  apply eqb_str_false in Hcur, Hpar.
  assert (He : (c == empty) = false) by now apply eqb_str_false.
  now rewrite He, Hcur, Hpar.
Qed.

Lemma fold_named_append (k : nat) (rest : list str) :
  Forall named rest ->
  forall acc, fold_left (normpath_step k) rest acc = acc ++ rest.
Proof.
  induction 1 as [|c rest Hc _ IH]; intros acc; cbn [fold_left].
  - now rewrite app_nil_r.
  - rewrite normpath_step_named, IH by assumption.
    now rewrite <- app_assoc.
Qed.

Lemma fold_split_render_0 (kc : nat) (c acc : list str) :
  canonical 0 c ->
  fold_left (normpath_step kc) (split slash (render 0 c)) acc
  = fold_left (normpath_step kc) c acc.
Proof.
  intros Hcan. pose proof (canonical_forall _ _ Hcan) as Hall.
  destruct c as [|a c]; [reflexivity|].
  rewrite render_body by (assumption || discriminate).
  cbn [Nat.eqb negb app].
  now rewrite split_sep_join_comps by (assumption || discriminate).
Qed.

Lemma initial_slashes_isabs (s : str) :
  isabs s = true -> (initial_slashes s =? 0)%nat = false.
Proof.
  unfold isabs, initial_slashes. intros ->.
  destruct (startswith (seps 2) s && negb (startswith (seps 3) s));
    reflexivity.
Qed.

Lemma canonical_no_slash (k : nat) (c : list str) :
  canonical k c -> Forall (fun x => ~ In slash x) c.
Proof.
  intros H. eapply Forall_impl; [|exact (canonical_forall _ _ H)].
  cbn. tauto.
Qed.

(** The component list [relpath] derives from [abspath] of a normalized
    text: its own components under a root, and otherwise those of the
    working directory continued by normalization over its components. *)
Lemma abspath_comps (cwd : str) (k : nat) (c : list str) :
  isabs cwd = true -> (k <= 2)%nat -> canonical k c ->
  filter (fun x => negb (is_empty x)) (split slash (abspath cwd (render k c)))
  = if (k =? 0)%nat
    then fold_left (normpath_step (initial_slashes cwd)) c (comps_of cwd)
    else c.
Proof.
  intros Hcwd Hk Hcan. unfold abspath.
  change (startswith sep (render k c)) with (isabs (render k c)).
  rewrite isabs_render by assumption.
  destruct (k =? 0)%nat eqn:Ek; cbn [negb].
  - apply Nat.eqb_eq in Ek. subst k.
    assert (Hrel : startswith sep (render 0 c) = false)
      by (change (isabs (render 0 c) = false); now rewrite isabs_render).
    assert (Hne : cwd <> []) by (intros ->; discriminate).
    destruct (join_step_relative cwd (render 0 c) Hne Hrel) as (Hj & Hi & Hc).
    cbn [join fold_left].
    rewrite normpath_render by assumption. unfold comps_of at 1.
    rewrite Hi, Hc, fold_split_render_0 by assumption.
    fold (comps_of cwd).
    apply split_render.
    + apply initial_slashes_range.
    + apply fold_normpath_step_canonical;
        [now apply (canonical_no_slash 0) | apply comps_of_canonical].
    + now rewrite initial_slashes_isabs.
  - rewrite normpath_render_fixed by assumption.
    apply split_render; try assumption. now rewrite Ek.
Qed.

Lemma commonprefix_pair (x y : list str) :
  commonprefix [x; y] = Ok (Spec.common_prefix x y).
Proof. apply first_mismatch_pair. Qed.

Lemma sep_join_concat (a : str) (p : list str) :
  sep_join sep (a :: p) = a ++ concat (map (fun c => sep ++ c) p).
Proof.
  revert a. induction p as [|b p IH]; intros a.
  - cbn. now rewrite app_nil_r.
  - rewrite sep_join_cons by discriminate. rewrite IH.
    cbn [map concat]. now rewrite <- !app_assoc.
Qed.

Lemma join_named_from (p : list str) :
  Forall named p ->
  forall acc, (exists acc' x, acc = acc' ++ [x] /\ x <> slash) ->
              join acc p = acc ++ concat (map (fun c => sep ++ c) p).
Proof.
  induction 1 as [|b p Hb _ IH]; intros acc (acc' & x & Hacc & Hx).
  - cbn. now rewrite app_nil_r.
  - destruct Hb as (Hne & Hsl & _).
    destruct (last_char_clean b Hne Hsl) as (b' & y & Hbe & Hy).
    assert (Hstep : join_step acc b = acc ++ sep ++ b).
    { unfold join_step.
      destruct b as [|z b]; [congruence|].
      rewrite startswith_sep_other by (intros ->; apply Hsl; now left).
      rewrite Hacc, endswith_sep_snoc.
      destruct (Ascii.eqb_spec slash x); [now subst x|].
      destruct acc'; reflexivity. }
    cbn [join fold_left map concat]. rewrite Hstep.
    change (fold_left join_step p (acc ++ sep ++ b))
      with (join (acc ++ sep ++ b) p).
    rewrite IH.
    + now rewrite <- !app_assoc.
    + exists (acc ++ sep ++ b'), y. rewrite Hbe. split; [|assumption].
      now rewrite <- !app_assoc.
Qed.

Lemma join_named (a : str) (p : list str) :
  Forall named (a :: p) -> join a p = sep_join sep (a :: p).
Proof.
  intros H. inversion H as [|? ? Ha Hp]; subst.
  rewrite sep_join_concat. apply join_named_from; [assumption|].
  destruct Ha as (Hne & Hsl & _). now apply last_char_clean.
Qed.

Lemma slice_from_len_app {A} (l rest : list A) :
  slice_from (len l) (l ++ rest) = rest.
Proof. apply slice_from_app. Qed.

(** Below a base, [relpath] returns the remaining components. *)
Lemma relpath_below (cwd : str) (k kb : nat) (cb rest : list str) :
  isabs cwd = true -> (k <= 2)%nat -> (kb <= 2)%nat ->
  (k =? 0)%nat = (kb =? 0)%nat ->
  canonical k (cb ++ rest) -> canonical kb cb -> Forall named rest ->
  relpath cwd (render k (cb ++ rest)) (render kb cb)
  = Ok (match rest with [] => curdir | _ :: _ => sep_join sep rest end).
Proof.
  intros Hcwd Hk Hkb Hanchor Hcan Hcanb Hrest.
  assert (Hne : is_empty (render k (cb ++ rest)) = false)
    by (apply is_empty_false; now apply comps_of_render).
  set (start := if (k =? 0)%nat
                then fold_left (normpath_step (initial_slashes cwd)) cb
                       (comps_of cwd)
                else cb).
  assert (Hs : filter (fun x => negb (is_empty x))
                      (split slash (abspath cwd (render kb cb))) = start).
  { rewrite abspath_comps by assumption. now rewrite <- Hanchor. }
  assert (Hp : filter (fun x => negb (is_empty x))
                      (split slash (abspath cwd (render k (cb ++ rest))))
               = start ++ rest).
  { rewrite abspath_comps by assumption. unfold start.
    destruct (k =? 0)%nat; [|reflexivity].
    now rewrite fold_left_app, fold_named_append. }
  unfold relpath.
  rewrite Hne, Hs, Hp, commonprefix_pair, common_prefix_app. cbn [bind].
  rewrite Z.sub_diag, slice_from_len_app. cbn [Z.to_nat repeat app].
  destruct rest as [|a rest]; [reflexivity|].
  now rewrite join_named.
Qed.

Lemma relpath_returns (cwd path start : str) :
  path <> [] -> exists r, relpath cwd path start = Ok r.
Proof.
  intros H. unfold relpath. apply is_empty_false in H. rewrite H.
  rewrite commonprefix_pair. cbn [bind].
  destruct (_ ++ _); eauto.
Qed.

(** *** [relative_to] *)

Lemma named_rest (k : nat) (cb rest : list str) :
  canonical k (cb ++ rest) -> ~ In pardir rest -> Forall named rest.
Proof.
  intros Hcan Hpar. apply canonical_forall in Hcan.
  apply Forall_app in Hcan. destruct Hcan as (_ & Hrest).
  rewrite Forall_forall in *. intros x Hx.
  destruct (Hrest x Hx) as (H1 & H2 & H3).
  repeat split; try assumption. intros ->. now apply Hpar.
Qed.

Lemma canonical_named (rest : list str) :
  Forall named rest -> canonical 0 rest.
Proof. intros H. exists 0%nat, rest. repeat split; auto. Qed.

(** [relative_to] of a single base, once the anchors agree. *)
Lemma relative_to_same_anchor (cwd p b : str) :
  isabs (normpath p) = isabs (normpath b) ->
  FlexPath.relative_to cwd p [b]
  = if negb ((if isabs (normpath b) then sep else [])
               ++ sep_join sep
                    (Spec.common_prefix (comps_of p) (comps_of b))
             == normpath b)
    then Raise NotASubpath
    else rel <- relpath cwd (normpath p) (normpath b) ;;
         Ok (FlexPath._wrap (if rel == "." then lit "." else rel)).
Proof.
  intros H. unfold FlexPath.relative_to. cbn [join fold_left].
  rewrite H, eqb_reflx. cbn [negb].
  rewrite commonpath_pair by assumption. rewrite H.
  assert (Hsplit : forall t,
            filter (fun c => negb (is_empty c) && negb (c == curdir))
                   (split slash (normpath t)) = comps_of t).
  { intros t. rewrite normpath_render_all.
    apply split_render;
      [apply initial_slashes_range | apply comps_of_canonical]. }
  rewrite !Hsplit. reflexivity.
Qed.

(** What [relative_to] does for every receiver and base: it raises
    [IncompatibleAnchors] exactly when one normalized operand is absolute
    and the other is not; on a common anchor it raises [NotASubpath] unless
    the base's components are a prefix of the receiver's and the base's
    normalized text is neither ["."] nor under the double-slash root; and
    below such a base, when no [..] remains, it returns the remaining
    components joined with ["/"], or ["."] when none remains. *)
Lemma relative_to_strict_subpath (cwd p b : str) :
  isabs cwd = true ->
  (FlexPath.relative_to cwd p [b] = Raise IncompatibleAnchors
   <-> isabs (normpath p) <> isabs (normpath b))
  /\ (isabs (normpath p) = isabs (normpath b) ->
      (FlexPath.relative_to cwd p [b] = Raise NotASubpath
       <-> ~ (Spec.common_prefix (Spec.segments p) (Spec.segments b)
              = Spec.segments b
              /\ normpath b <> "."
              /\ startswith "//" (normpath b) = false)))
  /\ (forall rest,
         isabs (normpath p) = isabs (normpath b) ->
         Spec.segments p = Spec.segments b ++ rest ->
         normpath b <> "." ->
         startswith "//" (normpath b) = false ->
         ~ In pardir rest ->
         FlexPath.relative_to cwd p [b]
         = Ok (if is_empty rest then curdir else sep_join sep rest)).
Proof.
  intros Hcwd. rewrite !segments_comps_of.
  pose proof (initial_slashes_range p) as Hkp.
  pose proof (initial_slashes_range b) as Hkb.
  pose proof (comps_of_canonical p) as Hcp.
  pose proof (comps_of_canonical b) as Hcb.
  assert (Hret : exists r, relpath cwd (normpath p) (normpath b) = Ok r)
    by (apply relpath_returns, normpath_not_empty).
  assert (Hbase : isabs (normpath b) = negb (initial_slashes b =? 0)%nat).
  { rewrite (normpath_render_all b). now apply isabs_render. }
  split; [|split].
  - split.
    + intros H Hanchor. rewrite relative_to_same_anchor in H by assumption.
      destruct Hret as (r & Hr). rewrite Hr in H.
      destruct (negb _) in H; discriminate.
    + intros H. unfold FlexPath.relative_to. cbn [join fold_left].
      destruct (isabs (normpath p)), (isabs (normpath b));
        try reflexivity; now elim H.
  - intros Hanchor. rewrite relative_to_same_anchor by assumption.
    pose proof (common_is_base _ _ (comps_of p) Hkb Hcb) as Hiff.
    rewrite <- normpath_render_all, <- Hbase in Hiff. rewrite <- Hiff.
    destruct Hret as (r & ->). cbn [bind].
    match goal with |- context [negb (?t == normpath b)] =>
      case_eqb t (normpath b) end; cbn [negb].
    + split; [discriminate | intros H; now elim H].
    + split; [intros _; assumption | reflexivity].
  - intros rest Hanchor Hrest Hdot Hroot Hpar.
    rewrite relative_to_same_anchor by assumption.
    assert (Hcommon : (if isabs (normpath b) then sep else [])
                        ++ sep_join sep
                             (Spec.common_prefix (comps_of p) (comps_of b))
                      = normpath b).
    { pose proof (common_is_base _ _ (comps_of p) Hkb Hcb) as Hiff.
      rewrite <- normpath_render_all, <- Hbase in Hiff. apply Hiff.
      repeat split; try assumption.
      rewrite Hrest, common_prefix_comm. apply common_prefix_app. }
    rewrite Hcommon, eqb_str_refl. cbn [negb].
    assert (Hnamed : Forall named rest)
      by (apply (named_rest (initial_slashes p) (comps_of b));
          [now rewrite <- Hrest | assumption]).
    rewrite (normpath_render_all p), (normpath_render_all b), Hrest.
    rewrite relpath_below; try assumption.
    + cbn [bind]. unfold FlexPath._wrap. f_equal.
      destruct rest as [|a rest]; [reflexivity|]. cbn [is_empty].
      assert (Hfix : FlexPath.__new__ (sep_join sep (a :: rest))
                     = sep_join sep (a :: rest)).
      { pose proof (canonical_named _ Hnamed) as Hcan0.
        assert (Hb : render 0 (a :: rest) = sep_join sep (a :: rest))
          by (rewrite render_body; [reflexivity | discriminate | assumption]).
        rewrite <- Hb.
        rewrite new_nonempty by (apply comps_of_render; [lia | assumption]).
        apply normpath_render_fixed; [lia | assumption]. }
      case_eqb (sep_join sep (a :: rest)) (lit "."); [|exact Hfix].
      rewrite <- E. exact Hfix.
    + rewrite (normpath_render_all p), (normpath_render_all b) in Hanchor.
      rewrite !isabs_render in Hanchor by assumption.
      destruct (initial_slashes p =? 0)%nat, (initial_slashes b =? 0)%nat;
        (reflexivity || discriminate).
    + now rewrite <- Hrest.
Qed.

Example relative_to_scenarios :
  FlexPath.relative_to "/srv" (FlexPath.__new__ "/home/user/docs/file.txt")
    [FlexPath.__new__ "/home/user"] = Ok (lit "docs/file.txt")
  /\ FlexPath.relative_to "/srv" (FlexPath.__new__ "/home/user")
       [FlexPath.__new__ "/other/path"] = Raise NotASubpath
  /\ FlexPath.relative_to "/srv" (FlexPath.__new__ "/home/user")
       [FlexPath.__new__ "home"] = Raise IncompatibleAnchors
  /\ FlexPath.relative_to "/srv" (FlexPath.__new__ "/home/user")
       [FlexPath.__new__ "/home/user"] = Ok (lit ".").
Proof. repeat split. Qed.

(** C2, at the inputs where the code departs from it: a relative base with
    no components (the path ["."]) and a base under the double-slash root
    are refused as [NotASubpath] even for the receiver itself, whatever the
    working directory, although receiver and base are equal and on the same
    anchor. *)
Theorem relative_to_self_refused (cwd : str) :
  FlexPath.__new__ "." = "." /\
  FlexPath.relative_to cwd (FlexPath.__new__ ".") [FlexPath.__new__ "."]
    = Raise NotASubpath /\
  FlexPath.relative_to cwd (FlexPath.__new__ "a/b") [FlexPath.__new__ "."]
    = Raise NotASubpath /\
  FlexPath.__new__ "//a" = "//a" /\
  FlexPath.relative_to cwd (FlexPath.__new__ "//a") [FlexPath.__new__ "//a"]
    = Raise NotASubpath.
Proof. repeat split. Qed.

(** ** The parent and the name of a normalized path *)

Import Layout.

Lemma canonical_init (k : nat) (init : list str) (c : str) :
  canonical k (init ++ [c]) -> canonical k init.
Proof.
  intros (n & rest & Heq & Hrest & Hk).
  destruct rest as [|d rest] using rev_ind.
  - rewrite app_nil_r in Heq. destruct n as [|n].
    + destruct init; discriminate.
    + rewrite <- repeat_snoc in Heq. apply app_inj_tail in Heq.
      destruct Heq as (-> & _). exists n, []. rewrite app_nil_r.
      repeat split; auto. intros H. specialize (Hk H). discriminate.
  - rewrite app_assoc in Heq. apply app_inj_tail in Heq.
    destruct Heq as (-> & _). exists n, rest. repeat split; auto.
    apply Forall_app in Hrest. tauto.
Qed.

Lemma canonical_last (k : nat) (init : list str) (c : str) :
  canonical k (init ++ [c]) -> c <> [] /\ ~ In slash c /\ c <> curdir.
Proof.
  intros H. apply canonical_forall in H. apply Forall_app in H.
  destruct H as (_ & H). now apply Forall_inv in H.
Qed.

Lemma sep_join_front (init : list str) (c : str) :
  sep_join sep (init ++ [c]) = concat (map (fun c => c ++ sep) init) ++ c.
Proof.
  induction init as [|d init IH]; [reflexivity|].
  change ((d :: init) ++ [c]) with (d :: (init ++ [c])).
  rewrite sep_join_cons by (destruct init; discriminate).
  rewrite IH. cbn [map concat]. now rewrite <- !app_assoc.
Qed.

(** A normalized text with at least one component is its front followed by
    the last component. *)
Lemma render_front (k : nat) (init : list str) (c : str) :
  canonical k (init ++ [c]) -> render k (init ++ [c]) = front k init ++ c.
Proof.
  intros Hcan. rewrite render_body; [|destruct init; discriminate | assumption].
  unfold front. now rewrite sep_join_front, app_assoc.
Qed.

Lemma front_shape (k : nat) (init : list str) :
  (k <= 2)%nat ->
  front k init = [] \/ exists B', front k init = B' ++ [slash].
Proof.
  intros Hk. unfold front.
  destruct init as [|d init] using rev_ind.
  - cbn [map concat]. rewrite app_nil_r.
    destruct k as [|[|[|k]]]; [| | |lia]; cbn.
    + now left.
    + right. now exists [].
    + right. now exists [slash].
  - right. rewrite map_app, concat_app. cbn [map concat].
    rewrite app_nil_r. eexists. rewrite !app_assoc. reflexivity.
Qed.

Lemma name_render (k : nat) (init : list str) (c : str) :
  (k <= 2)%nat -> canonical k (init ++ [c]) ->
  FlexPath.name (render k (init ++ [c])) = c.
Proof.
  intros Hk Hcan. rewrite render_front by assumption.
  destruct (canonical_last _ _ _ Hcan) as (Hne & Hsl & _).
  apply name_of_last; try assumption. now apply front_shape.
Qed.

Lemma render_init_not_root (k : nat) (init : list str) :
  (k <= 2)%nat -> canonical k init -> init <> [] ->
  render k init <> "/" /\ render k init <> "//".
Proof.
  intros Hk Hcan Hne.
  destruct (comps_of_render k init Hk Hcan) as (_ & Hc & _).
  split; intros H; rewrite H in Hc; apply Hne; now rewrite <- Hc.
Qed.

Lemma render_ends_clean (k : nat) (init : list str) :
  (k <= 2)%nat -> canonical k init -> init <> [] ->
  exists P' a, render k init = P' ++ [a] /\ a <> slash.
Proof.
  intros Hk Hcan Hne.
  destruct (render_init_not_root k init Hk Hcan Hne) as (H1 & H2).
  destruct (render_anatomy k init Hk Hcan H1 H2) as (B & c & HB & Hc & Hcs & _).
  destruct (last_char_clean c Hc Hcs) as (c' & a & -> & Ha).
  exists (B ++ c'), a. rewrite HB. now rewrite app_assoc.
Qed.

Lemma render_fixed_new (k : nat) (comps : list str) :
  (k <= 2)%nat -> canonical k comps ->
  FlexPath.__new__ (render k comps) = render k comps.
Proof.
  intros Hk Hcan. rewrite new_nonempty by now apply comps_of_render.
  now apply normpath_render_fixed.
Qed.

Lemma render_snoc_plain (k : nat) (init : list str) (c : str) :
  init <> [] -> canonical k (init ++ [c]) ->
  render k (init ++ [c]) = render k init ++ sep ++ c.
Proof.
  intros Hne Hcan.
  rewrite render_body; [|destruct init; discriminate | assumption].
  rewrite render_body; [|assumption | now apply canonical_init in Hcan].
  rewrite sep_join_snoc by assumption. now rewrite <- !app_assoc.
Qed.

Lemma parent_root_child (k : nat) (c : str) :
  (1 <= k <= 2)%nat -> c <> [] -> ~ In slash c ->
  FlexPath.parent (seps k ++ c) = seps k.
Proof.
  intros Hk Hne Hsl. unfold FlexPath.parent.
  assert (Hshape : exists B', seps k = B' ++ [slash]).
  { destruct k as [|[|[|k]]]; [lia | now exists [] | now exists [slash] | lia]. }
  destruct Hshape as (B' & HB).
  assert (Hroot : (seps k ++ c == "/") = false).
  { apply eqb_str_false. intros H. apply (f_equal (@length _)) in H.
    rewrite length_app in H. unfold seps in H. rewrite repeat_length in H.
    destruct c; [congruence | simpl in H; lia]. }
  rewrite Hroot, rstrip_clean_end by assumption.
  assert (Hemp : (seps k ++ c == "") = false).
  { apply eqb_str_false. intros H. apply app_eq_nil in H. tauto. }
  rewrite Hemp.
  assert (Hd : dirname (seps k ++ c) = seps k).
  { unfold dirname.
    assert (Hr : rfind slash (seps k ++ c) + 1 = len (seps k)).
    { rewrite HB, <- app_assoc. cbn [app].
      rewrite rfind_last_occurrence by assumption.
      rewrite len_app. reflexivity. }
    assert (Hl : length (seps k) = k) by apply repeat_length.
    rewrite Hr, slice_to_app, Hl, eqb_str_refl. cbn [negb].
    now rewrite andb_false_r. }
  rewrite Hd.
  destruct k as [|[|[|k]]]; [lia | reflexivity | reflexivity | lia].
Qed.

(** The parent of a normalized path is the path of its earlier components,
    on the same root. *)
Lemma parent_render (k : nat) (init : list str) (c : str) :
  (k <= 2)%nat -> canonical k (init ++ [c]) ->
  FlexPath.parent (render k (init ++ [c])) = render k init.
Proof.
  intros Hk Hcan.
  destruct (canonical_last _ _ _ Hcan) as (Hne & Hsl & _).
  pose proof (canonical_init _ _ _ Hcan) as Hinit.
  destruct init as [|d init].
  - rewrite render_front by assumption. unfold front.
    cbn [map concat]. rewrite app_nil_r.
    destruct k as [|[|[|k]]]; [| | |lia]; cbn [Nat.eqb negb app].
    + apply parent_no_slash. now apply contains_false.
    + apply (parent_root_child 1); (lia || assumption).
    + apply (parent_root_child 2); (lia || assumption).
  - rewrite render_snoc_plain by (assumption || discriminate).
    apply parent_of_child; try assumption.
    + apply render_ends_clean; (assumption || discriminate).
    + now apply render_fixed_new.
Qed.

(** Every constructed path is the rendering of canonical components. *)
Lemma new_cases (x : str) :
  FlexPath.__new__ x = [] \/
  exists k comps, (k <= 2)%nat /\ canonical k comps /\
                  FlexPath.__new__ x = render k comps.
Proof.
  destruct x as [|a x]; [now left|]. right.
  exists (initial_slashes (a :: x)), (comps_of (a :: x)).
  split; [apply initial_slashes_range|].
  split; [apply comps_of_canonical|].
  now apply new_render.
Qed.

Lemma join_last_component (k : nat) (init : list str) (c : str) :
  (k <= 2)%nat -> canonical k (init ++ [c]) ->
  FlexPath.__new__ (join_step (render k init) c) = render k (init ++ [c]).
Proof.
  intros Hk Hcan.
  destruct (canonical_last _ _ _ Hcan) as (Hne & Hsl & _).
  pose proof (canonical_init _ _ _ Hcan) as Hinit.
  destruct (comps_of_render k init Hk Hinit) as (Hi & Hc & Hr).
  assert (Hrel : startswith sep c = false).
  { destruct c as [|a c]; [reflexivity|].
    apply startswith_sep_other. intros ->. apply Hsl. now left. }
  rewrite new_join_step by assumption.
  rewrite Hi, Hc, split_absent by assumption.
  now rewrite (fold_normpath_step_id k [c] init).
Qed.

(** X1: joining the parent of a path with its name gives the path back, for
    every constructed path other than the empty path and the double-slash
    root. *)
Theorem parent_joined_with_name (x : str) :
  (FlexPath.__new__ x == "") = false ->
  (FlexPath.__new__ x == "//") = false ->
  FlexPath.__truediv__ (FlexPath.parent (FlexPath.__new__ x))
    (FlexPath.name (FlexPath.__new__ x))
  = FlexPath.__new__ x.
Proof.
  intros H0 H2. apply eqb_str_false in H0, H2.
  destruct (new_cases x) as [H|(k & comps & Hk & Hcan & Hp)]; [now elim H0|].
  rewrite Hp in *.
  destruct comps as [|c init] using rev_ind.
  - destruct k as [|[|[|k]]]; [reflexivity | reflexivity | now elim H2 | lia].
  - rewrite parent_render, name_render by assumption.
    unfold FlexPath.__truediv__, FlexPath.joinpath, FlexPath._wrap.
    cbn [join fold_left]. now apply join_last_component.
Qed.

Lemma parent_joined_with_name_witness :
  FlexPath.__truediv__ (FlexPath.parent (FlexPath.__new__ "/home/user/a.txt"))
    (FlexPath.name (FlexPath.__new__ "/home/user/a.txt"))
  = FlexPath.__new__ "/home/user/a.txt".
Proof.
  apply (parent_joined_with_name "/home/user/a.txt"); reflexivity.
Defined.

(** ** Ancestors *)

Lemma render_not_dot (k : nat) (comps : list str) :
  (k <= 2)%nat -> canonical k comps -> comps <> [] -> render k comps <> ".".
Proof.
  intros Hk Hcan Hne H.
  destruct (comps_of_render k comps Hk Hcan) as (_ & Hc & _).
  rewrite H in Hc. apply Hne. now rewrite <- Hc.
Qed.

Lemma render_snoc_differs (k : nat) (init : list str) (c : str) :
  (k <= 2)%nat -> canonical k (init ++ [c]) ->
  render k init <> render k (init ++ [c]).
Proof.
  intros Hk Hcan H.
  apply render_inj in H; try assumption; [|now apply canonical_init in Hcan].
  destruct H as (_ & H). apply (f_equal (@length _)) in H.
  rewrite length_app in H. simpl in H. lia.
Qed.

Lemma parents_loop_root (k fuel : nat) (res : list str) :
  (k <= 2)%nat ->
  FlexPath.parents_loop (S fuel) (render k []) res = Some res.
Proof.
  intros Hk. destruct k as [|[|[|k]]]; [reflexivity..|lia].
Qed.

(** The loop of [parents] on a normalized path walks up its components and
    stops at the root, or before the relative marker. *)
Lemma parents_loop_render (k : nat) (init : list str) :
  (k <= 2)%nat ->
  forall c res fuel,
    canonical k (init ++ [c]) -> (length init + 2 <= fuel)%nat ->
    FlexPath.parents_loop fuel (render k (init ++ [c])) res
    = Some (res ++ chain k (rev init)).
Proof.
  intros Hk. induction init as [|c' init' IH] using rev_ind;
    intros c res fuel Hcan Hfuel.
  - destruct fuel as [|[|fuel]]; [simpl in Hfuel; lia..|].
    cbn [FlexPath.parents_loop].
    rewrite (parent_render k [] c) by assumption.
    assert (Hd : (render k [] == render k ([] ++ [c])) = false)
      by (apply eqb_str_false; now apply render_snoc_differs).
    rewrite Hd. cbn [rev chain].
    destruct k as [|[|[|k]]]; [| | |lia].
    + cbn. now rewrite app_nil_r.
    + reflexivity.
    + reflexivity.
  - destruct fuel as [|fuel]; [lia|].
    cbn [FlexPath.parents_loop].
    rewrite parent_render by assumption.
    pose proof (canonical_init _ _ _ Hcan) as Hinit.
    assert (Hd : (render k (init' ++ [c']) == render k ((init' ++ [c']) ++ [c]))
                 = false)
      by (apply eqb_str_false; now apply render_snoc_differs).
    assert (Hdot : (render k (init' ++ [c']) == ".") = false).
    { apply eqb_str_false. apply render_not_dot; try assumption.
      destruct init'; discriminate. }
    rewrite Hd, Hdot, IH; try assumption.
    + rewrite rev_unit. cbn [chain]. rewrite <- app_assoc.
      cbn [app rev]. now rewrite rev_involutive.
    + rewrite length_app in Hfuel. simpl in Hfuel. lia.
Qed.

Lemma length_sep_join (comps : list str) :
  Forall (fun c => c <> [] /\ ~ In slash c /\ c <> curdir) comps ->
  (length comps <= length (sep_join sep comps))%nat.
Proof.
  induction 1 as [|c comps (Hc & _) _ IH]; [simpl; lia|].
  destruct comps as [|d comps].
  - destruct c; [congruence | simpl; lia].
  - rewrite sep_join_cons by discriminate. rewrite !length_app.
    destruct c; [congruence|]. simpl in *. lia.
Qed.

Lemma length_render (k : nat) (comps : list str) :
  canonical k comps -> comps <> [] ->
  (length comps <= length (render k comps))%nat.
Proof.
  intros Hcan Hne. rewrite render_body by assumption.
  rewrite length_app.
  pose proof (length_sep_join comps (canonical_forall _ _ Hcan)). lia.
Qed.

(** [parents] of a constructed path returns within its fuel. *)
Lemma parents_render (k : nat) (init : list str) (c : str) :
  (k <= 2)%nat -> canonical k (init ++ [c]) ->
  FlexPath.parents (render k (init ++ [c])) = Some (chain k (rev init)).
Proof.
  intros Hk Hcan. unfold FlexPath.parents.
  rewrite parents_loop_render with (res := []); try assumption; [reflexivity|].
  pose proof (length_render k (init ++ [c]) Hcan) as Hl.
  rewrite length_app in Hl. simpl in Hl.
  assert (init ++ [c] <> []) by (destruct init; discriminate).
  specialize (Hl H). lia.
Qed.

Lemma parents_no_components (k : nat) :
  (k <= 2)%nat -> FlexPath.parents (render k []) = Some [].
Proof. intros Hk. destruct k as [|[|[|k]]]; [reflexivity..|lia]. Qed.

Lemma chain_is_parent_chain (k : nat) (init : list str) :
  (k <= 2)%nat ->
  forall c, canonical k (init ++ [c]) ->
            parent_chain (render k (init ++ [c])) (chain k (rev init)).
Proof.
  intros Hk. induction init as [|c' init' IH] using rev_ind; intros c Hcan.
  - cbn [rev chain]. destruct (k =? 0)%nat; cbn [parent_chain]; [exact I|].
    split; [|exact I]. symmetry. now apply (parent_render k []).
  - rewrite rev_unit. cbn [chain parent_chain rev].
    rewrite rev_involutive. split.
    + symmetry. now apply parent_render.
    + apply IH. now apply canonical_init in Hcan.
Qed.

Lemma chain_without_dot (k : nat) (init : list str) :
  (k <= 2)%nat -> canonical k init -> ~ In (lit ".") (chain k (rev init)).
Proof.
  intros Hk. induction init as [|c' init' IH] using rev_ind; intros Hcan.
  - cbn [rev chain].
    destruct k as [|[|[|k]]]; [| | |lia]; cbn; intuition discriminate.
  - rewrite rev_unit. cbn [chain rev]. rewrite rev_involutive.
    intros [H|H].
    + revert H. apply render_not_dot; try assumption.
      destruct init'; discriminate.
    + revert H. apply IH. now apply canonical_init in Hcan.
Qed.

Lemma chain_length (k : nat) (rinit : list str) :
  length (chain k rinit)
  = (length rinit + if (k =? 0)%nat then 0 else 1)%nat.
Proof.
  induction rinit as [|c r IH]; cbn [chain length].
  - destruct (k =? 0)%nat; reflexivity.
  - now rewrite IH.
Qed.

Lemma chain_last (k : nat) (rinit : list str) (d : str) :
  (k =? 0)%nat = false -> last (chain k rinit) d = render k [].
Proof.
  intros Hk. induction rinit as [|c r IH]; cbn [chain].
  - now rewrite Hk.
  - destruct (chain k r) eqn:E; [|exact IH].
    pose proof (chain_length k r) as Hl. rewrite E, Hk in Hl.
    simpl in Hl. lia.
Qed.

Lemma last_cons_default {A} (a d : A) (l : list A) :
  last (a :: l) d = last l a.
Proof.
  revert a d. induction l as [|b l IH]; intros a d; [reflexivity|].
  change (last (a :: b :: l) d) with (last (b :: l) d).
  now rewrite !IH.
Qed.

Lemma chain_stops (k : nat) (init : list str) :
  (k <= 2)%nat ->
  forall c, canonical k (init ++ [c]) ->
    let z := last (chain k (rev init)) (render k (init ++ [c])) in
    FlexPath.parent z = z \/ FlexPath.parent z = ".".
Proof.
  intros Hk. induction init as [|c' init' IH] using rev_ind; intros c Hcan.
  - cbn [rev chain].
    destruct k as [|[|[|k]]]; [| | |lia]; cbn [Nat.eqb last].
    + right. now apply (parent_render 0 []).
    + now left.
    + now right.
  - rewrite rev_unit. cbn [chain rev]. rewrite rev_involutive.
    rewrite last_cons_default. apply IH. now apply canonical_init in Hcan.
Qed.

Lemma parts_render (k : nat) (comps : list str) :
  (k <= 2)%nat -> canonical k comps ->
  FlexPath.parts (render k comps)
  = if (k =? 0)%nat
    then (if is_empty comps then [lit "."] else comps)
    else lit "/" :: comps.
Proof.
  intros Hk Hcan. unfold FlexPath.parts, FlexPath._split_parts.
  destruct (comps_of_render k comps Hk Hcan) as (_ & _ & Hne).
  assert (He : (render k comps == "") = false) by now apply eqb_str_false.
  rewrite He.
  case_eqb (render k comps) (lit "/").
  - change (lit "/") with (render 1 []) in E.
    apply render_inj in E; try assumption; [|lia | apply canonical_nil].
    destruct E as (-> & ->). reflexivity.
  - change (startswith "/" (render k comps)) with (isabs (render k comps)).
    rewrite isabs_render by assumption.
    destruct ((k =? 0)%nat && is_empty comps) eqn:Ek.
    + apply andb_prop in Ek. destruct Ek as (Ek & Ec).
      apply Nat.eqb_eq in Ek. apply is_empty_true in Ec. subst.
      reflexivity.
    + destruct (split_render k comps Hk Hcan) as (_ & Hs).
      match goal with
      | |- context [filter ?f ?l] => replace (filter f l) with comps
      end.
      * destruct (k =? 0)%nat; [|reflexivity].
        cbn [andb] in Ek. now rewrite Ek.
      * rewrite <- (Hs Ek) at 1. apply filter_ext.
        intros [|a c]; reflexivity.
Qed.

(** X2: [parents] of a constructed path returns; the list starts with the
    parent of the path, every further entry is the parent of the entry
    before it, the relative marker is never an entry, and the walk is
    complete: the parent of the last entry (of the path itself when there
    is no entry) is that entry again or the relative marker. *)
Theorem parents_walk_up (x : str) :
  exists l,
    FlexPath.parents (FlexPath.__new__ x) = Some l /\
    parent_chain (FlexPath.__new__ x) l /\
    ~ In (lit ".") l /\
    (FlexPath.parent (last l (FlexPath.__new__ x))
       = last l (FlexPath.__new__ x)
     \/ FlexPath.parent (last l (FlexPath.__new__ x)) = ".").
Proof.
  destruct (new_cases x) as [H|(k & comps & Hk & Hcan & Hp)].
  { rewrite H. exists []. repeat split; auto. }
  rewrite Hp. destruct comps as [|c init] using rev_ind.
  - exists []. rewrite parents_no_components by assumption.
    split; [reflexivity|]. split; [exact I|]. split; [tauto|].
    destruct k as [|[|[|k]]]; [| | |lia]; cbn [last]; auto.
  - exists (chain k (rev init)).
    split; [now apply parents_render|].
    split; [now apply chain_is_parent_chain|].
    split; [apply chain_without_dot; [assumption|];
            now apply canonical_init in Hcan|].
    now apply chain_stops.
Qed.

(** X3: for every constructed path other than the empty one, [parts] has
    exactly one element more than [parents] has entries; for the empty path
    both are empty; and for an absolute path other than the root, not under
    the double-slash root, the last entry of [parents] is the root. *)
Theorem parents_count (x : str) :
  exists l,
    FlexPath.parents (FlexPath.__new__ x) = Some l /\
    (if FlexPath.__new__ x == ""
     then l = [] /\ FlexPath.parts (FlexPath.__new__ x) = []
     else length (FlexPath.parts (FlexPath.__new__ x)) = S (length l)) /\
    (FlexPath.is_absolute (FlexPath.__new__ x) = true ->
     (FlexPath.__new__ x == "/") = false ->
     startswith "//" (FlexPath.__new__ x) = false ->
     last l (lit "") = "/").
Proof.
  destruct (new_cases x) as [H|(k & comps & Hk & Hcan & Hp)].
  { rewrite H. exists []. split; [reflexivity|].
    split; [split; reflexivity | discriminate]. }
  rewrite Hp.
  assert (Hne : (render k comps == "") = false).
  { apply eqb_str_false. now apply comps_of_render. }
  rewrite Hne. destruct comps as [|c init] using rev_ind.
  - exists []. rewrite parents_no_components by assumption.
    split; [reflexivity|]. rewrite parts_render by assumption.
    split; [destruct (k =? 0)%nat; reflexivity|].
    destruct k as [|[|[|k]]]; [| | |lia]; discriminate.
  - exists (chain k (rev init)).
    split; [now apply parents_render|].
    rewrite parts_render, chain_length, length_rev by assumption.
    split.
    + assert (He : is_empty (init ++ [c]) = false)
        by (destruct init; reflexivity).
      rewrite He. destruct (k =? 0)%nat; cbn [length];
        rewrite length_app; simpl; lia.
    + unfold FlexPath.is_absolute. rewrite isabs_render by assumption.
      intros Habs _ Hroot.
      destruct k as [|[|[|k]]]; [discriminate | | |lia].
      * now apply chain_last.
      * rewrite render_front in Hroot by assumption. discriminate.
Qed.

Lemma parents_count_witness :
  exists l,
    FlexPath.parents (FlexPath.__new__ "/home/user/docs/file.txt") = Some l /\
    length (FlexPath.parts (FlexPath.__new__ "/home/user/docs/file.txt"))
    = S (length l) /\
    last l (lit "") = "/".
Proof.
  destruct (parents_count "/home/user/docs/file.txt") as (l & H1 & H2 & H3).
  exists l. split; [exact H1|]. split; [exact H2|].
  apply H3; reflexivity.
Defined.

Example parents_scenario :
  FlexPath.parents (FlexPath.__new__ "/home/user/docs/file.txt")
  = Some [lit "/home/user/docs"; lit "/home/user"; lit "/home"; lit "/"]
  /\ FlexPath.parents (FlexPath.__new__ "a/b/c") = Some [lit "a/b"; lit "a"].
Proof. split; reflexivity. Qed.

(** ** Parts and the anchor *)

Lemma join_plain_from (p : list str) :
  Forall (fun c => c <> [] /\ ~ In slash c /\ c <> curdir) p ->
  forall acc, (exists acc' x, acc = acc' ++ [x] /\ x <> slash) ->
              join acc p = acc ++ concat (map (fun c => sep ++ c) p).
Proof.
  induction 1 as [|b p Hb _ IH]; intros acc (acc' & x & Hacc & Hx).
  - cbn. now rewrite app_nil_r.
  - destruct Hb as (Hne & Hsl & _).
    destruct (last_char_clean b Hne Hsl) as (b' & y & Hbe & Hy).
    assert (Hstep : join_step acc b = acc ++ sep ++ b).
    { unfold join_step.
      destruct b as [|z b]; [congruence|].
      rewrite startswith_sep_other by (intros ->; apply Hsl; now left).
      rewrite Hacc, endswith_sep_snoc.
      destruct (Ascii.eqb_spec slash x); [now subst x|].
      destruct acc'; reflexivity. }
    cbn [join fold_left map concat]. rewrite Hstep.
    change (fold_left join_step p (acc ++ sep ++ b))
      with (join (acc ++ sep ++ b) p).
    rewrite IH.
    + now rewrite <- !app_assoc.
    + exists (acc ++ sep ++ b'), y. rewrite Hbe. split; [|assumption].
      now rewrite <- !app_assoc.
Qed.

(** Joining components gives their text under the same root. *)
Lemma join_components (k : nat) (comps : list str) :
  (k <= 1)%nat -> canonical k comps -> (k =? 0)%nat && is_empty comps = false ->
  match (if (k =? 0)%nat then comps else lit "/" :: comps) with
  | [] => lit ""
  | a :: r => join a r
  end = render k comps.
Proof.
  intros Hk Hcan Hne. pose proof (canonical_forall _ _ Hcan) as Hall.
  destruct comps as [|c comps].
  - destruct k as [|[|k]]; [discriminate | reflexivity | lia].
  - rewrite render_body by (assumption || discriminate).
    inversion Hall as [|? ? (Hc & Hsl & _) Hrest]; subst.
    destruct (last_char_clean c Hc Hsl) as (c' & y & Hce & Hy).
    destruct k as [|[|k]]; [| |lia]; cbn [Nat.eqb negb seps repeat app].
    + rewrite sep_join_concat. apply join_plain_from; [assumption|].
      now exists c', y.
    + cbn [join fold_left].
      assert (Hstep : join_step "/" c = slash :: c).
      { unfold join_step. destruct c as [|z c]; [congruence|].
        now rewrite startswith_sep_other
          by (intros ->; apply Hsl; now left). }
      rewrite Hstep. change (fold_left join_step comps (slash :: c))
        with (join (slash :: c) comps).
      rewrite sep_join_concat, join_plain_from; [reflexivity | assumption|].
      exists (slash :: c'), y. now rewrite Hce.
Qed.

Lemma not_double_slash (k : nat) (comps : list str) :
  (k <= 2)%nat -> canonical k comps ->
  startswith "//" (render k comps) = false -> (k <= 1)%nat.
Proof.
  intros Hk Hcan H. destruct k as [|[|[|k]]]; [lia | lia | | lia].
  exfalso. unfold render in H. cbn [Nat.eqb negb seps repeat app is_empty] in H.
  discriminate.
Qed.

(** X4: a constructed path is rebuilt from its parts: for every path other
    than the empty one and those under the double-slash root, [parts] is
    not empty and joining its elements constructs the path again. *)
Theorem parts_rebuild (x : str) :
  (FlexPath.__new__ x == "") = false ->
  startswith "//" (FlexPath.__new__ x) = false ->
  exists a r,
    FlexPath.parts (FlexPath.__new__ x) = a :: r /\
    FlexPath.__new__ (join a r) = FlexPath.__new__ x.
Proof.
  intros H0 H2. apply eqb_str_false in H0.
  destruct (new_cases x) as [H|(k & comps & Hk & Hcan & Hp)]; [now elim H0|].
  rewrite Hp in *. pose proof (not_double_slash k comps Hk Hcan H2) as Hk1.
  rewrite parts_render by assumption.
  destruct ((k =? 0)%nat && is_empty comps) eqn:E.
  - apply andb_prop in E. destruct E as (Ek & Ec).
    apply Nat.eqb_eq in Ek. apply is_empty_true in Ec. subst.
    exists (lit "."), []. split; reflexivity.
  - pose proof (join_components k comps Hk1 Hcan E) as Hj.
    destruct (k =? 0)%nat eqn:Ek.
    + cbn [andb] in E. rewrite E. destruct comps as [|c comps]; [discriminate|].
      exists c, comps. split; [reflexivity|].
      rewrite Hj. now apply render_fixed_new.
    + exists (lit "/"), comps. split; [reflexivity|].
      rewrite Hj. now apply render_fixed_new.
Qed.

Lemma parts_rebuild_witness :
  exists a r,
    FlexPath.parts (FlexPath.__new__ "/home//user/./docs") = a :: r /\
    FlexPath.__new__ (join a r) = FlexPath.__new__ "/home//user/./docs".
Proof. apply (parts_rebuild "/home//user/./docs"); reflexivity. Defined.

(** X5: the name of a constructed path is the last of its parts (the empty
    text when there is none), for every path but the double-slash root. *)
Theorem name_is_last_part (x : str) :
  (FlexPath.__new__ x == "//") = false ->
  FlexPath.name (FlexPath.__new__ x)
  = last (FlexPath.parts (FlexPath.__new__ x)) (lit "").
Proof.
  intros H2. apply eqb_str_false in H2.
  destruct (new_cases x) as [H|(k & comps & Hk & Hcan & Hp)];
    [rewrite H; reflexivity|].
  rewrite Hp in *. rewrite parts_render by assumption.
  destruct comps as [|c init] using rev_ind.
  - destruct k as [|[|[|k]]]; [reflexivity | reflexivity | now elim H2 | lia].
  - rewrite name_render by assumption.
    assert (He : is_empty (init ++ [c]) = false)
      by (destruct init; reflexivity).
    rewrite He. destruct (k =? 0)%nat.
    + now rewrite last_last.
    + rewrite app_comm_cons. now rewrite last_last.
Qed.

Lemma name_is_last_part_witness :
  FlexPath.name (FlexPath.__new__ "/home/user/file.txt")
  = last (FlexPath.parts (FlexPath.__new__ "/home/user/file.txt")) (lit "").
Proof. apply (name_is_last_part "/home/user/file.txt"); reflexivity. Defined.

(** X6: construction keeps the anchor: the constructed path is absolute
    exactly when the input text starts with a slash, and then [anchor] and
    [root] are the slash and the first of [parts] is the slash. *)
Theorem new_keeps_anchor (x : str) :
  FlexPath.is_absolute (FlexPath.__new__ x) = startswith "/" x /\
  (startswith "/" x = true ->
   FlexPath.anchor (FlexPath.__new__ x) = "/" /\
   FlexPath.root (FlexPath.__new__ x) = "/" /\
   hd (lit "") (FlexPath.parts (FlexPath.__new__ x)) = "/").
Proof.
  assert (Habs : FlexPath.is_absolute (FlexPath.__new__ x) = startswith "/" x).
  { destruct x as [|a x]; [reflexivity|].
    rewrite new_render by discriminate. unfold FlexPath.is_absolute.
    rewrite isabs_render;
      [|apply initial_slashes_range | apply comps_of_canonical].
    apply initial_slashes_prefix. }
  split; [exact Habs|]. intros Hx.
  unfold FlexPath.anchor, FlexPath.root.
  change (FlexPath._is_abs (FlexPath.__new__ x))
    with (FlexPath.is_absolute (FlexPath.__new__ x)).
  rewrite Habs, Hx. split; [reflexivity|]. split; [reflexivity|].
  destruct x as [|a x]; [discriminate|].
  rewrite new_render by discriminate.
  rewrite parts_render;
    [|apply initial_slashes_range | apply comps_of_canonical].
  destruct (initial_slashes_prefix (a :: x)) as (_ & Hk).
  rewrite Hx in Hk. destruct (initial_slashes (a :: x) =? 0)%nat;
    [discriminate | reflexivity].
Qed.

Lemma new_keeps_anchor_witness :
  FlexPath.anchor (FlexPath.__new__ "/home//user") = "/" /\
  FlexPath.root (FlexPath.__new__ "/home//user") = "/" /\
  hd (lit "") (FlexPath.parts (FlexPath.__new__ "/home//user")) = "/".
Proof. apply (proj2 (new_keeps_anchor "/home//user")). reflexivity. Defined.

(** ** Texts that construct the same path *)

Lemma has_other_char (a : str) :
  forallb (Ascii.eqb slash) a = false -> exists ch, In ch a /\ ch <> slash.
Proof.
  induction a as [|x a IH]; [discriminate|]. cbn [forallb].
  destruct (Ascii.eqb_spec slash x) as [<-|Hx]; cbn [andb].
  - intros H. destruct (IH H) as (ch & Hin & Hch).
    exists ch. split; [now right | assumption].
  - intros _. exists x. split; [now left | congruence].
Qed.

(** Two non-empty texts with the same leading slashes whose pieces drive the
    loop of [normpath] to the same components construct the same path. *)
Lemma new_same_components (t1 t2 : str) :
  t1 <> [] -> t2 <> [] ->
  initial_slashes t1 = initial_slashes t2 ->
  (forall k, fold_left (normpath_step k) (split slash t1) []
             = fold_left (normpath_step k) (split slash t2) []) ->
  FlexPath.__new__ t1 = FlexPath.__new__ t2.
Proof.
  intros H1 H2 Hi Hc. rewrite !new_render by assumption.
  unfold comps_of. now rewrite Hi, Hc.
Qed.

Lemma normpath_step_cancel (k : nat) (acc : list str) (c : str) :
  named c -> normpath_step k (normpath_step k acc c) pardir = acc.
Proof.
  intros Hc. rewrite (normpath_step_named k acc c) by assumption.
  destruct Hc as (_ & _ & _ & Hp).
  unfold normpath_step. cbn [orb].
  change (pardir == empty) with false. change (pardir == curdir) with false.
  rewrite eqb_str_refl. cbn [negb orb].
  assert (He : is_empty (acc ++ [c]) = false) by (destruct acc; reflexivity).
  rewrite He, last_last, andb_false_r. cbn [negb andb orb].
  apply eqb_str_false in Hp. rewrite Hp. apply removelast_last.
Qed.

(** X7: redundant segments do not matter: after a text [a] that is not made
    of slashes only, a doubled separator or a [.] segment can be dropped,
    and a named segment followed by [..] cancels. *)
Theorem redundant_segments_dropped (a b c : str) :
  forallb (Ascii.eqb slash) a = false ->
  FlexPath.__new__ (a ++ lit "//" ++ b) = FlexPath.__new__ (a ++ lit "/" ++ b)
  /\ FlexPath.__new__ (a ++ lit "/./" ++ b)
     = FlexPath.__new__ (a ++ lit "/" ++ b)
  /\ ((c == "") = false -> contains slash c = false ->
      (c == ".") = false -> (c == "..") = false ->
      FlexPath.__new__ (a ++ lit "/" ++ c ++ lit "/../" ++ b)
      = FlexPath.__new__ (a ++ lit "/" ++ b)).
Proof.
  intros Ha. apply has_other_char in Ha.
  assert (Hne : a <> []) by (destruct Ha as (ch & Hin & _); now destruct a).
  assert (Hnew : forall t u,
            (forall k acc,
                fold_left (normpath_step k) (split slash t) acc
                = fold_left (normpath_step k) (split slash u) acc) ->
            FlexPath.__new__ (a ++ slash :: t)
            = FlexPath.__new__ (a ++ slash :: u)).
  { intros t u H. apply new_same_components.
    - destruct a; discriminate.
    - destruct a; discriminate.
    - rewrite !initial_slashes_app; auto.
    - intros k. rewrite !split_app_sep, !fold_left_app. apply H. }
  split; [|split].
  - apply (Hnew (slash :: b) b). intros k acc. reflexivity.
  - apply (Hnew ("."%char :: slash :: b) b). intros k acc. reflexivity.
  - intros H1 H2 H3 H4.
    assert (Hc : named c).
    { repeat split; [now apply eqb_str_false | now apply contains_false
                    | now apply eqb_str_false | now apply eqb_str_false]. }
    change (a ++ lit "/" ++ c ++ lit "/../" ++ b)
      with (a ++ slash :: (c ++ slash :: (pardir ++ slash :: b))).
    apply (Hnew (c ++ slash :: (pardir ++ slash :: b)) b). intros k acc.
    rewrite !split_app_sep, !fold_left_app.
    rewrite (split_absent slash c) by (destruct Hc; tauto).
    cbn [fold_left]. change (split slash pardir) with [pardir].
    cbn [fold_left]. now rewrite normpath_step_cancel.
Qed.

Lemma redundant_segments_dropped_witness :
  FlexPath.__new__ (lit "/home" ++ lit "/" ++ lit "docs" ++ lit "/../"
                      ++ lit "files")
  = FlexPath.__new__ (lit "/home" ++ lit "/" ++ lit "files").
Proof.
  apply (proj2 (proj2 (redundant_segments_dropped "/home" "files" "docs"
                         eq_refl))); reflexivity.
Defined.

(** ** Replacing the stem or the suffix *)

Lemma stem_app_suffix (p : str) :
  FlexPath.stem p ++ FlexPath.suffix p = FlexPath.name p.
Proof.
  unfold FlexPath.stem, FlexPath.suffix.
  destruct (is_empty (FlexPath.name p) || (FlexPath.name p == "/"));
    [apply app_nil_r|].
  destruct (rfind FlexPath.dotc (FlexPath.name p) <=? 0);
    [apply app_nil_r | apply slice_to_from].
Qed.

Lemma stem_not_empty (p : str) :
  FlexPath.name p <> [] -> FlexPath.stem p <> [].
Proof.
  intros Hn Hs. destruct (is_empty (FlexPath.suffix p)) eqn:E.
  - apply is_empty_true in E. pose proof (stem_app_suffix p) as H.
    rewrite Hs, E in H. now apply Hn.
  - destruct (suffix_shape p E) as (pre & post & _ & Hpre & _ & _ & Hst).
    congruence.
Qed.

Lemma stem_within_name (p : str) (ch : ascii) :
  In ch (FlexPath.stem p) -> In ch (FlexPath.name p).
Proof.
  intros H. rewrite <- stem_app_suffix. apply in_or_app. now left.
Qed.

Lemma suffix_within_name (p : str) (ch : ascii) :
  In ch (FlexPath.suffix p) -> In ch (FlexPath.name p).
Proof.
  intros H. rewrite <- stem_app_suffix. apply in_or_app. now right.
Qed.

(** The suffix and the stem of a name that ends in a dot-group. *)
Lemma suffix_stem_of_dotted (p st t : str) :
  FlexPath.name p = st ++ FlexPath.dotc :: t ->
  st <> [] -> ~ In FlexPath.dotc t ->
  FlexPath.suffix p = FlexPath.dotc :: t /\ FlexPath.stem p = st.
Proof.
  intros Hn Hst Ht. unfold FlexPath.suffix, FlexPath.stem. rewrite Hn.
  assert (Hr : rfind FlexPath.dotc (st ++ FlexPath.dotc :: t) = len st)
    by now apply rfind_last_occurrence.
  assert (Hroot : (st ++ FlexPath.dotc :: t == "/") = false).
  { apply eqb_str_false. intros H. apply (f_equal (@length _)) in H.
    rewrite length_app in H. destruct st; [congruence | simpl in H; lia]. }
  assert (Hne : is_empty (st ++ FlexPath.dotc :: t) = false)
    by (destruct st; reflexivity).
  assert (Hpos : (len st <=? 0) = false).
  { apply Z.leb_gt. destruct st; [congruence|]. rewrite len_cons.
    pose proof (len_nonneg st). lia. }
  rewrite Hr, Hroot, Hne, Hpos. cbn [orb].
  now rewrite slice_from_app, slice_to_app.
Qed.

Lemma base_of_name (B c : str) :
  c <> [] ->
  (if negb (len c =? len (B ++ c)) then slice_to (- len c) (B ++ c)
   else lit "") = B.
Proof.
  intros Hne. destruct (len c =? len (B ++ c)) eqn:E; cbn [negb].
  - apply Z.eqb_eq in E. rewrite len_app in E.
    assert (len B = 0) by lia. destruct B; [reflexivity|].
    rewrite len_cons in *. pose proof (len_nonneg B). lia.
  - now apply slice_to_neg_len.
Qed.

Lemma name_guard (c : str) :
  c <> [] -> ~ In slash c -> (c == "") || (c == "/") = false.
Proof.
  intros Hne Hsl. apply orb_false_iff. split; apply eqb_str_false.
  - assumption.
  - intros ->. apply Hsl. now left.
Qed.

(** [with_suffix] and [with_stem] on a text with a last component. *)
Lemma with_suffix_text (B c s : str) :
  c <> [] -> ~ In slash c -> (B = [] \/ exists B', B = B' ++ [slash]) ->
  negb (is_empty s) && negb (startswith "." s) = false ->
  FlexPath.with_suffix (B ++ c) s
  = Ok (FlexPath.__new__ (B ++ FlexPath.stem (B ++ c) ++ s)).
Proof.
  intros Hne Hsl HB Hs. unfold FlexPath.with_suffix, FlexPath.stem.
  rewrite Hs, (name_of_last B c Hne Hsl HB), (name_guard c Hne Hsl).
  rewrite base_of_name by assumption.
  assert (He : is_empty c || (c == "/") = false).
  { pose proof (name_guard c Hne Hsl) as Hg. apply orb_false_iff in Hg.
    destruct c; [congruence|]. cbn [is_empty orb]. tauto. }
  rewrite He. unfold FlexPath._wrap.
  destruct (rfind FlexPath.dotc c <=? 0); reflexivity.
Qed.

Lemma with_stem_text (B c st : str) :
  c <> [] -> ~ In slash c -> (B = [] \/ exists B', B = B' ++ [slash]) ->
  contains slash st || (st == "") = false ->
  FlexPath.with_stem (B ++ c) st
  = Ok (FlexPath.__new__ (B ++ st ++ FlexPath.suffix (B ++ c))).
Proof.
  intros Hne Hsl HB Hs. unfold FlexPath.with_stem.
  rewrite Hs, (name_of_last B c Hne Hsl HB), (name_guard c Hne Hsl).
  now rewrite base_of_name by assumption.
Qed.

(** A constructed path with a name is a front [B] and a last component [c];
    putting a named component in the place of [c] gives a constructed path
    with the same parent. *)
Lemma last_component_slot (x : str) :
  FlexPath.__new__ x <> "" -> FlexPath.__new__ x <> "/" ->
  FlexPath.__new__ x <> "//" ->
  exists B c,
    FlexPath.__new__ x = B ++ c /\ c <> [] /\ ~ In slash c /\
    (B = [] \/ exists B', B = B' ++ [slash]) /\
    forall c', named c' ->
               FlexPath.__new__ (B ++ c') = B ++ c' /\
               FlexPath.parent (B ++ c')
               = FlexPath.parent (FlexPath.__new__ x).
Proof.
  intros H0 H1 H2.
  destruct (new_cases x) as [H|(k & comps & Hk & Hcan & Hp)]; [now elim H0|].
  rewrite Hp in *. destruct comps as [|c init] using rev_ind.
  - destruct k as [|[|[|k]]]; [| now elim H1 | now elim H2 | lia].
    exists [], (lit "."). split; [reflexivity|].
    split; [discriminate|]. split; [cbn; intuition discriminate|].
    split; [now left|]. intros c' Hc'. cbn [app]. split.
    + now apply new_named.
    + destruct Hc' as (_ & Hsl & _).
      rewrite parent_no_slash by now apply contains_false. reflexivity.
  - clear IHinit. destruct (canonical_last _ _ _ Hcan) as (Hne & Hsl & _).
    pose proof (canonical_init _ _ _ Hcan) as Hinit.
    exists (front k init), c. split; [now apply render_front|].
    split; [assumption|]. split; [assumption|].
    split; [now apply front_shape|]. intros c' Hc'.
    pose proof (canonical_snoc k init c' Hinit Hc') as Hcan'.
    rewrite <- render_front by assumption. split.
    + now apply render_fixed_new.
    + now rewrite !parent_render.
Qed.

Lemma new_not_three (x : str) :
  (FlexPath.__new__ x == "") = false ->
  (FlexPath.__new__ x == "/") = false ->
  (FlexPath.__new__ x == "//") = false ->
  FlexPath.__new__ x <> "" /\ FlexPath.__new__ x <> "/"
  /\ FlexPath.__new__ x <> "//".
Proof. intros H0 H1 H2. repeat split; now apply eqb_str_false. Qed.

(** X8: [with_stem] round-trips with [stem]: for every constructed path
    other than the empty path, the root and the double-slash root, putting
    the path's own stem back gives the path. *)
Theorem with_stem_roundtrip (x : str) :
  (FlexPath.__new__ x == "") = false ->
  (FlexPath.__new__ x == "/") = false ->
  (FlexPath.__new__ x == "//") = false ->
  FlexPath.with_stem (FlexPath.__new__ x) (FlexPath.stem (FlexPath.__new__ x))
  = Ok (FlexPath.__new__ x).
Proof.
  intros H0 H1 H2.
  destruct (new_not_three x H0 H1 H2) as (N0 & N1 & N2).
  destruct (last_component_slot x N0 N1 N2)
    as (B & c & Hp & Hne & Hsl & HB & _).
  rewrite <- (new_fixed x) at 3. rewrite Hp.
  pose proof (name_of_last B c Hne Hsl HB) as Hn.
  rewrite with_stem_text; try assumption.
  - now rewrite stem_app_suffix, Hn.
  - apply orb_false_iff. split.
    + apply contains_false. intros Hin. apply Hsl. rewrite <- Hn.
      now apply stem_within_name.
    + apply eqb_str_false. apply stem_not_empty. now rewrite Hn.
Qed.

Lemma with_stem_roundtrip_witness :
  FlexPath.with_stem (FlexPath.__new__ "/home/user/archive.tar.gz")
    (FlexPath.stem (FlexPath.__new__ "/home/user/archive.tar.gz"))
  = Ok (FlexPath.__new__ "/home/user/archive.tar.gz").
Proof. apply (with_stem_roundtrip "/home/user/archive.tar.gz"); reflexivity. Defined.

Lemma not_dot_names (st t : str) :
  st <> [] -> (t <> [] \/ st <> ".") ->
  st ++ FlexPath.dotc :: t <> curdir /\ st ++ FlexPath.dotc :: t <> pardir.
Proof.
  intros Hst Ht. split; intros H.
  - apply (f_equal (@length _)) in H. rewrite length_app in H.
    destruct st; [congruence | simpl in H; lia].
  - destruct st as [|a [|b st]]; [congruence | |].
    + destruct t; [|discriminate]. injection H as ->.
      destruct Ht as [Ht|Ht]; now elim Ht.
    + apply (f_equal (@length _)) in H. rewrite length_app in H.
      simpl in H. lia.
Qed.

(** X9: [with_suffix] sets the suffix: for a constructed path with a name
    and a new suffix made of a dot and a non-empty text without dot or
    slash, the result's name is the old stem followed by the new suffix,
    its suffix is the new one, and its stem and parent are unchanged. *)
Theorem with_suffix_sets_suffix (x t : str) :
  (FlexPath.__new__ x == "") = false ->
  (FlexPath.__new__ x == "/") = false ->
  (FlexPath.__new__ x == "//") = false ->
  is_empty t = false ->
  contains FlexPath.dotc t = false -> contains slash t = false ->
  exists r,
    FlexPath.with_suffix (FlexPath.__new__ x) (FlexPath.dotc :: t) = Ok r /\
    FlexPath.name r = FlexPath.stem (FlexPath.__new__ x) ++ FlexPath.dotc :: t /\
    FlexPath.suffix r = FlexPath.dotc :: t /\
    FlexPath.stem r = FlexPath.stem (FlexPath.__new__ x) /\
    FlexPath.parent r = FlexPath.parent (FlexPath.__new__ x).
Proof.
  intros H0 H1 H2 Ht Hdot Hslash.
  apply is_empty_false in Ht. apply contains_false in Hdot, Hslash.
  destruct (new_not_three x H0 H1 H2) as (N0 & N1 & N2).
  destruct (last_component_slot x N0 N1 N2)
    as (B & c & Hp & Hne & Hsl & HB & Hslot).
  pose proof (name_of_last B c Hne Hsl HB) as Hn.
  rewrite Hp in *. set (st := FlexPath.stem (B ++ c)) in *.
  assert (Hst : st <> []) by (apply stem_not_empty; now rewrite Hn).
  assert (Hsts : ~ In slash st).
  { intros Hin. apply Hsl. rewrite <- Hn. now apply stem_within_name. }
  assert (Hc' : named (st ++ FlexPath.dotc :: t)).
  { destruct (not_dot_names st t Hst (or_introl Ht)) as (Hd1 & Hd2).
    repeat split; try assumption.
    - destruct st; discriminate.
    - intros Hin. apply in_app_or in Hin.
      destruct Hin as [Hin|[Hin|Hin]]; [tauto | discriminate | tauto]. }
  destruct (Hslot _ Hc') as (Hfix & Hpar).
  exists (B ++ st ++ FlexPath.dotc :: t).
  rewrite with_suffix_text by (assumption || reflexivity).
  fold st. rewrite Hfix.
  assert (Hname : FlexPath.name (B ++ st ++ FlexPath.dotc :: t)
                  = st ++ FlexPath.dotc :: t).
  { destruct Hc' as (Hc1 & Hc2 & _). now apply name_of_last. }
  destruct (suffix_stem_of_dotted _ st t Hname Hst Hdot) as (Hsu & Hstem).
  repeat split; assumption.
Qed.

Lemma with_suffix_sets_suffix_witness :
  exists r,
    FlexPath.with_suffix (FlexPath.__new__ "/home/user/file.txt") ".py"
    = Ok r /\
    FlexPath.name r = FlexPath.stem (FlexPath.__new__ "/home/user/file.txt")
                        ++ lit ".py" /\
    FlexPath.suffix r = ".py" /\
    FlexPath.stem r = FlexPath.stem (FlexPath.__new__ "/home/user/file.txt") /\
    FlexPath.parent r = FlexPath.parent (FlexPath.__new__ "/home/user/file.txt").
Proof.
  apply (with_suffix_sets_suffix "/home/user/file.txt" "py"); reflexivity.
Defined.

(** X10: [with_stem] replaces the stem and keeps the suffix: for a
    constructed path with a non-empty suffix and a new stem that is not
    empty, has no slash and is not ["."], the result's name is the new stem
    followed by the old suffix, its stem is the new one, and its suffix and
    parent are unchanged. *)
Theorem with_stem_keeps_suffix (x st : str) :
  is_empty (FlexPath.suffix (FlexPath.__new__ x)) = false ->
  (st == "") = false -> contains slash st = false -> (st == ".") = false ->
  exists r,
    FlexPath.with_stem (FlexPath.__new__ x) st = Ok r /\
    FlexPath.name r = st ++ FlexPath.suffix (FlexPath.__new__ x) /\
    FlexPath.stem r = st /\
    FlexPath.suffix r = FlexPath.suffix (FlexPath.__new__ x) /\
    FlexPath.parent r = FlexPath.parent (FlexPath.__new__ x).
Proof.
  intros Hsuf Hst Hslash Hdot.
  assert (N : FlexPath.__new__ x <> "" /\ FlexPath.__new__ x <> "/"
              /\ FlexPath.__new__ x <> "//").
  { repeat split; intros H; rewrite H in Hsuf; discriminate. }
  destruct N as (N0 & N1 & N2).
  destruct (last_component_slot x N0 N1 N2)
    as (B & c & Hp & Hne & Hsl & HB & Hslot).
  pose proof (name_of_last B c Hne Hsl HB) as Hn.
  rewrite Hp in *.
  destruct (suffix_shape _ Hsuf) as (pre & post & Hname & _ & Hpost & Hsu & _).
  apply eqb_str_false in Hst, Hdot. apply contains_false in Hslash.
  assert (Hposts : ~ In slash post).
  { intros Hin. apply Hsl. rewrite <- Hn, Hname. apply in_or_app.
    right. now right. }
  assert (Hc' : named (st ++ FlexPath.dotc :: post)).
  { destruct (not_dot_names st post Hst (or_intror Hdot)) as (Hd1 & Hd2).
    repeat split; try assumption.
    - destruct st; discriminate.
    - intros Hin. apply in_app_or in Hin.
      destruct Hin as [Hin|[Hin|Hin]]; [tauto | discriminate | tauto]. }
  destruct (Hslot _ Hc') as (Hfix & Hpar).
  exists (B ++ st ++ FlexPath.dotc :: post).
  rewrite with_stem_text; try assumption.
  - rewrite Hsu, Hfix.
    assert (Hnm : FlexPath.name (B ++ st ++ FlexPath.dotc :: post)
                  = st ++ FlexPath.dotc :: post).
    { destruct Hc' as (Hc1 & Hc2 & _). now apply name_of_last. }
    destruct (suffix_stem_of_dotted _ st post Hnm Hst Hpost) as (Hs1 & Hs2).
    repeat split; assumption.
  - apply orb_false_iff. split;
      [now apply contains_false | now apply eqb_str_false].
Qed.

Lemma with_stem_keeps_suffix_witness :
  exists r,
    FlexPath.with_stem (FlexPath.__new__ "/home/user/file.txt") "newfile"
    = Ok r /\
    FlexPath.name r = lit "newfile"
                        ++ FlexPath.suffix (FlexPath.__new__ "/home/user/file.txt") /\
    FlexPath.stem r = "newfile" /\
    FlexPath.suffix r = FlexPath.suffix (FlexPath.__new__ "/home/user/file.txt") /\
    FlexPath.parent r = FlexPath.parent (FlexPath.__new__ "/home/user/file.txt").
Proof.
  apply (with_stem_keeps_suffix "/home/user/file.txt" "newfile"); reflexivity.
Defined.

(** X11: [with_suffix] with the empty suffix removes the suffix: for a
    constructed path with a name whose stem is neither ["."] nor [".."],
    the result's name is the old stem and its parent is unchanged. *)
Theorem with_suffix_removes_suffix (x : str) :
  (FlexPath.__new__ x == "") = false ->
  (FlexPath.__new__ x == "/") = false ->
  (FlexPath.__new__ x == "//") = false ->
  (FlexPath.stem (FlexPath.__new__ x) == ".") = false ->
  (FlexPath.stem (FlexPath.__new__ x) == "..") = false ->
  exists r,
    FlexPath.with_suffix (FlexPath.__new__ x) "" = Ok r /\
    FlexPath.name r = FlexPath.stem (FlexPath.__new__ x) /\
    FlexPath.parent r = FlexPath.parent (FlexPath.__new__ x).
Proof.
  intros H0 H1 H2 Hd1 Hd2.
  destruct (new_not_three x H0 H1 H2) as (N0 & N1 & N2).
  destruct (last_component_slot x N0 N1 N2)
    as (B & c & Hp & Hne & Hsl & HB & Hslot).
  pose proof (name_of_last B c Hne Hsl HB) as Hn.
  rewrite Hp in *. set (st := FlexPath.stem (B ++ c)) in *.
  apply eqb_str_false in Hd1, Hd2.
  assert (Hc' : named st).
  { repeat split; try assumption.
    - apply stem_not_empty. now rewrite Hn.
    - intros Hin. apply Hsl. rewrite <- Hn. now apply stem_within_name. }
  destruct (Hslot _ Hc') as (Hfix & Hpar).
  exists (B ++ st).
  rewrite with_suffix_text by (assumption || reflexivity).
  fold st. cbn [lit list_ascii_of_string]. rewrite app_nil_r, Hfix.
  split; [reflexivity|]. split; [|assumption].
  destruct Hc' as (Hc1 & Hc2 & _). now apply name_of_last.
Qed.

Lemma with_suffix_removes_suffix_witness :
  exists r,
    FlexPath.with_suffix (FlexPath.__new__ "/home/user/file.txt") "" = Ok r /\
    FlexPath.name r = FlexPath.stem (FlexPath.__new__ "/home/user/file.txt") /\
    FlexPath.parent r = FlexPath.parent (FlexPath.__new__ "/home/user/file.txt").
Proof.
  apply (with_suffix_removes_suffix "/home/user/file.txt"); reflexivity.
Defined.

(** The constructed paths without a name are the empty path, the root and
    the double-slash root. *)
Lemma nameless_paths (x : str) :
  (FlexPath.name (FlexPath.__new__ x) == "")
  || (FlexPath.name (FlexPath.__new__ x) == "/")
  = (FlexPath.__new__ x == "") || (FlexPath.__new__ x == "/")
    || (FlexPath.__new__ x == "//").
Proof.
  case_eqb (FlexPath.__new__ x) (lit ""); [rewrite E; reflexivity|].
  case_eqb (FlexPath.__new__ x) (lit "/"); [rewrite E0; reflexivity|].
  case_eqb (FlexPath.__new__ x) (lit "//"); [rewrite E1; reflexivity|].
  destruct (last_component_slot x E E0 E1)
    as (B & c & Hp & Hne & Hsl & HB & _).
  rewrite Hp, (name_of_last B c Hne Hsl HB). now apply name_guard.
Qed.

(** X12: [with_suffix] and [with_stem] raise exactly when their argument is
    malformed (a non-empty suffix without leading dot; an empty stem or one
    with a slash) or the constructed path is the empty path, the root or
    the double-slash root. *)
Theorem rename_raises (x s : str) :
  raised (FlexPath.with_suffix (FlexPath.__new__ x) s)
  = (negb (is_empty s) && negb (startswith "." s))
    || (FlexPath.__new__ x == "") || (FlexPath.__new__ x == "/")
    || (FlexPath.__new__ x == "//")
  /\ raised (FlexPath.with_stem (FlexPath.__new__ x) s)
     = contains slash s || (s == "")
       || (FlexPath.__new__ x == "") || (FlexPath.__new__ x == "/")
       || (FlexPath.__new__ x == "//").
Proof.
  pose proof (nameless_paths x) as Hn.
  unfold FlexPath.with_suffix, FlexPath.with_stem. split.
  - destruct (negb (is_empty s) && negb (startswith "." s)); [reflexivity|].
    cbn [orb]. rewrite <- Hn.
    destruct ((FlexPath.name (FlexPath.__new__ x) == "")
              || (FlexPath.name (FlexPath.__new__ x) == "/")); reflexivity.
  - destruct (contains slash s || (s == "")); [reflexivity|].
    cbn [orb]. rewrite <- Hn.
    destruct ((FlexPath.name (FlexPath.__new__ x) == "")
              || (FlexPath.name (FlexPath.__new__ x) == "/")); reflexivity.
Qed.

(** ** Joining composes *)

Lemma joinpath_new (x : str) (l : list str) :
  FlexPath.joinpath (FlexPath.__new__ x) l
  = FlexPath.__new__ (join (FlexPath.__new__ x) l).
Proof. destruct l; [symmetry; apply new_fixed | reflexivity]. Qed.

(** X13: joining in two steps is joining once with all the fragments, for
    every base path and all fragments, absolute ones included. *)
Theorem joinpath_composes (x : str) (l1 l2 : list str) :
  FlexPath.joinpath (FlexPath.joinpath (FlexPath.__new__ x) l1) l2
  = FlexPath.joinpath (FlexPath.__new__ x) (l1 ++ l2).
Proof.
  rewrite (joinpath_new x l1), joinpath_new, (joinpath_new x (l1 ++ l2)).
  unfold join at 3. rewrite fold_left_app.
  apply join_congr, new_fixed.
Qed.

(** ** More on [relative_to] *)

Lemma new_isabs (x : str) :
  isabs (FlexPath.__new__ x) = startswith "/" x.
Proof.
  destruct x as [|a x]; [reflexivity|].
  rewrite new_render by discriminate.
  rewrite isabs_render;
    [|apply initial_slashes_range | apply comps_of_canonical].
  apply initial_slashes_prefix.
Qed.

Lemma relative_to_other_anchor (cwd p b : str) :
  isabs (normpath p) <> isabs (normpath b) ->
  FlexPath.relative_to cwd p [b] = Raise IncompatibleAnchors.
Proof.
  intros H. unfold FlexPath.relative_to. cbn [join fold_left].
  destruct (isabs (normpath p)), (isabs (normpath b));
    try reflexivity; now elim H.
Qed.

(** Whether [relative_to] returns, as a condition on the two operands. *)
Lemma relative_to_returns_iff (cwd p b : str) :
  (exists r, FlexPath.relative_to cwd p [b] = Ok r)
  <-> isabs (normpath p) = isabs (normpath b)
      /\ Spec.common_prefix (Spec.segments p) (Spec.segments b)
         = Spec.segments b
      /\ normpath b <> "."
      /\ startswith "//" (normpath b) = false.
Proof.
  rewrite !segments_comps_of.
  pose proof (initial_slashes_range b) as Hkb.
  pose proof (comps_of_canonical b) as Hcb.
  assert (Hret : exists r, relpath cwd (normpath p) (normpath b) = Ok r)
    by (apply relpath_returns, normpath_not_empty).
  assert (Hbase : isabs (normpath b) = negb (initial_slashes b =? 0)%nat).
  { rewrite (normpath_render_all b). now apply isabs_render. }
  pose proof (common_is_base _ _ (comps_of p) Hkb Hcb) as Hiff.
  rewrite <- normpath_render_all, <- Hbase in Hiff.
  destruct (bool_dec (isabs (normpath p)) (isabs (normpath b))) as [Ha|Ha].
  - rewrite relative_to_same_anchor by assumption. rewrite <- Hiff.
    destruct Hret as (r0 & ->). cbn [bind].
    match goal with |- context [negb (?t == normpath b)] =>
      case_eqb t (normpath b) end; cbn [negb].
    + split; [intros _; now split | intros _; eauto].
    + split; [intros (r & Hr); discriminate | intros (_ & H); now elim E].
  - rewrite relative_to_other_anchor by assumption.
    split; [intros (r & Hr); discriminate | intros (H & _); now elim Ha].
Qed.

(** *** The working directory *)

Lemma abspath_wd_some (cwd path : str) :
  abspath_wd (Some cwd) path = Ok (abspath cwd path).
Proof.
  unfold abspath_wd, abspath. now destruct (negb (startswith sep path)).
Qed.

Lemma abspath_wd_absolute (wd : option str) (cwd path : str) :
  isabs path = true -> abspath_wd wd path = Ok (abspath cwd path).
Proof.
  unfold abspath_wd, abspath, isabs. now intros ->.
Qed.

Lemma abspath_wd_gone (path : str) :
  isabs path = false -> abspath_wd None path = Raise FileNotFoundError.
Proof.
  unfold abspath_wd, isabs. now intros ->.
Qed.

Lemma relpath_wd_some (cwd path start : str) :
  relpath_wd (Some cwd) path start = relpath cwd path start.
Proof.
  unfold relpath_wd, relpath. now rewrite !abspath_wd_some.
Qed.

Lemma relpath_wd_absolute (wd : option str) (cwd path start : str) :
  isabs path = true -> isabs start = true ->
  relpath_wd wd path start = relpath cwd path start.
Proof.
  intros Hp Hs. unfold relpath_wd, relpath.
  now rewrite (abspath_wd_absolute wd cwd path Hp),
    (abspath_wd_absolute wd cwd start Hs).
Qed.

Lemma relpath_wd_gone (path start : str) :
  path <> [] -> isabs start = false ->
  relpath_wd None path start = Raise FileNotFoundError.
Proof.
  intros Hp Hs. unfold relpath_wd.
  destruct path; [congruence|]. cbn [is_empty].
  now rewrite (abspath_wd_gone start Hs).
Qed.

(** With a working directory to read, [relative_to] is the function of
    that directory. *)
Lemma relative_to_wd_some (cwd p : str) (other : list str) :
  FlexPath.relative_to_wd (Some cwd) p other = FlexPath.relative_to cwd p other.
Proof.
  unfold FlexPath.relative_to_wd, FlexPath.relative_to.
  now rewrite relpath_wd_some.
Qed.

(** For an absolute receiver the working directory is never read. *)
Lemma relative_to_wd_absolute (wd : option str) (cwd p : str)
  (other : list str) :
  isabs (normpath p) = true ->
  FlexPath.relative_to_wd wd p other = FlexPath.relative_to cwd p other.
Proof.
  intros Hp. unfold FlexPath.relative_to_wd, FlexPath.relative_to.
  rewrite Hp.
  match goal with
  | |- context [Bool.eqb true (isabs ?b)] => destruct (isabs b) eqn:Hb
  end; [|reflexivity].
  now rewrite (relpath_wd_absolute wd cwd _ _ Hp Hb).
Qed.

(** For a relative receiver and no working directory, nothing is
    returned. *)
Lemma relative_to_wd_gone (p r : str) (other : list str) :
  isabs (normpath p) = false ->
  FlexPath.relative_to_wd None p other <> Ok r.
Proof.
  intros Hp. unfold FlexPath.relative_to_wd. rewrite Hp.
  match goal with
  | |- context [Bool.eqb false (isabs ?b)] => destruct (isabs b) eqn:Hb
  end; [discriminate|].
  cbn [Bool.eqb negb].
  destruct (commonpath _) as [common|e]; [|destruct e; discriminate].
  destruct (negb _); [discriminate|].
  rewrite relpath_wd_gone by (apply normpath_not_empty || assumption).
  discriminate.
Qed.

(** X14: [is_relative_to] is true exactly when the two normalized operands
    are on the same anchor, the base's components are a prefix of the
    receiver's, the base's normalized text is neither ["."] nor under the
    double-slash root, and, when the working directory is gone so that
    [os.getcwd] raises, the receiver is absolute; which directory the
    working directory is plays no part. *)
Theorem is_relative_to_criterion (wd : option str) (p b : str) :
  FlexPath.is_relative_to_wd wd p [b] = true
  <-> isabs (normpath p) = isabs (normpath b)
      /\ Spec.common_prefix (Spec.segments p) (Spec.segments b)
         = Spec.segments b
      /\ normpath b <> "."
      /\ startswith "//" (normpath b) = false
      /\ (wd = None -> isabs (normpath p) = true).
Proof.
  assert (Hval : forall t : result str,
            (match t with Ok _ => true | Raise _ => false end) = true
            <-> exists r, t = Ok r).
  { intros [r|e]; split; eauto; try discriminate.
    intros (r & Hr). discriminate Hr. }
  unfold FlexPath.is_relative_to_wd. rewrite Hval.
  destruct wd as [cwd|].
  - rewrite relative_to_wd_some, (relative_to_returns_iff cwd p b).
    intuition discriminate.
  - destruct (isabs (normpath p)) eqn:Hp.
    + rewrite (relative_to_wd_absolute None "/" p [b] Hp).
      rewrite (relative_to_returns_iff "/" p b), Hp. tauto.
    + split.
      * intros (r & Hr). now elim (relative_to_wd_gone p r [b] Hp).
      * intros (_ & _ & _ & _ & H). discriminate (H eq_refl).
Qed.

Lemma is_relative_to_criterion_witness :
  FlexPath.is_relative_to_wd (Some (lit "/srv")) "etc/passwd" [lit "etc"]
  = true
  /\ FlexPath.is_relative_to_wd None "etc/passwd" [lit "etc"] = false.
Proof.
  split.
  - apply (proj2 (is_relative_to_criterion (Some (lit "/srv"))
                    "etc/passwd" "etc")).
    split; [reflexivity|]. split; [reflexivity|].
    split; [intros H; vm_compute in H; discriminate H|].
    split; [reflexivity | discriminate].
  - apply not_true_is_false. intros H.
    apply (proj1 (is_relative_to_criterion None "etc/passwd" "etc")) in H.
    destruct H as (_ & _ & _ & _ & H). discriminate (H eq_refl).
Defined.

(** X15: what [relative_to] does for every receiver and base, in a working
    directory that is absolute: it raises [IncompatibleAnchors] exactly
    when one normalized operand is absolute and the other is not; on a
    common anchor it raises [NotASubpath] unless the base's components are
    a prefix of the receiver's and the base's normalized text is neither
    ["."] nor under the double-slash root; and below such a base, when no
    [..] remains, it returns the remaining components joined with a slash,
    or ["."] when none remains. *)
Theorem relative_to_behaviour (cwd p b : str) :
  isabs cwd = true ->
  (FlexPath.relative_to cwd p [b] = Raise IncompatibleAnchors
   <-> isabs (normpath p) <> isabs (normpath b))
  /\ (isabs (normpath p) = isabs (normpath b) ->
      (FlexPath.relative_to cwd p [b] = Raise NotASubpath
       <-> ~ (Spec.common_prefix (Spec.segments p) (Spec.segments b)
              = Spec.segments b
              /\ normpath b <> "."
              /\ startswith "//" (normpath b) = false)))
  /\ (forall rest,
         isabs (normpath p) = isabs (normpath b) ->
         Spec.segments p = Spec.segments b ++ rest ->
         normpath b <> "." ->
         startswith "//" (normpath b) = false ->
         ~ In pardir rest ->
         FlexPath.relative_to cwd p [b]
         = Ok (if is_empty rest then curdir else sep_join sep rest)).
Proof. exact (relative_to_strict_subpath cwd p b). Qed.

Lemma relative_to_behaviour_witness :
  FlexPath.relative_to "/srv" "/home/user/docs/file.txt" [lit "/home/user"]
  = Ok (sep_join sep [lit "docs"; lit "file.txt"]).
Proof.
  apply (proj2 (proj2 (relative_to_behaviour "/srv" "/home/user/docs/file.txt"
                         "/home/user" eq_refl))
           [lit "docs"; lit "file.txt"]);
    try reflexivity; try discriminate.
  cbn. intuition discriminate.
Defined.

Lemma common_prefix_is_prefix (l1 l2 : list str) :
  Spec.common_prefix l1 l2 = l2 -> exists rest, l1 = l2 ++ rest.
Proof.
  revert l1. induction l2 as [|b l2 IH]; intros l1 H; [now exists l1|].
  destruct l1 as [|a l1]; [discriminate|].
  cbn [Spec.common_prefix] in H. case_eqb a b; [|discriminate].
  subst b. injection H as H. destruct (IH _ H) as (rest & ->).
  now exists rest.
Qed.

Lemma two_anchors (k : nat) (comps : list str) :
  (k <= 2)%nat -> canonical k comps ->
  startswith "//" (render k comps) = false ->
  k = if (k =? 0)%nat then 0%nat else 1%nat.
Proof.
  intros Hk Hcan H. pose proof (not_double_slash k comps Hk Hcan H).
  destruct k as [|[|k]]; [reflexivity | reflexivity | lia].
Qed.

(** X16: [relative_to] is inverted by joining: whenever [relative_to]
    returns [r] for a receiver that is not under the double-slash root and
    has no [..] component, joining the base with [r] constructs the
    receiver. *)
Theorem relative_to_then_join (cwd p b r : str) :
  isabs cwd = true ->
  FlexPath.relative_to cwd p [b] = Ok r ->
  startswith "//" (normpath p) = false ->
  ~ In pardir (Spec.segments p) ->
  FlexPath.joinpath (FlexPath.__new__ b) [r] = FlexPath.__new__ p.
Proof.
  intros Hcwd Hr Hp2 Hpar.
  assert (Hok : exists r, FlexPath.relative_to cwd p [b] = Ok r) by eauto.
  apply relative_to_returns_iff in Hok.
  destruct Hok as (Hanchor & Hpre & Hdot & Hb2).
  apply common_prefix_is_prefix in Hpre. destruct Hpre as (rest & Hrest).
  assert (Hrestp : ~ In pardir rest).
  { intros Hin. apply Hpar. rewrite Hrest. apply in_or_app. now right. }
  destruct (relative_to_strict_subpath cwd p b Hcwd) as (_ & _ & Hval).
  rewrite (Hval rest Hanchor Hrest Hdot Hb2 Hrestp) in Hr.
  injection Hr as <-. rewrite !segments_comps_of in *.
  pose proof (initial_slashes_range p) as Hkp.
  pose proof (initial_slashes_range b) as Hkb.
  pose proof (comps_of_canonical p) as Hcp.
  pose proof (comps_of_canonical b) as Hcb.
  assert (Hnamed : Forall named rest)
    by (apply (named_rest (initial_slashes p) (comps_of b));
        [now rewrite <- Hrest | assumption]).
  rewrite (normpath_render_all p) in Hanchor, Hp2.
  rewrite (normpath_render_all b) in Hanchor, Hb2, Hdot.
  rewrite !isabs_render in Hanchor by assumption.
  assert (Hk : initial_slashes p = initial_slashes b).
  { rewrite (two_anchors _ _ Hkp Hcp Hp2), (two_anchors _ _ Hkb Hcb Hb2).
    destruct (initial_slashes p =? 0)%nat, (initial_slashes b =? 0)%nat;
      (reflexivity || discriminate). }
  assert (Hbne : b <> []).
  { intros ->. now elim Hdot. }
  assert (Hpne : p <> []).
  { intros ->. cbn in Hrest. symmetry in Hrest. apply app_eq_nil in Hrest.
    destruct Hrest as (Hcb0 & _). rewrite Hcb0 in Hdot.
    cbn in Hk. rewrite <- Hk in Hdot. now elim Hdot. }
  rewrite (new_render p), (new_render b) by assumption.
  unfold FlexPath.joinpath, FlexPath._wrap. cbn [join fold_left].
  destruct (comps_of_render _ _ Hkb Hcb) as (Hi & Hc & Hne).
  assert (Hrel : startswith sep
                   (if is_empty rest then curdir else sep_join sep rest)
                 = false).
  { destruct rest as [|a rest]; [reflexivity|]. cbn [is_empty].
    apply sep_join_not_abs.
    eapply Forall_impl; [|exact Hnamed]. unfold named. tauto. }
  rewrite new_join_step by assumption. rewrite Hi, Hc, Hk, Hrest.
  f_equal. destruct rest as [|a rest].
  - cbn. now rewrite app_nil_r.
  - cbn [is_empty]. rewrite split_sep_join_comps.
    + now apply fold_named_append.
    + eapply Forall_impl; [|exact Hnamed]. unfold named. tauto.
    + discriminate.
Qed.

Lemma relative_to_then_join_witness :
  FlexPath.joinpath (FlexPath.__new__ "/home/user") [lit "docs/file.txt"]
  = FlexPath.__new__ "/home/user/docs/file.txt".
Proof.
  apply (relative_to_then_join "/srv" "/home/user/docs/file.txt" "/home/user"
           "docs/file.txt"); try reflexivity.
  cbn. intuition discriminate.
Defined.

Lemma startswith_sep_app (acc t : str) :
  acc <> [] -> startswith sep (acc ++ t) = startswith sep acc.
Proof.
  intros H. destruct acc as [|a acc]; [congruence|].
  cbn [app]. now rewrite !startswith_sep_cons.
Qed.

Lemma join_stays_relative (p : list str) :
  Forall (fun c => c <> [] /\ ~ In slash c) p ->
  forall acc, acc <> [] -> startswith sep acc = false ->
              startswith sep (join acc p) = false.
Proof.
  induction 1 as [|b p (Hne & Hsl) _ IH]; intros acc Hacc Hrel;
    [exact Hrel|].
  cbn [join fold_left].
  change (fold_left join_step p (join_step acc b))
    with (join (join_step acc b) p).
  assert (Hb : startswith sep b = false).
  { destruct b as [|z b]; [congruence|].
    apply startswith_sep_other. intros ->. apply Hsl. now left. }
  unfold join_step. rewrite Hb.
  destruct (is_empty acc || endswith sep acc).
  - apply IH; [destruct acc; [congruence | discriminate]|].
    now rewrite startswith_sep_app.
  - apply IH; [destruct acc; [congruence | discriminate]|].
    now rewrite startswith_sep_app.
Qed.

Lemma in_skipn {A} (x : A) (n : nat) (l : list A) :
  In x (skipn n l) -> In x l.
Proof.
  intros H. rewrite <- (firstn_skipn n l). apply in_or_app. now right.
Qed.

Lemma relpath_relative (cwd path start rel : str) :
  relpath cwd path start = Ok rel -> startswith sep rel = false.
Proof.
  unfold relpath. destruct (is_empty path); [discriminate|].
  rewrite commonprefix_pair. cbn [bind].
  set (path_list := filter (fun x => negb (is_empty x))
                           (split slash (abspath cwd path))).
  set (common := Spec.common_prefix _ _).
  set (n := Z.to_nat _).
  assert (Hall : Forall (fun c => c <> [] /\ ~ In slash c)
                   (repeat pardir n ++ slice_from (len common) path_list)).
  { apply Forall_app. split; apply Forall_forall; intros c Hc.
    - apply repeat_spec in Hc. subst c. split; [discriminate|].
      cbn. intuition discriminate.
    - unfold slice_from in Hc. apply in_skipn in Hc.
      unfold path_list in Hc. apply filter_In in Hc.
      destruct Hc as (Hin & Hne). split.
      + destruct c; [discriminate | discriminate].
      + pose proof (split_pieces_clean slash (abspath cwd path)) as Hcl.
        rewrite Forall_forall in Hcl. now apply Hcl. }
  destruct (repeat pardir n ++ slice_from (len common) path_list)
    as [|a p0]; intros H; injection H as <-; [reflexivity|].
  inversion Hall as [|? ? (Hne & Hsl) Hrest]; subst.
  apply join_stays_relative; try assumption.
  destruct a as [|z a]; [congruence|].
  apply startswith_sep_other. intros ->. apply Hsl. now left.
Qed.

(** X17: [relative_to] never returns an absolute path, whatever the
    receiver, the base fragments and the working directory. *)
Theorem relative_to_returns_relative (cwd p r : str) (other : list str) :
  FlexPath.relative_to cwd p other = Ok r -> FlexPath.is_absolute r = false.
Proof.
  unfold FlexPath.relative_to.
  destruct (negb _); [discriminate|].
  destruct (commonpath _) as [common|e]; [|destruct e; discriminate].
  destruct (negb _); [discriminate|].
  destruct (relpath cwd _ _) as [rel|e] eqn:E; [|discriminate].
  cbn [bind]. intros H. injection H as <-.
  unfold FlexPath._wrap, FlexPath.is_absolute. rewrite new_isabs.
  apply relpath_relative in E.
  match goal with
  | |- context [if ?c then _ else _] => destruct c
  end; [reflexivity | exact E].
Qed.

Lemma relative_to_returns_relative_witness :
  FlexPath.is_absolute "docs/file.txt" = false.
Proof.
  apply (relative_to_returns_relative "/srv" "/home/user/docs/file.txt"
           "docs/file.txt" [lit "/home/user"]).
  reflexivity.
Defined.

(** X18: a base that normalizes to the current directory is always refused:
    [relative_to] raises and [is_relative_to] is false for every receiver
    when the base's normalized text is ["."], as for the empty base, for
    ["."], and when no base is given. *)
Theorem relative_to_current_directory (cwd p b : str) :
  normpath b = "." ->
  raised (FlexPath.relative_to cwd p [b]) = true /\
  FlexPath.is_relative_to cwd p [b] = false /\
  raised (FlexPath.relative_to cwd p []) = true /\
  FlexPath.is_relative_to cwd p [] = false.
Proof.
  intros Hb.
  assert (Hno : forall b', normpath b' = "." ->
                  forall r, FlexPath.relative_to cwd p [b'] <> Ok r).
  { intros b' Hb' r Hr.
    assert (Hok : exists r, FlexPath.relative_to cwd p [b'] = Ok r) by eauto.
    apply relative_to_returns_iff in Hok. tauto. }
  assert (Hnone : FlexPath.relative_to cwd p []
                  = FlexPath.relative_to cwd p [lit ""]) by reflexivity.
  unfold FlexPath.is_relative_to. rewrite Hnone.
  pose proof (Hno b Hb) as H1. pose proof (Hno (lit "") eq_refl) as H2.
  destruct (FlexPath.relative_to cwd p [b]) as [r|e];
    [now elim (H1 r)|].
  destruct (FlexPath.relative_to cwd p [lit ""]) as [r|e'];
    [now elim (H2 r)|].
  repeat split.
Qed.

Lemma relative_to_current_directory_witness :
  raised (FlexPath.relative_to "/srv" "a/b" [lit "."]) = true.
Proof.
  apply (relative_to_current_directory "/srv" "a/b" "."). reflexivity.
Defined.

(** ** [absolute] *)

(** X19: in an absolute working directory, [absolute] returns an absolute
    path; it returns an absolute receiver as constructed, and for a
    relative receiver the working directory joined with it. *)
Theorem absolute_is_absolute (cwd p : str) :
  isabs cwd = true ->
  FlexPath.is_absolute (FlexPath.absolute cwd p) = true /\
  (FlexPath.is_absolute p = true ->
   FlexPath.absolute cwd p = FlexPath.__new__ p) /\
  (FlexPath.is_absolute p = false ->
   FlexPath.absolute cwd p = FlexPath.__rtruediv__ p cwd).
Proof.
  intros Hcwd.
  assert (Hfix : forall t, t <> [] ->
                   FlexPath.__new__ (normpath t) = FlexPath.__new__ t).
  { intros t Ht. rewrite <- (new_nonempty t) by assumption. apply new_fixed. }
  assert (Habs : FlexPath.is_absolute p = true ->
                 FlexPath.absolute cwd p = FlexPath.__new__ p).
  { unfold FlexPath.absolute, FlexPath._wrap, abspath, FlexPath.is_absolute,
      isabs. intros Hp. rewrite Hp. cbn [negb]. apply Hfix.
    intros ->. discriminate Hp. }
  assert (Hrel : FlexPath.is_absolute p = false ->
                 FlexPath.absolute cwd p = FlexPath.__rtruediv__ p cwd).
  { unfold FlexPath.absolute, FlexPath.__rtruediv__, FlexPath._wrap, abspath,
      FlexPath.is_absolute, isabs. intros Hp. rewrite Hp. cbn [negb].
    apply Hfix. cbn [join fold_left].
    apply (join_step_relative cwd p); [|assumption].
    intros ->. discriminate Hcwd. }
  split; [|split; assumption].
  destruct (FlexPath.is_absolute p) eqn:Hp.
  - rewrite Habs by reflexivity. unfold FlexPath.is_absolute.
    now rewrite new_isabs.
  - rewrite Hrel by reflexivity.
    unfold FlexPath.__rtruediv__, FlexPath._wrap, FlexPath.is_absolute.
    rewrite new_isabs. cbn [join fold_left]. unfold join_step.
    unfold FlexPath.is_absolute, isabs in Hp. rewrite Hp.
    assert (Hne : cwd <> []) by (intros ->; discriminate).
    destruct (is_empty cwd || endswith sep cwd);
      now rewrite (startswith_sep_app cwd).
Qed.

Lemma absolute_is_absolute_witness :
  FlexPath.is_absolute (FlexPath.absolute "/srv/www" "relative/path") = true.
Proof.
  apply (proj1 (absolute_is_absolute "/srv/www" "relative/path" eq_refl)).
Defined.

(** ** Conversions: [as_posix] and [as_uri] *)

Lemma as_posix_cons (c : ascii) (p : str) :
  FlexPath.as_posix (c :: p)
  = (if Ascii.eqb c FlexPath.backslash then slash else c)
      :: FlexPath.as_posix p.
Proof. reflexivity. Qed.





Lemma hex_digit_safe (d : N) : urllib.always_safe (urllib.hex_digit d) = true.
Proof.
  unfold urllib.hex_digit.
  destruct (nth_in_or_default (N.to_nat d) (lit "0123456789ABCDEF") "0"%char)
    as [H|H]; [|now rewrite H].
  revert H. generalize (nth (N.to_nat d) (lit "0123456789ABCDEF") "0"%char).
  intros c Hc. cbn in Hc.
  repeat (destruct Hc as [<-|Hc]; [reflexivity|]). contradiction.
Qed.

Lemma rstrip_set_nil (strip : ascii -> bool) (s : str) :
  urllib.rstrip_set strip s = [] -> forallb strip s = true.
Proof.
  induction s as [|a t IH]; [reflexivity|].
  cbn [urllib.rstrip_set forallb].
  destruct (urllib.rstrip_set strip t) as [|b t']; [|discriminate].
  destruct (strip a); [intros _; now apply IH | discriminate].
Qed.

Lemma quoter_kept (safe : str) (b : ascii) :
  (urllib.always_safe b || contains b safe) = true ->
  urllib.quoter safe b = [b].
Proof. unfold urllib.quoter. now intros ->. Qed.

Lemma quoter_chars (safe : str) (b : ascii) :
  forallb (fun c => urllib.always_safe c || contains c safe
                    || Ascii.eqb c "%") (urllib.quoter safe b) = true.
Proof.
  unfold urllib.quoter.
  destruct (urllib.always_safe b || contains b safe) eqn:E.
  - cbn [forallb]. now rewrite E.
  - cbn [forallb]. rewrite !hex_digit_safe.
    rewrite Ascii.eqb_refl. cbn [orb andb]. now rewrite orb_true_r.
Qed.

Lemma quote_from_bytes_chars (bs safe : str) :
  forallb (fun c => urllib.always_safe c || contains c safe
                    || Ascii.eqb c "%") (urllib.quote_from_bytes bs safe)
  = true.
Proof.
  unfold urllib.quote_from_bytes.
  destruct (is_empty bs); [reflexivity|].
  destruct (is_empty (urllib.rstrip_set _ bs)) eqn:E.
  - destruct (urllib.rstrip_set _ bs) eqn:E'; [|discriminate].
    apply rstrip_set_nil in E'. rewrite forallb_forall in *.
    intros c Hc. now rewrite (E' c Hc).
  - clear E. induction bs as [|b bs IH]; [reflexivity|].
    cbn [map concat]. rewrite forallb_app, IH, quoter_chars. reflexivity.
Qed.

Lemma quote_from_bytes_plain (bs safe : str) :
  forallb (fun c => urllib.always_safe c || contains c safe) bs = true ->
  urllib.quote_from_bytes bs safe = bs.
Proof.
  intros H. unfold urllib.quote_from_bytes.
  destruct bs as [|b bs]; [reflexivity|]. cbn [is_empty].
  destruct (is_empty (urllib.rstrip_set _ (b :: bs))); [reflexivity|].
  revert H. generalize (b :: bs). intros l.
  induction l as [|c l IH]; [reflexivity|].
  cbn [forallb map concat]. intros H. apply andb_true_iff in H.
  destruct H as (Hc & Hl). rewrite quoter_kept by exact Hc.
  cbn [app]. f_equal. now apply IH.
Qed.

Lemma unquoted_char (c : ascii) :
  (urllib.always_safe c || contains c "/:") = true ->
  (N_of_ascii c <? 128)%N = true /\ Ascii.eqb c FlexPath.backslash = false.
Proof.
  destruct c as [[|] [|] [|] [|] [|] [|] [|] [|]]; vm_compute;
    intros H; first [discriminate H | split; reflexivity].
Qed.

Lemma encode_utf8_plain (s : str) :
  forallb (fun c => urllib.always_safe c || contains c "/:") s = true ->
  urllib.encode_utf8 s = s /\ FlexPath.as_posix s = s.
Proof.
  induction s as [|c s IH]; [now split|].
  cbn [forallb]. intros H. apply andb_true_iff in H. destruct H as (Hc & Hs).
  destruct (unquoted_char c Hc) as (Hlt & Hb). destruct (IH Hs) as (He & Hp).
  split.
  - unfold urllib.encode_utf8. cbn [flat_map]. unfold urllib.encode_utf8_char.
    rewrite Hlt. cbn [app]. f_equal. exact He.
  - rewrite as_posix_cons, Hb. now f_equal.
Qed.

Lemma absolute_text (p : str) :
  FlexPath.is_absolute p = true -> exists p', p = slash :: p'.
Proof.
  unfold FlexPath.is_absolute, isabs. destruct p as [|a p]; [discriminate|].
  destruct (Ascii.eqb_spec a slash) as [->|Ha]; [eauto|].
  now rewrite startswith_sep_other.
Qed.

Lemma concat_quoter_kept (safe : str) (l : str) :
  forallb (fun c => urllib.always_safe c || contains c safe) l = true ->
  concat (map (urllib.quoter safe) l) = l.
Proof.
  induction l as [|c l IH]; [reflexivity|].
  cbn [forallb map concat]. intros H. apply andb_true_iff in H.
  destruct H as (Hc & Hl). rewrite quoter_kept by exact Hc.
  cbn [app]. f_equal. now apply IH.
Qed.

(** [quote_from_bytes] quotes byte by byte: its shortcut for a text without
    any byte to quote returns what the general case would. *)
Lemma quote_from_bytes_each (bs safe : str) :
  urllib.quote_from_bytes bs safe = concat (map (urllib.quoter safe) bs).
Proof.
  unfold urllib.quote_from_bytes.
  destruct bs as [|b bs]; [reflexivity|]. cbn [is_empty].
  destruct (urllib.rstrip_set _ (b :: bs)) eqn:E; [|reflexivity].
  cbn [is_empty]. symmetry. apply concat_quoter_kept.
  now apply rstrip_set_nil.
Qed.

Lemma concat_quoter_chars (safe : str) (l : str) :
  forallb (fun c => urllib.always_safe c || contains c safe
                    || Ascii.eqb c "%")
    (concat (map (urllib.quoter safe) l)) = true.
Proof.
  induction l as [|c l IH]; [reflexivity|].
  cbn [map concat]. now rewrite forallb_app, IH, quoter_chars.
Qed.

Lemma encode_utf8_ascii (s : str) :
  forallb (fun c => (N_of_ascii c <? 128)%N) s = true ->
  urllib.encode_utf8 s = s.
Proof.
  induction s as [|c s IH]; [reflexivity|].
  cbn [forallb]. intros H. apply andb_true_iff in H. destruct H as (Hc & Hs).
  unfold urllib.encode_utf8. cbn [flat_map]. unfold urllib.encode_utf8_char.
  rewrite Hc. cbn [app]. f_equal. now apply IH.
Qed.

Lemma as_posix_ascii (s : str) :
  forallb (fun c => (N_of_ascii c <? 128)%N) s = true ->
  forallb (fun c => (N_of_ascii c <? 128)%N) (FlexPath.as_posix s) = true.
Proof.
  induction s as [|c s IH]; [reflexivity|].
  rewrite as_posix_cons. cbn [forallb]. intros H.
  apply andb_true_iff in H. destruct H as (Hc & Hs).
  rewrite (IH Hs), andb_true_r.
  destruct (Ascii.eqb c FlexPath.backslash); [reflexivity | exact Hc].
Qed.

(** X21: [as_uri] raises [InvalidState] for a path that is not absolute.
    For an absolute path of ASCII characters it returns ["file://"]
    followed by the path with every backslash turned into a slash and every
    character quoted on its own: a letter, a digit, a character of
    ["_.-~"], a slash or a colon is kept, any other becomes a percent sign
    and two hexadecimal digits.  The text after ["file://"] starts with a
    slash and holds only letters, digits, the characters of ["_.-~"],
    slashes, colons and percent signs. *)
Theorem as_uri_shape (p : str) :
  (FlexPath.is_absolute p = false -> FlexPath.as_uri p = Raise InvalidState)
  /\ (FlexPath.is_absolute p = true ->
      forallb (fun c => (N_of_ascii c <? 128)%N) p = true ->
      exists q,
        FlexPath.as_uri p = Ok (lit "file://" ++ slash :: q)
        /\ slash :: q
           = concat (map (urllib.quoter "/:") (FlexPath.as_posix p))
        /\ forallb (fun c => urllib.always_safe c || contains c "/:"
                             || Ascii.eqb c "%") q = true).
Proof.
  unfold FlexPath.as_uri. split; intros Hp; rewrite Hp; [reflexivity|].
  intros Hascii. cbn [negb].
  assert (Hq : urllib.quote (FlexPath.as_posix p) "/:"
               = concat (map (urllib.quoter "/:") (FlexPath.as_posix p))).
  { unfold urllib.quote.
    destruct (is_empty (FlexPath.as_posix p)) eqn:E.
    - now destruct (FlexPath.as_posix p).
    - rewrite encode_utf8_ascii by now apply as_posix_ascii.
      apply quote_from_bytes_each. }
  rewrite Hq. destruct (absolute_text p Hp) as (p' & ->).
  rewrite as_posix_cons.
  replace (Ascii.eqb slash FlexPath.backslash) with false by reflexivity.
  exists (concat (map (urllib.quoter "/:") (FlexPath.as_posix p'))).
  split; [reflexivity|]. split; [reflexivity|].
  apply concat_quoter_chars.
Qed.

Lemma as_uri_shape_witness :
  exists q,
    FlexPath.as_uri "/home/user/my file.txt" = Ok (lit "file://" ++ slash :: q)
    /\ slash :: q = lit "/home/user/my%20file.txt"
    /\ forallb (fun c => urllib.always_safe c || contains c "/:"
                         || Ascii.eqb c "%") q = true.
Proof.
  apply (proj2 (as_uri_shape "/home/user/my file.txt")); reflexivity.
Defined.

(** X22: [as_uri] leaves a plain path as it is: for an absolute path made
    of letters, digits, the characters of ["_.-~"], slashes and colons, the
    result is ["file://"] followed by the path. *)
Theorem as_uri_plain (p : str) :
  FlexPath.is_absolute p = true ->
  forallb (fun c => urllib.always_safe c || contains c "/:") p = true ->
  FlexPath.as_uri p = Ok (lit "file://" ++ p).
Proof.
  intros Hp Hs. unfold FlexPath.as_uri. rewrite Hp. cbn [negb].
  destruct (encode_utf8_plain p Hs) as (He & Hq). rewrite Hq.
  unfold urllib.quote. destruct (is_empty p); [reflexivity|].
  rewrite He. now rewrite quote_from_bytes_plain.
Qed.

Lemma as_uri_plain_witness :
  FlexPath.as_uri "/home/user/notes-2.txt"
  = Ok (lit "file://" ++ lit "/home/user/notes-2.txt").
Proof.
  apply (as_uri_plain "/home/user/notes-2.txt"); reflexivity.
Defined.

(** ** The slash operator is associative *)

Lemma normpath_step_skipped (k : nat) (acc : list str) (c : str) :
  negb (is_empty c) && negb (c == curdir) = false ->
  normpath_step k acc c = acc.
Proof.
  intros H. unfold normpath_step. destruct c as [|a c]; [reflexivity|].
  cbn [is_empty negb andb] in H. apply negb_false_iff in H.
  rewrite H. now rewrite orb_true_r.
Qed.

Lemma normpath_step_kept (k : nat) (acc : list str) (c : str) :
  negb (is_empty c) && negb (c == curdir) = true ->
  ~ In slash c -> (c == pardir) = false ->
  normpath_step k acc c = acc ++ [c].
Proof.
  intros H Hs Hp. apply normpath_step_named.
  apply andb_true_iff in H. destruct H as (H1 & H2).
  apply negb_true_iff in H2.
  repeat split; [destruct c; [discriminate H1 | discriminate] | assumption
                | now apply eqb_str_false | now apply eqb_str_false].
Qed.

Lemma fold_step_filter (k : nat) (l : list str) :
  forall acc,
    fold_left (normpath_step k)
      (filter (fun c => negb (is_empty c) && negb (c == curdir)) l) acc
    = fold_left (normpath_step k) l acc.
Proof.
  induction l as [|c l IH]; intros acc; [reflexivity|].
  cbn [filter fold_left].
  destruct (negb (is_empty c) && negb (c == curdir)) eqn:E.
  - cbn [fold_left]. apply IH.
  - rewrite (normpath_step_skipped k acc c E). apply IH.
Qed.

Lemma normpath_step_pardir_snoc (k : nat) (acc : list str) (d : str) :
  normpath_step k (acc ++ [d]) pardir
  = if d == pardir then acc ++ [d] ++ [pardir] else acc.
Proof.
  unfold normpath_step.
  change (pardir == empty) with false. change (pardir == curdir) with false.
  rewrite eqb_str_refl. cbn [negb orb].
  assert (He : is_empty (acc ++ [d]) = false) by (destruct acc; reflexivity).
  rewrite He, last_last, andb_false_r. cbn [negb andb orb].
  destruct (d == pardir); [now rewrite <- app_assoc | apply removelast_last].
Qed.

(** The loop of [normpath] run over the components it computed for a
    relative text has the effect of the loop run over the text's pieces,
    from any accumulated components. *)
Lemma fold_step_components (k : nat) (segs : list str) :
  Forall (fun c => ~ In slash c) segs ->
  forall acc,
    fold_left (normpath_step k) (fold_left (normpath_step 0) segs []) acc
    = fold_left (normpath_step k) segs acc.
Proof.
  induction segs as [|c segs IH] using rev_ind; intros Hall acc;
    [reflexivity|].
  apply Forall_app in Hall. destruct Hall as (Hsegs & Hc).
  inversion Hc as [|? ? Hcs _]; subst.
  rewrite !fold_left_app. cbn [fold_left]. rewrite <- (IH Hsegs acc).
  pose proof (fold_normpath_step_canonical 0 segs Hsegs [] (canonical_nil 0))
    as Hcan.
  remember (fold_left (normpath_step 0) segs []) as N eqn:EN. clear EN IH.
  destruct (negb (is_empty c) && negb (c == curdir)) eqn:E;
    [|now rewrite !normpath_step_skipped by assumption].
  destruct (c == pardir) eqn:Ep.
  - apply eqb_str_true in Ep. subst c.
    destruct N as [|d N] using rev_ind; [reflexivity|]. clear IHN.
    rewrite normpath_step_pardir_snoc.
    destruct (d == pardir) eqn:Ed.
    + rewrite !fold_left_app. reflexivity.
    + rewrite fold_left_app. cbn [fold_left].
      symmetry. apply normpath_step_cancel.
      apply canonical_forall in Hcan. apply Forall_app in Hcan.
      destruct Hcan as (_ & Hd). inversion Hd as [|? ? (H1 & H2 & H3) _]; subst.
      repeat split; try assumption. now apply eqb_str_false.
  - rewrite (normpath_step_kept 0 N c) by assumption.
    rewrite fold_left_app. cbn [fold_left].
    now rewrite (normpath_step_kept k _ c) by assumption.
Qed.

Lemma initial_slashes_relative (p : str) :
  startswith sep p = false -> initial_slashes p = 0%nat.
Proof.
  intros H. destruct (initial_slashes_prefix p) as (_ & Ha).
  change (startswith "/" p) with (startswith sep p) in Ha.
  rewrite H in Ha. apply negb_false_iff in Ha. now apply Nat.eqb_eq.
Qed.

(** Joining a fragment respects normalization of the fragment. *)
Lemma join_step_congr_right (a p : str) :
  FlexPath.__new__ (join_step a (FlexPath.__new__ p))
  = FlexPath.__new__ (join_step a p).
Proof.
  pose proof (new_isabs p) as Habs. unfold isabs in Habs.
  change (startswith "/" p) with (startswith sep p) in Habs.
  destruct (startswith sep p) eqn:Hp.
  { unfold join_step. rewrite Hp, Habs. apply new_fixed. }
  destruct p as [|x p]; [reflexivity|].
  destruct a as [|y a].
  { unfold join_step. rewrite Hp, Habs. cbn [is_empty orb app].
    apply new_fixed. }
  rewrite !new_join_step by (assumption || discriminate).
  f_equal.
  rewrite (new_render (x :: p)) by discriminate.
  rewrite (initial_slashes_relative _ Hp).
  pose proof (comps_of_canonical (x :: p)) as Hcan.
  rewrite (initial_slashes_relative _ Hp) in Hcan.
  rewrite <- fold_step_filter.
  rewrite (proj1 (split_render 0 _ (Nat.le_0_l 2) Hcan)).
  unfold comps_of. rewrite (initial_slashes_relative _ Hp).
  apply fold_step_components, split_pieces_clean.
Qed.

Lemma endswith_sep_app (a b : str) :
  b <> [] -> endswith sep (a ++ b) = endswith sep b.
Proof.
  intros Hb. destruct b as [|c b] using rev_ind; [congruence|].
  now rewrite app_assoc, !endswith_sep_snoc.
Qed.

Lemma join_step_rel (a b : str) :
  startswith sep b = false ->
  join_step a b
  = if is_empty a || endswith sep a then a ++ b else a ++ sep ++ b.
Proof. intros H. unfold join_step. now rewrite H. Qed.

Lemma join_step_stays_relative (a b : str) :
  a <> [] -> startswith sep b = false ->
  startswith sep (join_step a b) = startswith sep a.
Proof.
  intros Ha Hb. rewrite join_step_rel by assumption.
  destruct (is_empty a || endswith sep a);
    now rewrite startswith_sep_app.
Qed.

(** [os.path.join] is associative on texts. *)
Lemma join_step_assoc (p q r : str) :
  join_step (join_step p q) r = join_step p (join_step q r).
Proof.
  destruct (startswith sep r) eqn:Hr.
  { unfold join_step. now rewrite Hr, Hr. }
  destruct q as [|c q].
  { rewrite (join_step_rel [] r Hr). cbn [is_empty orb app].
    rewrite (join_step_rel p []) by reflexivity.
    rewrite (join_step_rel p r Hr), (join_step_rel _ r Hr).
    destruct p as [|y p]; [reflexivity|]. cbn [is_empty orb].
    rewrite !app_nil_r.
    destruct (endswith sep (y :: p)) eqn:E; [now rewrite E|].
    rewrite (endswith_sep_app (y :: p) sep) by discriminate.
    change (endswith sep sep) with true.
    assert (He : is_empty ((y :: p) ++ sep) = false) by reflexivity.
    rewrite He. cbn [orb]. now rewrite <- app_assoc. }
  assert (Hqr : startswith sep (join_step (c :: q) r)
                = startswith sep (c :: q))
    by (apply join_step_stays_relative; [discriminate | assumption]).
  destruct (startswith sep (c :: q)) eqn:Hq.
  { unfold join_step at 2 3. now rewrite Hq, Hqr. }
  rewrite (join_step_rel p _ Hqr), (join_step_rel _ r Hr),
    (join_step_rel p _ Hq), (join_step_rel _ r Hr).
  cbn [is_empty orb].
  assert (E1 : forall u : str, is_empty (u ++ c :: q) = false)
    by (intros u; destruct u; reflexivity).
  destruct (is_empty p || endswith sep p).
  - rewrite E1, (endswith_sep_app p (c :: q)) by discriminate. cbn [orb].
    destruct (endswith sep (c :: q)); now rewrite <- !app_assoc.
  - rewrite (app_assoc p sep (c :: q)), E1.
    rewrite (endswith_sep_app (p ++ sep) (c :: q)) by discriminate.
    cbn [orb].
    destruct (endswith sep (c :: q)); now rewrite <- !app_assoc.
Qed.

(** X23: the slash operator is associative: for all paths and fragments,
    joining [p / q] with [r] gives what joining [p] with [q / r] gives. *)
Theorem truediv_associative (p q r : str) :
  FlexPath.__truediv__ (FlexPath.__truediv__ p q) r
  = FlexPath.__truediv__ p (FlexPath.__truediv__ q r).
Proof.
  unfold FlexPath.__truediv__, FlexPath.joinpath, FlexPath._wrap.
  cbn [join fold_left].
  rewrite join_step_congr_right.
  rewrite (join_step_congr (FlexPath.__new__ (join_step p q)) (join_step p q))
    by apply new_fixed.
  now rewrite join_step_assoc.
Qed.

(** ** The empty fragment, the reflected operator, and children *)

Lemma join_step_empty_left (q : str) : join_step [] q = q.
Proof. unfold join_step. now destruct (startswith sep q). Qed.

Lemma new_join_step_empty (p : str) :
  FlexPath.__new__ (join_step p []) = FlexPath.__new__ p.
Proof.
  destruct p as [|a p]; [reflexivity|].
  rewrite new_join_step by (discriminate || reflexivity).
  now rewrite new_render by discriminate.
Qed.

(** X24: the empty fragment is neutral for the slash operator: joining any
    path with the empty text, or the empty path with any fragment, only
    constructs the other operand. *)
Theorem truediv_empty_neutral (p : str) :
  FlexPath.__truediv__ p "" = FlexPath.__new__ p
  /\ FlexPath.__truediv__ "" p = FlexPath.__new__ p
  /\ FlexPath.__truediv__ (FlexPath.__new__ p) "" = FlexPath.__new__ p.
Proof.
  unfold FlexPath.__truediv__, FlexPath.joinpath, FlexPath._wrap.
  cbn [join fold_left]. split; [|split].
  - apply (new_join_step_empty p).
  - change (lit "") with (@nil ascii). now rewrite join_step_empty_left.
  - change (lit "") with (@nil ascii).
    rewrite (new_join_step_empty (FlexPath.__new__ p)). apply new_fixed.
Qed.

(** X25: the reflected slash operator agrees with the slash operator on the
    constructed left operand: [other / self] for a text [other] is what
    [FlexPath(other) / self] gives. *)
Theorem rtruediv_is_truediv (self other : str) :
  FlexPath.__rtruediv__ self other
  = FlexPath.__truediv__ (FlexPath.__new__ other) self.
Proof.
  unfold FlexPath.__rtruediv__, FlexPath.__truediv__, FlexPath.joinpath,
    FlexPath._wrap. cbn [join fold_left].
  apply join_step_congr. symmetry. apply new_fixed.
Qed.

(** X26: a child knows its parent: joining a constructed path other than
    the empty one with a component that is not empty, has no slash and is
    neither ["."] nor [".."] gives a path whose name is the component and
    whose parent is the path joined. *)
Theorem child_name_and_parent (x c : str) :
  (FlexPath.__new__ x == "") = false ->
  (c == "") = false -> contains slash c = false ->
  (c == ".") = false -> (c == "..") = false ->
  FlexPath.name (FlexPath.__truediv__ (FlexPath.__new__ x) c) = c
  /\ FlexPath.parent (FlexPath.__truediv__ (FlexPath.__new__ x) c)
     = FlexPath.__new__ x.
Proof.
  intros Hx H1 H2 H3 H4.
  assert (Hc : named c).
  { repeat split; [now apply eqb_str_false | now apply contains_false
                  | now apply eqb_str_false | now apply eqb_str_false]. }
  destruct (new_cases x) as [He|(k & comps & Hk & Hcan & Hr)].
  { rewrite He in Hx. discriminate Hx. }
  assert (Hcan' : canonical k (comps ++ [c])) by now apply canonical_snoc.
  unfold FlexPath.__truediv__, FlexPath.joinpath, FlexPath._wrap.
  cbn [join fold_left]. rewrite Hr.
  rewrite (join_last_component k comps c Hk Hcan').
  split; [now apply name_render | now apply parent_render].
Qed.

Lemma child_name_and_parent_witness :
  FlexPath.name (FlexPath.__truediv__ (FlexPath.__new__ "/srv//www/") "site")
  = lit "site"
  /\ FlexPath.parent
       (FlexPath.__truediv__ (FlexPath.__new__ "/srv//www/") "site")
     = FlexPath.__new__ "/srv//www/".
Proof.
  apply (child_name_and_parent "/srv//www/" "site"); reflexivity.
Defined.
